(** * The DataJoint tutorial pipeline: calcium imaging and electrophysiology

    A shallow embedding of the table classes the tutorial notebooks define
    ([Scan], [AverageFrame], [SegmentationParam], [Segmentation] with its part
    [Roi], [Fluorescence] with its part [Trace], [Neuron]) and of their
    [make] methods, over a small relational store.

    Python dictionaries ([key], the rows handed to [insert1]) are finite maps
    from attribute names to values.  A [make] method is a computation in a
    state-and-exception monad: the state keeps the tables, the files on disk,
    what was printed, which files were opened and the order of the writes;
    an exception leaves the state as it was when it was raised.

    A finite float is modelled by the rational it denotes: comparisons are
    exact, and an arithmetic operation gives the float64 nearest to the exact
    result.  The samples of a TIFF page are integers. *)

From Stdlib Require Import QArith Qround Qabs Qpower ZArith Ascii String List.
From Stdlib Require Import DecimalString Lia.
From Stdlib Require DecimalZ DecimalPos Qcanon.
From stdpp Require Import gmap strings list fin_maps sorting.

Open Scope string_scope.
Open Scope list_scope.
Open Scope Z_scope.

(** ** Values *)

(** What [np.load] returns for a data file: an array of rank 0, 1 or 2. *)
Inductive npy :=
| Npy0 (x : Q)
| Npy1 (v : list Q)
| Npy2 (m : list (list Q)).

(** A file of the data directory: a TIFF (pages of rows of integer samples,
    all pages of one shape) or a saved NumPy array. *)
Inductive file :=
| TifFile (pages : list (list (list Z)))
| NpyFile (a : npy).

(** What [io.imread] returns for a TIFF: an array of two or of three axes. *)
Inductive ndarray :=
| Arr2 (a : list (list Z))
| Arr3 (a : list (list (list Z))).

(** A float64: a finite number, held as the rational it denotes, an
    infinity, or not-a-number. *)
Inductive float :=
| Fin (q : Q)
| Inf (negative : bool)
| NaN.

(** The values of attributes: integers, floats, text (a date is held as its
    ISO text, which is what [str] of a fetched date gives and what the
    notebooks insert), and the arrays stored in [longblob] attributes: of
    floats, of labels and of booleans, with two axes or with one. *)
Inductive value :=
| VInt (z : Z)
| VFloat (q : Q)
| VStr (s : string)
| VVec (v : list Q)
| VImage (a : list (list Q))
| VLabels (l : list (list Z))
| VMask (m : list (list bool))
| VFloats (v : list float)
| VLabels1 (l : list Z)
| VMask1 (m : list bool).

#[global] Instance Q_eq_dec : EqDecision Q.
Proof. solve_decision. Defined.

#[global] Instance float_eq_dec : EqDecision float.
Proof. solve_decision. Defined.

#[global] Instance npy_eq_dec : EqDecision npy.
Proof. solve_decision. Defined.

#[global] Instance file_eq_dec : EqDecision file.
Proof. solve_decision. Defined.

#[global] Instance value_eq_dec : EqDecision value.
Proof. solve_decision. Defined.

(** A Python dict with string keys: a primary key, a row. *)
Abbreviation row := (gmap string value).

(** ** The schema *)

Inductive tbl :=
| Session | Scan | AverageFrame | SegmentationParam | Segmentation | Roi
| Fluorescence | Trace | Neuron.

#[global] Instance tbl_eq_dec : EqDecision tbl.
Proof. solve_decision. Defined.

Definition all_tables : list tbl :=
  [Session; Scan; AverageFrame; SegmentationParam; Segmentation; Roi;
   Fluorescence; Trace; Neuron].

(** Modelled from the spec: the heading of [Session], which is declared in
    [pipeline.mouse] and not in the notebooks; its attributes are the ones the
    notebooks insert ([mouse_id], [session_date], [experiment_setup],
    [experimenter]) and fetch ([data_path]). *)
Definition Session_pk : list string := ["mouse_id"; "session_date"].

(** The primary key of each table, inherited attributes first, as the
    [definition] strings of the classes give them ([-> Parent] inherits the
    parent's primary key). *)
Definition pk (t : tbl) : list string :=
  match t with
  | Session => Session_pk
  | Scan => Session_pk ++ ["scan_idx"]
  | AverageFrame => Session_pk ++ ["scan_idx"]
  | SegmentationParam => ["seg_param_id"]
  | Segmentation => (Session_pk ++ ["scan_idx"]) ++ ["seg_param_id"]
  | Roi => ((Session_pk ++ ["scan_idx"]) ++ ["seg_param_id"]) ++ ["roi_idx"]
  | Fluorescence => (Session_pk ++ ["scan_idx"]) ++ ["seg_param_id"]
  | Trace => ((Session_pk ++ ["scan_idx"]) ++ ["seg_param_id"]) ++ ["roi_idx"]
  | Neuron => Session_pk ++ ["neuron_id"]
  end.

(** The attributes below the [---] line of each [definition]. *)
Definition secondary (t : tbl) : list string :=
  match t with
  | Session => ["experiment_setup"; "experimenter"; "data_path"]
  | Scan => ["depth"; "wavelength"; "laser_power"; "fps"; "file_name"]
  | AverageFrame => ["average_frame"]
  | SegmentationParam => ["threshold"; "size_cutoff"]
  | Segmentation => ["segmented_masks"]
  | Roi => ["mask"]
  | Fluorescence => ["time"]
  | Trace => ["trace"]
  | Neuron => ["activity"]
  end.

Definition attrs (t : tbl) : list string := pk t ++ secondary t.

(** The attributes a row must give.  The definitions in the notebooks declare
    no default, so every attribute is required; for [Session] only the
    primary key is known to be. *)
Definition required (t : tbl) : list string :=
  match t with
  | Session => pk Session
  | _ => attrs t
  end.

(** The tables a table references ([-> Parent], [-> master]). *)
Definition parents (t : tbl) : list tbl :=
  match t with
  | Session => []
  | Scan => [Session]
  | AverageFrame => [Scan]
  | SegmentationParam => []
  | Segmentation => [AverageFrame; SegmentationParam]
  | Roi => [Segmentation]
  | Fluorescence => [Segmentation]
  | Trace => [Fluorescence; Roi]
  | Neuron => [Session]
  end.

(** The master of a part table. *)
Definition master (t : tbl) : option tbl :=
  match t with
  | Roi => Some Segmentation
  | Trace => Some Fluorescence
  | _ => None
  end.

(** ** The store *)

Definition DB := tbl -> list row.

Definition empty_db : DB := fun _ => [].

Definition set_table (d : DB) (t : tbl) (rows : list row) : DB :=
  fun t' => if decide (t' = t) then rows else d t'.

(** Two rows agree on a list of attributes: both give each of them, with the
    same value. *)
Definition agree_on (names : list string) (r1 r2 : row) : Prop :=
  Forall (fun a => is_Some (r1 !! a) /\ r1 !! a = r2 !! a) names.

#[global] Instance agree_on_dec names r1 r2 : Decision (agree_on names r1 r2).
Proof. unfold agree_on. apply _. Defined.

(** A restriction by a dict, [T & key]: a row is kept when it has the value
    of [key] at every attribute both have; attributes of [key] the row does
    not have are ignored. *)
Definition matches (key r : row) : Prop :=
  map_Forall (fun a v => match r !! a with Some w => v = w | None => True end) key.

#[global] Instance matches_dec key r : Decision (matches key r).
Proof. unfold matches. apply map_Forall_dec. intros a v. destruct (r !! a); apply _. Defined.

Definition restrict (rows : list row) (key : row) : list row :=
  filter (matches key) rows.

(** [T.proj()]: a row cut down to the primary key. *)
Definition proj (names : list string) (r : row) : row :=
  filter (fun av => av.1 ∈ names) r.

(** ** Exceptions and the monad of [make] *)

Inductive exc :=
| NotImplementedError
| DataJointError
| DuplicateError
| IntegrityError
| FileNotFoundError
| IndexError
| TypeError
| ValueError
| KeyError.

#[global] Instance exc_eq_dec : EqDecision exc.
Proof. solve_decision. Defined.

(** What [print] wrote: a line of text, or a text followed by a dict. *)
Inductive output :=
| Line (s : string)
| KeyLine (s : string) (k : row).

Record world := World {
  db : DB;
  files : gmap string file;
  stdout : list output;
  opened : list string;
  journal : list (tbl * row * DB);
  calls : list (tbl * row)
}.

Definition M (A : Type) : Type := world -> world * (exc + A).

Definition ret {A} (a : A) : M A := fun w => (w, inr a).

Definition raise {A} (e : exc) : M A := fun w => (w, inl e).

Definition bind {A B} (m : M A) (k : A -> M B) : M B :=
  fun w => match m w with
           | (w', inr a) => k a w'
           | (w', inl e) => (w', inl e)
           end.

Notation "x <- c1 ;; c2" := (bind c1 (fun x => c2))
  (at level 100, c1 at next level, right associativity).
Notation "c1 ;; c2" := (bind c1 (fun _ => c2))
  (at level 100, right associativity).

Definition get_db : M DB := fun w => (w, inr (db w)).

Definition print (o : output) : M unit :=
  fun w => (World (db w) (files w) (stdout w ++ [o]) (opened w) (journal w) (calls w), inr tt).

(** Opening a file for reading: the path is noted, a missing file raises. *)
Definition open_file (path : string) : M file :=
  fun w =>
    let w' := World (db w) (files w) (stdout w) (opened w ++ [path]) (journal w) (calls w) in
    match files w !! path with
    | Some f => (w', inr f)
    | None => (w', inl FileNotFoundError)
    end.

(** [for x in l: body x] *)
Fixpoint for_each {A} (l : list A) (body : A -> M unit) : M unit :=
  match l with
  | [] => ret tt
  | x :: rest => body x ;; for_each rest body
  end.

(** ** The table operations of the library

    Modelled from the spec: [insert1], [insert], [fetch1] and [fetch] are
    operations of the external library; the notebooks only call them.  The
    model is a relational store that keeps primary keys unique and refuses a
    row whose parent is missing. *)

Definition row_ok (t : tbl) (r : row) : Prop :=
  Forall (fun a => is_Some (r !! a)) (required t) /\
  Forall (fun a => a ∈ attrs t) (elements (dom r)).

#[global] Instance row_ok_dec t r : Decision (row_ok t r).
Proof. unfold row_ok. apply _. Defined.

Definition has_key (rows : list row) (names : list string) (r : row) : Prop :=
  Exists (agree_on names r) rows.

Definition parents_present (d : DB) (t : tbl) (r : row) : Prop :=
  Forall (fun p => has_key (d p) (pk p) r) (parents t).

(** [T.insert1(r)]: refuses a row that misses a required attribute or names
    an attribute the table does not have, a primary key the table already
    holds, and a row one of whose parents is missing; otherwise the row is
    appended and the write is noted in the journal with the store it left. *)
Definition insert1 (t : tbl) (r : row) : M unit :=
  fun w =>
    let d := db w in
    if decide (row_ok t r) then
      if decide (has_key (d t) (pk t) r) then (w, inl DuplicateError)
      else if decide (parents_present d t r) then
        let d' := set_table d t (d t ++ [r]) in
        (World d' (files w) (stdout w) (opened w) (journal w ++ [(t, r, d')]) (calls w),
         inr tt)
      else (w, inl IntegrityError)
    else (w, inl DataJointError).

(** [T.insert(rows)], row by row. *)
Definition insert (t : tbl) (rows : list row) : M unit :=
  for_each rows (insert1 t).

(** [(T & key).fetch1(...)]: the restriction must hold exactly one row. *)
Definition fetch1_row (t : tbl) (key : row) : M row :=
  fun w =>
    match restrict (db w t) key with
    | [r] => (w, inr r)
    | _ => (w, inl DataJointError)
    end.

Definition attr (r : row) (a : string) : M value :=
  match r !! a with
  | Some v => ret v
  | None => raise DataJointError
  end.

Definition fetch1 (t : tbl) (key : row) (a : string) : M value :=
  r <- fetch1_row t key ;; attr r a.

(** [(T & key).fetch('KEY', a)]: the primary key and one attribute of every
    row of the restriction. *)
Definition fetch_key_and (t : tbl) (key : row) (a : string) : M (list (row * value)) :=
  fun w =>
    match mapM (fun r => v ← r !! a; Some (proj (pk t) r, v)) (restrict (db w t) key) with
    | Some l => (w, inr l)
    | None => (w, inl DataJointError)
    end.

(** ** Python and NumPy helpers *)

(** [str(z)] of an integer: its decimal text. *)
Definition dec_Z (z : Z) : string := NilZero.string_of_int (Z.to_int z).

(** [str(v)] for the kinds of value a primary key holds. *)
Definition py_str (v : value) : option string :=
  match v with
  | VInt z => Some (dec_Z z)
  | VStr s => Some s
  | _ => None
  end.

(** One replacement field of [str.format] with the names of [key]: a missing name raises
    [KeyError]. *)
Definition format_field (key : row) (a : string) : M string :=
  match key !! a with
  | None => raise KeyError
  | Some v => match py_str v with
              | Some s => ret s
              | None => raise TypeError
              end
  end.

(** the dict of [key] with [a=v] added, as Python's [dict] builds it from keywords: a name given twice raises [TypeError]. *)
Definition dict_with (key : row) (a : string) (v : value) : M row :=
  match key !! a with
  | Some _ => raise TypeError
  | None => ret (<[a := v]> key)
  end.

Definition as_str (v : value) : M string :=
  match v with VStr s => ret s | _ => raise TypeError end.

Definition as_float (v : value) : M Q :=
  match v with
  | VFloat q => ret q
  | VInt z => ret (inject_Z z)
  | _ => raise TypeError
  end.

(** The fetched [average_frame].  The array operations of [make] take an
    array of any number of axes: an array of one axis (the average of a
    one-page file) is followed as the image of one row, with the note that
    it has one axis. *)
Definition as_image (v : value) : M (bool * list (list Q)) :=
  match v with
  | VImage a => ret (false, a)
  | VVec v => ret (true, [v])
  | _ => raise TypeError
  end.

(** An array of labels, and one of booleans, followed as an image: with one
    axis again when the image stood for an array of one axis. *)
Definition labels_value (one_axis : bool) (l : list (list Z)) : value :=
  if one_axis then VLabels1 (concat l) else VLabels l.

Definition mask_value (one_axis : bool) (m : list (list bool)) : value :=
  if one_axis then VMask1 (concat m) else VMask m.

Definition as_mask (v : value) : M (list (list bool)) :=
  match v with
  | VMask m => ret m
  | VMask1 m => ret [m]
  | _ => raise TypeError
  end.

Definition ends_with_slash (s : string) : bool :=
  match rev (list_ascii_of_string s) with
  | c :: _ => bool_decide (c = "/"%char)
  | [] => false
  end.

(** [os.path.join(a, b)] on a POSIX system. *)
Definition os_path_join (a b : string) : string :=
  if String.prefix "/" b then b
  else if bool_decide (a = "") then b
  else if ends_with_slash a then a +:+ b
  else a +:+ "/" +:+ b.

(** [np.load(path)] *)
Definition np_load (path : string) : M npy :=
  f <- open_file path ;;
  match f with
  | NpyFile a => ret a
  | TifFile _ => raise ValueError
  end.

(** The array of pages with its first axis moved last:
    [swapaxes(-1, -3)] then [swapaxes(-2, -3)]. *)
Definition move_first_axis_last (a : list (list (list Z))) : list (list (list Z)) :=
  imap (fun x r =>
          imap (fun y _ =>
                  map (fun page : list (list Z) =>
                         default 0 (page !! x ≫= fun r' => r' !! y)) a) r)
       (hd [] a).

(** What [skimage.io.imread] makes of the pages of a TIFF: one page comes
    as an array of two axes, rows by columns; several pages come as pages by
    rows by columns, except that for 3 or 4 pages of other than 3 or 4
    columns the page axis is moved last (the pages are taken for colour
    channels).  A file without a page is not a TIFF. *)
Definition skimage_imread (pages : list (list (list Z))) : option ndarray :=
  match pages with
  | [] => None
  | [p] => Some (Arr2 p)
  | p :: _ =>
      let n := length pages in
      let cols := length (hd [] p) in
      if decide ((n = 3 \/ n = 4)%nat /\ ~ (cols = 3 \/ cols = 4)%nat)
      then Some (Arr3 (move_first_axis_last pages))
      else Some (Arr3 pages)
  end.

(** [skimage.io.imread(path)] *)
Definition io_imread (path : string) : M ndarray :=
  f <- open_file path ;;
  match f with
  | TifFile pages =>
      match skimage_imread pages with
      | Some a => ret a
      | None => raise ValueError
      end
  | NpyFile _ => raise ValueError
  end.

(** The slices of an array along its first axis; an array of rank 0 has
    none to give. *)
Definition npy_slices (a : npy) : option (list value) :=
  match a with
  | Npy0 _ => None
  | Npy1 v => Some (map VFloat v)
  | Npy2 m => Some (map VVec m)
  end.

(** Iterating over an array yields its slices along the first axis; an
    array of rank 0 cannot be iterated. *)
Definition np_iter (a : npy) : M (list value) :=
  match npy_slices a with
  | Some items => ret items
  | None => raise TypeError
  end.

(** [a.shape[0]] *)
Definition shape0 (a : npy) : option nat :=
  match a with
  | Npy0 _ => None
  | Npy1 v => Some (length v)
  | Npy2 m => Some (length m)
  end.

(** ** Floating-point arithmetic

    [fl q] is the float64 nearest to [q], ties going to the even
    significand: 53 significant bits, and multiples of [2^-1074] below
    [2^-1022].  It has no largest float: a result of magnitude [2^1024] or
    more, which float64 turns into an infinity, is dealt with in
    [true_divide]; the sums of integer samples formed here stay far below
    it. *)

(** The integer [e] with [2^e <= q < 2^(e+1)], for [q > 0]. *)
Definition floor_log2 (q : Q) : Z :=
  let l := Z.log2 (Qnum q) - Z.log2 (Zpos (Qden q)) in
  if Qle_bool (2 ^ l) q then l else l - 1.

(** The integer nearest to [q], the even one of two equally near. *)
Definition round_half_even (q : Q) : Z :=
  let f := Qfloor q in
  match (q - inject_Z f ?= 1 # 2)%Q with
  | Lt => f
  | Gt => f + 1
  | Eq => if Z.even f then f else f + 1
  end.

(** The float64 nearest to [q], in lowest terms. *)
Definition fl (q : Q) : Q :=
  let q := Qred q in
  if Qeq_bool q 0 then 0%Q
  else
    let a := Qabs q in
    let e := Z.max (floor_log2 a) (-1022) in
    let ulp := (2 ^ (e - 52))%Q in
    let m := inject_Z (round_half_even (a / ulp)) in
    Qred (if Qle_bool 0 q then m * ulp else - (m * ulp)).

(** An integer sample as a float64. *)
Definition of_int (z : Z) : Q := fl (inject_Z z).

(** [a + b] of two floats. *)
Definition fadd (a b : Q) : Q := fl (a + b).

(** [a / b] of two floats as NumPy divides: a division by [0] gives
    not-a-number for [0 / 0] and an infinity otherwise. *)
Definition true_divide (a b : Q) : float :=
  if Qeq_bool b 0 then
    if Qeq_bool a 0 then NaN else Inf (negb (Qle_bool 0 a))
  else
    let r := fl (a / b) in
    if Qle_bool (2 ^ 1024) (Qabs r) then Inf (negb (Qle_bool 0 r)) else Fin r.

Definition img_add (a b : list (list Q)) : list (list Q) :=
  zip_with (zip_with fadd) a b.

(** [np.mean(im, axis=0)] of an integer array of three axes: the samples
    are taken as float64, the frames are added up pixel by pixel in their
    order and the sum is divided by the number of frames.  ([io.imread]
    gives no array without a frame, which is where NumPy would answer
    not-a-number.) *)
Definition np_mean_axis0 (im : list (list (list Z))) : list (list Q) :=
  match map (map (map of_int)) im with
  | [] => []
  | f :: rest =>
      map (map (fun s => fl (s / inject_Z (Z.of_nat (length im)))))
          (fold_left img_add rest f)
  end.

(** [np.mean(im, axis=0)] of an integer array of two axes: the rows are
    added up and divided by their number. *)
Definition np_mean_axis0_rows (a : list (list Z)) : list Q :=
  match map (map of_int) a with
  | [] => []
  | r :: rest =>
      map (fun s => fl (s / inject_Z (Z.of_nat (length a))))
          (fold_left (zip_with fadd) rest r)
  end.

(** [np.mean(im, axis=0)] of what [io.imread] returned. *)
Definition np_mean (im : ndarray) : value :=
  match im with
  | Arr2 a => VVec (np_mean_axis0_rows a)
  | Arr3 a => VImage (np_mean_axis0 a)
  end.

(** ** [Neuron] (electrophysiology, imported) *)

(** The dict [key] after the two assignments of one iteration. *)
Definition Neuron_row (key : row) (idx : Z) (d : value) : row :=
  <["activity" := d]> (<["neuron_id" := VInt idx]> key).

(** The body of [for idx, d in enumerate(data)]: [key] is the one dict the
    loop keeps writing to. *)
Fixpoint Neuron_make_loop (items : list value) (idx : Z) (key : row) : M unit :=
  match items with
  | [] => ret tt
  | d :: rest =>
      let key := <["neuron_id" := VInt idx]> key in
      let key := <["activity" := d]> key in
      insert1 Neuron key ;;
      n <- format_field key "neuron_id" ;;
      m <- format_field key "mouse_id" ;;
      s <- format_field key "session_date" ;;
      print (Line ("Populated neuron=" +:+ n +:+ " for mouse_id=" +:+ m
                   +:+ " on session_date=" +:+ s)) ;;
      Neuron_make_loop rest (idx + 1) key
  end.

(** The text ['{data_dir}/data_{mouse_id}_{session_date}.npy'] formatted
    with the names of [key] and [data_dir]; a name given twice raises. *)
Definition data_file_of (data_dir : string) (key : row) : M string :=
  match key !! "data_dir" with
  | Some _ => raise TypeError
  | None =>
      m <- format_field key "mouse_id" ;;
      s <- format_field key "session_date" ;;
      ret (data_dir +:+ "/data_" +:+ m +:+ "_" +:+ s +:+ ".npy")
  end.

(** The path [data_dir/data_{mouse_id}_{session_date}.npy]. *)
Definition Neuron_data_file (data_dir : string) (mouse_id : Z) (session_date : string) : string :=
  data_dir +:+ "/data_" +:+ dec_Z mouse_id +:+ "_" +:+ session_date +:+ ".npy".

Definition Neuron_make (data_dir : string) (key : row) : M unit :=
  data_file <- data_file_of data_dir key ;;
  data <- np_load data_file ;;
  items <- np_iter data ;;
  Neuron_make_loop items 0 key.

(** ** [AverageFrame] (calcium imaging, imported) *)

Definition tab : string := String (Ascii.ascii_of_nat 9) "".

Definition AverageFrame_make (key : row) : M unit :=
  data_path <- (v <- fetch1 Session key "data_path" ;; as_str v) ;;
  file_name <- (v <- fetch1 Scan key "file_name" ;; as_str v) ;;
  im <- io_imread (os_path_join data_path file_name) ;;
  let avg_image := np_mean im in
  let key := <["average_frame" := avg_image]> key in
  insert1 AverageFrame key ;;
  m <- format_field key "mouse_id" ;;
  s <- format_field key "session_date" ;;
  i <- format_field key "scan_idx" ;;
  print (Line (tab +:+ "Populated Scan " +:+ m +:+ " - " +:+ s +:+ " - " +:+ i)).

(** The class as first written (and as the second cell rewrites it):
    [make] only prints its key. *)
Definition AverageFrame_make_print (key : row) : M unit :=
  print (KeyLine "key is" key).

(** ** [Segmentation] (computed) and its part [Roi] *)

Definition Qltb (x y : Q) : bool := (Qnum x * QDen y <? Qnum y * QDen x)%Z.

(** [avg_image > threshold] *)
Definition img_gt (a : list (list Q)) (threshold : Q) : list (list bool) :=
  map (map (fun x => Qltb threshold x)) a.

(** [label_im == i] *)
Definition img_eq (a : list (list Z)) (i : Z) : list (list bool) :=
  map (map (fun x => bool_decide (x = i))) a.

Fixpoint insert_sorted (x : Z) (l : list Z) : list Z :=
  match l with
  | [] => [x]
  | y :: rest =>
      if x <? y then x :: l
      else if x =? y then l
      else y :: insert_sorted x rest
  end.

(** [np.unique(a)]: the distinct values of [a], ascending. *)
Definition np_unique (a : list (list Z)) : list Z :=
  fold_right insert_sorted [] (concat a).

(** [np.sum(label_im == i)] *)
Definition count_eq (a : list (list Z)) (i : Z) : Z :=
  Z.of_nat (length (filter (fun x => x = i) (concat a))).

(** [a[i]] for one index of an index array: a negative index counts from
    the end, an index out of range is an error. *)
Definition np_index {A} (a : list A) (i : Z) : option A :=
  let n := Z.of_nat (length a) in
  if decide (0 <= i < n) then a !! Z.to_nat i
  else if decide (- n <= i < 0) then a !! Z.to_nat (i + n)
  else None.

(** [a[idx]] for an integer index array [idx]. *)
Definition fancy_index {A} (a : list A) (idx : list (list Z)) : M (list (list A)) :=
  match mapM (mapM (np_index a)) idx with
  | Some r => ret r
  | None => raise IndexError
  end.

(** [label_im[pixel_to_remove] = 0] *)
Definition zero_where (label_im : list (list Z)) (m : list (list bool)) : list (list Z) :=
  zip_with (zip_with (fun x (b : bool) => if b then 0 else x)) label_im m.

Fixpoint map_M {A B} (f : A -> M B) (l : list A) : M (list B) :=
  match l with
  | [] => ret []
  | x :: rest => y <- f x ;; ys <- map_M f rest ;; ret (y :: ys)
  end.

Definition dec_nat (n : nat) : string := dec_Z (Z.of_nat n).

Definition newline : string := String (Ascii.ascii_of_nat 10) "".

(** The size filter of [make]: [sizes], [small_size_filter],
    [pixel_to_remove] and the assignment. *)
Definition size_filter (label_im : list (list Z)) (size_cutoff : Q) : M (list (list Z)) :=
  let sizes := map (count_eq label_im) (np_unique label_im) in
  let small_size_filter := map (fun s => Qltb (inject_Z s) size_cutoff) sizes in
  pixel_to_remove <- fancy_index small_size_filter label_im ;;
  ret (zero_where label_im pixel_to_remove).

(** [ndimage_label] stands for [scipy.ndimage.label], which the notebook
    imports: it gives the label image and the number of labels. *)
Definition Segmentation_make
    (ndimage_label : list (list bool) -> list (list Z) * Z) (key : row) : M unit :=
  print (KeyLine "Populating for: " key) ;;
  avg_image <- (v <- fetch1 AverageFrame key "average_frame" ;; as_image v) ;;
  param <- fetch1_row SegmentationParam key ;;
  threshold <- (v <- attr param "threshold" ;; as_float v) ;;
  size_cutoff <- (v <- attr param "size_cutoff" ;; as_float v) ;;
  let mask := img_gt avg_image.2 threshold in
  let '(label_im, nb_labels) := ndimage_label mask in
  label_im <- size_filter label_im size_cutoff ;;
  rois <- map_M (fun i => r <- dict_with key "roi_idx" (VInt i) ;;
                          dict_with r "mask" (mask_value avg_image.1 (img_eq label_im i)))
                (tail (np_unique label_im)) ;;
  m <- dict_with key "segmented_masks" (labels_value avg_image.1 label_im) ;;
  insert1 Segmentation m ;;
  print (Line ("Detected " +:+ dec_nat (length rois) +:+ " ROIs!" +:+ newline)) ;;
  insert Roi rois.

(** ** [Fluorescence] (imported) and its part [Trace] *)

(** [np.shape(im)] of an array of three axes. *)
Definition np_shape3 (im : list (list (list Z))) : nat * nat * nat :=
  (length im, length (hd [] im), length (hd [] (hd [] im))).

(** [np.mean] of a vector of integers: the samples are taken as float64
    and added up, and the sum is divided by their number; not-a-number for
    no sample.  NumPy adds the samples of a long vector in blocks, not one
    after the other: the sums are the same whenever no addition rounds, as
    for integers whose magnitudes sum to less than [2^53]. *)
Definition np_mean1 (v : list Z) : float :=
  true_divide (fold_left fadd (map of_int v) 0%Q) (inject_Z (Z.of_nat (length v))).

(** [v[mask]] for a boolean [mask] as long as [v]. *)
Definition select {A} (v : list A) (mask : list bool) : list A :=
  omap (fun xb : A * bool => if xb.2 then Some xb.1 else None) (zip v mask).

Definition trace_of (im_reshaped : list (list Z)) (w h : nat) (km : row * value) : M row :=
  mask <- as_mask km.2 ;;
  mask_reshaped <- (if decide (length (concat mask) = (w * h)%nat)
                    then ret (concat mask) else raise ValueError) ;;
  let trace := map (fun frame => np_mean1 (select frame mask_reshaped)) im_reshaped in
  dict_with km.1 "trace" (VFloats trace).

Definition Fluorescence_make (key : row) : M unit :=
  print (KeyLine "Populating: " key) ;;
  data_path <- (v <- fetch1 Session key "data_path" ;; as_str v) ;;
  file_name <- (v <- fetch1 Scan key "file_name" ;; as_str v) ;;
  im <- io_imread (os_path_join data_path file_name) ;;
  match im with
  | Arr2 _ => raise ValueError
  | Arr3 im =>
      let '(n, w, h) := np_shape3 im in
      let im_reshaped := map (fun frame => concat frame) im in
      fps <- (v <- fetch1 Scan key "fps" ;; as_float v) ;;
      m <- dict_with key "time"
             (VFloats (map (fun i => true_divide (of_int (Z.of_nat i)) fps) (seq 0 n))) ;;
      insert1 Fluorescence m ;;
      rois <- fetch_key_and Roi key "mask" ;;
      traces <- map_M (trace_of im_reshaped w h) rois ;;
      insert Trace traces
  end.

(** ** [populate]

    Modelled from the spec: [populate] is the driver method of the external
    library.  The spec's words: a driver method enumerates missing dependent
    entries and invokes a user-supplied per-entry computation callback.  The
    entries are the join of the parents' primary keys; one is missing when
    the table holds no row for it.  A class without [make] has nothing to
    invoke: the invocation raises [NotImplementedError]. *)

Definition join_rows (r1 r2 : row) : option row :=
  if decide (matches r1 r2) then Some (r1 ∪ r2) else None.

Definition join (l1 l2 : list row) : list row :=
  l1 ≫= fun r1 => omap (join_rows r1) l2.

Definition keys_of (d : DB) (t : tbl) : list row := map (proj (pk t)) (d t).

Definition key_source (t : tbl) (d : DB) : list row :=
  match parents t with
  | [] => []
  | p :: ps => fold_left (fun acc q => join acc (keys_of d q)) ps (keys_of d p)
  end.

Definition present (rows : list row) (key : row) : Prop := Exists (matches key) rows.

Definition to_do (t : tbl) (d : DB) : list row :=
  filter (fun k => ~ present (d t) k) (key_source t d).

Definition note_call (t : tbl) (key : row) : M unit :=
  fun w => (World (db w) (files w) (stdout w) (opened w) (journal w) (calls w ++ [(t, key)]),
            inr tt).

Definition invoke (make : option (row -> M unit)) (key : row) : M unit :=
  match make with
  | Some f => f key
  | None => raise NotImplementedError
  end.

Definition populate (t : tbl) (make : option (row -> M unit)) : M unit :=
  d <- get_db ;;
  for_each (to_do t d) (fun key => note_call t key ;; invoke make key).

(** ** [delete]

    Modelled from the spec: [delete] is an operation of the external library
    with cascade-delete semantics.  A row goes when the restriction selects
    it in the table the call is made on, or when it references, in one of its
    parents, a row that goes.  The library asks before it commits; [confirm]
    is the answer. *)

Fixpoint doomed (fuel : nat) (d : DB) (target : tbl) (restr : row -> bool)
    (t : tbl) (r : row) : bool :=
  (bool_decide (t = target) && restr r) ||
  match fuel with
  | O => false
  | S f =>
      existsb (fun p =>
        existsb (fun pr => bool_decide (agree_on (pk p) r pr)
                           && doomed f d target restr p pr) (d p))
        (parents t)
  end.

Definition after_delete (d : DB) (target : tbl) (restr : row -> bool) : DB :=
  fun t => filter (fun r => doomed (length all_tables) d target restr t r = false) (d t).

Definition delete (target : tbl) (restr : row -> bool) (confirm : bool) : M unit :=
  fun w =>
    if confirm then
      (World (after_delete (db w) target restr) (files w) (stdout w) (opened w)
             (journal w) (calls w), inr tt)
    else (w, inr tt).

(** The restriction ['seg_param_id = 0']. *)
Definition seg_param_id_is (n : Z) (r : row) : bool :=
  bool_decide (r !! "seg_param_id" = Some (VInt n)).

(** ** Invariants of the store *)

(** Every row references an existing row in each parent of its table. *)
Definition ref_integrity (d : DB) : Prop :=
  forall t r, r ∈ d t -> parents_present d t r.

(** No part row without its master row. *)
Definition parts_have_master (d : DB) : Prop :=
  forall t m r, master t = Some m -> r ∈ d t -> has_key (d m) (pk m) r.

Definition rows_ok (d : DB) : Prop := forall t r, r ∈ d t -> row_ok t r.

Definition unique_keys (d : DB) : Prop := forall t, NoDup (keys_of d t).

(** ** The keys [populate] hands to [make] *)

Definition Session_key (mouse_id : Z) (session_date : string) : row :=
  <["mouse_id" := VInt mouse_id]> (<["session_date" := VStr session_date]> ∅).

Definition Scan_key (mouse_id : Z) (session_date : string) (scan_idx : Z) : row :=
  <["scan_idx" := VInt scan_idx]> (Session_key mouse_id session_date).

Definition Segmentation_key (mouse_id : Z) (session_date : string) (scan_idx seg_param_id : Z)
  : row :=
  <["seg_param_id" := VInt seg_param_id]> (Scan_key mouse_id session_date scan_idx).

(** ** The rows the calcium-imaging notebook inserts into [Scan] *)

Definition Scan_row (mouse_id : Z) (session_date : string) (scan_idx : Z)
    (depth wavelength laser_power fps : Z) (file_name : string) : row :=
  <["depth" := VInt depth]> (<["wavelength" := VInt wavelength]>
  (<["laser_power" := VInt laser_power]> (<["fps" := VInt fps]>
  (<["file_name" := VStr file_name]> (Scan_key mouse_id session_date scan_idx))))).

Definition Scan_inserted : list row :=
  [ Scan_row 0 "2017-05-15" 1 150 920 26 15 "example_scan_01.tif";
    Scan_row 0 "2017-05-15" 2 200 920 24 15 "example_scan_02.tif" ].

Definition Scan_inserted_later : row :=
  Scan_row 100 "2017-05-25" 1 150 920 25 15 "example_scan_03.tif".

Definition notebook_Scan_inserts : M unit :=
  insert Scan Scan_inserted ;; insert1 Scan Scan_inserted_later.

Definition is_digit (c : ascii) : bool :=
  let n := nat_of_ascii c in (48 <=? n)%nat && (n <=? 57)%nat.

(** The form [example_scan_NN.tif], [NN] two decimal digits. *)
Definition is_example_scan (s : string) : bool :=
  match list_ascii_of_string s with
  | "e" :: "x" :: "a" :: "m" :: "p" :: "l" :: "e" :: "_" :: "s" :: "c" :: "a" :: "n"
    :: "_" :: d1 :: d2 :: "." :: "t" :: "i" :: "f" :: [] => is_digit d1 && is_digit d2
  | _ => false
  end%char.

(** ** Example states *)

(** A session as [pipeline.mouse] holds it. *)
Definition Session_row (mouse_id : Z) (session_date : string) (experiment_setup : Z)
    (experimenter data_path : string) : row :=
  <["experiment_setup" := VInt experiment_setup]> (<["experimenter" := VStr experimenter]>
  (<["data_path" := VStr data_path]> (Session_key mouse_id session_date))).

(** The electrophysiology notebook before [Neuron.populate()]: one session
    and its data file, a 1-by-1000 array. *)
Definition ephys_world : world :=
  World (set_table empty_db Session [Session_row 100 "2017-05-25" 1 "Jacob Reimer" "/data"])
        (<["/data/data_100_2017-05-25.npy" := NpyFile (Npy2 [replicate 1000 (1 # 2)%Q])]> ∅)
        [] [] [] [].

(** ** What a computation leaves alone *)

(** [unchanged m]: [m] reads the world and never writes to it. *)
Definition unchanged {A} (m : M A) : Prop := forall w, (m w).1 = w.

(** [invariant P m]: [P] holds after [m], returned or raised, when it held
    before. *)
Definition invariant (P : world -> Prop) {A} (m : M A) : Prop :=
  forall w, P w -> P (m w).1.

(** Every row of [Scan] names a file of the form [example_scan_NN.tif]. *)
Definition Scan_names_ok (d : DB) : Prop :=
  Forall (fun r => exists fn, r !! "file_name" = Some (VStr fn) /\ is_example_scan fn = true)
         (d Scan).

(** ** Reading arrays in statements *)

(** The sample at row [i], column [j] of an image ([0] outside it). *)
Definition px (a : list (list Q)) (i j : nat) : Q :=
  default 0%Q (a !! i ≫= fun r => r !! j).

(** An image of [wd] rows of [ht] samples. *)
Definition has_shape {A} (wd ht : nat) (a : list (list A)) : Prop :=
  length a = wd /\ Forall (fun r => length r = ht) a.

(** The arithmetic mean of a list of numbers. *)
Definition arith_mean (l : list Q) : Q :=
  (fold_right Qplus 0 l / inject_Z (Z.of_nat (length l)))%Q.

(** The sample at row [i], column [j] of a page ([0] outside it). *)
Definition sample (a : list (list Z)) (i j : nat) : Z :=
  default 0 (a !! i ≫= fun r => r !! j).

(** The sum of the magnitudes of a list of integers. *)
Definition sum_abs (l : list Z) : Z :=
  fold_right (fun s acc => Z.abs s + acc) 0 l.

(** ** Reading label images in statements *)

(** The element at row [x], column [y] of an array, if it has one. *)
Definition at2 {A} (a : list (list A)) (x y : nat) : option A :=
  a !! x ≫= fun r => r !! y.

(** [np.sum(mask)]: how many samples of a mask are [True]. *)
Definition count_true (m : list (list bool)) : Z :=
  Z.of_nat (length (filter (fun b => b = true) (concat m))).

(** What [scipy.ndimage.label] promises about the label image it gives for
    a mask with at least one background sample: the labels are [0..nb], each
    of them used, and a sample has a label other than [0] only where the
    mask is [True]. *)
Definition label_contract (mask : list (list bool)) (label_im : list (list Z)) (nb : Z)
  : Prop :=
  0 <= nb
  /\ (forall v, v ∈ concat label_im -> 0 <= v <= nb)
  /\ (forall k, 0 <= k <= nb -> k ∈ concat label_im)
  /\ (forall x y v, at2 label_im x y = Some v -> v <> 0 -> at2 mask x y = Some true).

(** What the size filter leaves of a label: [0] when fewer than
    [size_cutoff] samples carry it. *)
Definition keep_large (label_im : list (list Z)) (size_cutoff : Q) (v : Z) : Z :=
  if Qltb (inject_Z (count_eq label_im v)) size_cutoff then 0 else v.

(** The part row of one label of the filtered label image. *)
Definition Roi_row (key : row) (label_im : list (list Z)) (i : Z) : row :=
  <["mask" := VMask (img_eq label_im i)]> (<["roi_idx" := VInt i]> key).

(** The tables the entries of a journal were written to, in order. *)
Definition tables_written (j : list (tbl * row * DB)) : list tbl :=
  map (fun e => e.1.1) j.

(** The number a float attribute holds (an integer given for a float
    attribute counts as that number). *)
Definition float_of (v : value) : option Q :=
  match v with
  | VFloat q => Some q
  | VInt z => Some (inject_Z z)
  | _ => None
  end.

(** ** What [Segmentation.make] needs to run for a key *)

(** The state in which [populate] calls [Segmentation.make]: the key's
    [AverageFrame] and [SegmentationParam] rows are there, no [Segmentation]
    row yet, no part row without its master; and the labelling routine keeps
    its promise on the thresholded image. *)
Definition Segmentation_ready (ndimage_label : list (list bool) -> list (list Z) * Z)
    (key : row) (w : world) (avg : list (list Q)) (threshold size_cutoff : Q)
    (label_im : list (list Z)) (nb : Z) : Prop :=
  (exists ra, restrict (db w AverageFrame) key = [ra]
              /\ ra !! "average_frame" = Some (VImage avg))
  /\ (exists rp vt vc, restrict (db w SegmentationParam) key = [rp]
        /\ rp !! "threshold" = Some vt /\ float_of vt = Some threshold
        /\ rp !! "size_cutoff" = Some vc /\ float_of vc = Some size_cutoff)
  /\ ndimage_label (img_gt avg threshold) = (label_im, nb)
  /\ label_contract (img_gt avg threshold) label_im nb
  /\ has_key (db w AverageFrame) (pk AverageFrame) key
  /\ has_key (db w SegmentationParam) (pk SegmentationParam) key
  /\ ~ present (db w Segmentation) key
  /\ parts_have_master (db w).

(** ** A labelling routine to run examples with

    Connected components under 4-connectivity, numbered in the order a
    row-by-row scan meets them, as [scipy.ndimage.label] numbers them. *)

Definition set2 (a : list (list Z)) (x y : nat) (v : Z) : list (list Z) :=
  alter (fun r => <[y := v]> r) x a.

Fixpoint flood (fuel : nat) (mask : list (list bool)) (label_im : list (list Z)) (k : Z)
    (work : list (nat * nat)) : list (list Z) :=
  match fuel with
  | O => label_im
  | S fuel' =>
      match work with
      | [] => label_im
      | (x, y) :: rest =>
          match at2 mask x y, at2 label_im x y with
          | Some true, Some 0 =>
              flood fuel' mask (set2 label_im x y k) k
                    ((S x, y) :: (x, S y) :: (pred x, y) :: (x, pred y) :: rest)
          | _, _ => flood fuel' mask label_im k rest
          end
      end
  end.

Definition positions {A} (a : list (list A)) : list (nat * nat) :=
  x ← seq 0 (length a); y ← seq 0 (length (default [] (a !! x))); [(x, y)].

Definition label4 (mask : list (list bool)) : list (list Z) * Z :=
  let fuel := (5 * length (concat mask) + 1)%nat in
  fold_left (fun (st : list (list Z) * Z) (xy : nat * nat) =>
               match at2 mask xy.1 xy.2, at2 st.1 xy.1 xy.2 with
               | Some true, Some 0 => (flood fuel mask st.1 (st.2 + 1) [xy], st.2 + 1)
               | _, _ => st
               end)
            (positions mask)
            (map (map (fun _ : bool => 0)) mask, 0).

(** [label_contract], as a check that can be run. *)
Definition label_contract_b (mask : list (list bool)) (label_im : list (list Z)) (nb : Z)
  : bool :=
  (0 <=? nb)
  && forallb (fun v => (0 <=? v) && (v <=? nb)) (concat label_im)
  && forallb (fun k => bool_decide (k ∈ concat label_im)) (seqZ 0 (nb + 1))
  && forallb (fun xy : nat * nat =>
                match at2 label_im xy.1 xy.2 with
                | Some v => (v =? 0) || bool_decide (at2 mask xy.1 xy.2 = Some true)
                | None => true
                end)
             (positions label_im).

(** ** The calcium-imaging example *)

(** A frame of 10 by 10 samples: a block of 54 bright samples and, apart
    from it, a block of 4. *)
Definition example_frame (bright : Z) : list (list Z) :=
  map (fun x => map (fun y => if ((x <? 6) && (y <? 9))%nat || ((7 <? x) && (7 <? y))%nat
                              then bright else 0)
                    (seq 0 10))
      (seq 0 10).

(** The notebook before [AverageFrame.populate()]: two sessions, the two
    scans inserted, their TIFF files. *)
Definition imaging_world : world :=
  World (set_table
           (set_table empty_db Session
              [Session_row 0 "2017-05-15" 0 "Edgar Y. Walker" "/data";
               Session_row 100 "2017-05-25" 1 "Jacob Reimer" "/data"])
           Scan Scan_inserted)
        (<["/data/example_scan_01.tif" := TifFile [example_frame 60; example_frame 80]]>
         (<["/data/example_scan_02.tif" := TifFile [example_frame 40; example_frame 50]]> ∅))
        [] [] [] [].

(** The notebook when [Segmentation.populate()] finds work:
    [AverageFrame] is populated and [SegmentationParam] holds [(0, 50, 50)]. *)
Definition segmentation_world : world :=
  (insert1 SegmentationParam
     (<["seg_param_id" := VInt 0]> (<["threshold" := VInt 50]>
      (<["size_cutoff" := VInt 50]> ∅)))
     (populate AverageFrame (Some AverageFrame_make) imaging_world).1).1.

(** A frame of 2 by 2 samples, all of them [v]. *)
Definition bright_frame (v : Z) : list (list Z) := [[v; v]; [v; v]].

(** The notebook when [Segmentation.populate()] finds work, had the files
    of the two scans held frames that are bright all over. *)
Definition bright_world : world :=
  (insert1 SegmentationParam
     (<["seg_param_id" := VInt 0]> (<["threshold" := VInt 50]>
      (<["size_cutoff" := VInt 50]> ∅)))
     (populate AverageFrame (Some AverageFrame_make)
        (World (db imaging_world)
               (<["/data/example_scan_01.tif" := TifFile [bright_frame 60; bright_frame 80]]>
                (<["/data/example_scan_02.tif"
                   := TifFile [bright_frame 40; bright_frame 50]]> ∅))
               [] [] [] [])).1).1.

(** ** Reasoning about runs that may raise *)

(** [triple P m Q E]: from a state with [P], [m] ends in a state with
    [Q a] when it returns [a] and in a state with [E] when it raises. *)
Definition triple (P : world -> Prop) {A} (m : M A) (Q : A -> world -> Prop)
    (E : world -> Prop) : Prop :=
  forall w, P w -> match m w with
                   | (w', inr a) => Q a w'
                   | (w', inl _) => E w'
                   end.

(** [keeps_store m]: [m] writes to no table. *)
Definition keeps_store {A} (m : M A) : Prop :=
  forall w, journal (m w).1 = journal w /\ db (m w).1 = db w.

(** The journal grew by [new]: nothing, or one write to the master table
    [tm] followed by writes to the part table [tp] only; every store a write
    left, and the store now, has no part row without its master. *)
Definition master_then_parts (tm tp : tbl) (j0 : list (tbl * row * DB)) (w : world) : Prop :=
  exists new,
    journal w = j0 ++ new
    /\ (tables_written new = [] \/ exists k, tables_written new = tm :: replicate k tp)
    /\ Forall (fun e => parts_have_master e.2) new
    /\ parts_have_master (db w).

(** The notebook when [Fluorescence.populate()] finds work: [Segmentation]
    is populated. *)
Definition fluorescence_world : world :=
  (populate Segmentation (Some (Segmentation_make label4)) segmentation_world).1.

(** How far a table is from a table without parents. *)
Definition depth (t : tbl) : nat :=
  match t with
  | Session | SegmentationParam => 0
  | Scan | Neuron => 1
  | AverageFrame => 2
  | Segmentation => 3
  | Roi | Fluorescence => 4
  | Trace => 5
  end.

(** The notebook at its end: every table of the imaging pipeline populated. *)
Definition pipeline_world : world :=
  (populate Fluorescence (Some Fluorescence_make) fluorescence_world).1.

(** ** Reading the rows of [Trace] in statements *)

(** The [mask] a row of [Roi] holds (no sample when it holds none). *)
Definition mask_of (r : row) : list (list bool) :=
  match r !! "mask" with
  | Some (VMask m) => m
  | _ => []
  end.

(** The row of [Trace] for a row [r] of [Roi] and the frames [im]: the
    primary key of [r] and, per frame, the mean of the samples the mask
    selects. *)
Definition Trace_row (im : list (list (list Z))) (r : row) : row :=
  <["trace" := VFloats (map (fun frame =>
                               np_mean1 (select (concat frame) (concat (mask_of r))))
                            im)]> (proj (pk Roi) r).

(** The samples of a page at the places where a mask is [True], row by
    row. *)
Definition masked (frame : list (list Z)) (mask : list (list bool)) : list Z :=
  xy ← positions frame;
  if decide (at2 mask xy.1 xy.2 = Some true) then [sample frame xy.1 xy.2] else [].

(** The mean of a list of integers as a float64: not-a-number for no
    sample. *)
Definition rounded_mean (l : list Z) : float :=
  match l with
  | [] => NaN
  | _ => Fin (fl (arith_mean (map inject_Z l)))
  end.

(** ** The segmentation of a scan in statements *)

(** The image of [wd] by [ht] samples whose sample at a place is the
    float64 nearest to the mean of the frames' samples there. *)
Definition mean_image (im : list (list (list Z))) (wd ht : nat) : list (list Q) :=
  map (fun x =>
         map (fun y => fl (arith_mean (map (fun frame => inject_Z (sample frame x y)) im)))
             (seq 0 ht))
      (seq 0 wd).

(** The mask that is [True] where a sample of the image is greater than
    the threshold. *)
Definition above (avg : list (list Q)) (threshold : Q) : list (list bool) :=
  map (map (fun a => if Qlt_le_dec threshold a then true else false)) avg.

(** How many places of a label image carry the label [l]. *)
Definition pixels (label_im : list (list Z)) (l : Z) : nat :=
  length (filter (fun xy : nat * nat => at2 label_im xy.1 xy.2 = Some l)
                 (positions label_im)).

(** The label image with every label carried by fewer than [size_cutoff]
    places replaced by [0]. *)
Definition without_small (label_im : list (list Z)) (size_cutoff : Q) : list (list Z) :=
  map (map (fun l => if Qlt_le_dec (inject_Z (Z.of_nat (pixels label_im l))) size_cutoff
                     then 0 else l))
      label_im.

(** A store grew from [d0] to [d] by appended rows only, and only in the
    tables [own]. *)
Definition grows_only (own : list tbl) (d0 d : DB) : Prop :=
  forall t, d0 t `prefix_of` d t /\ (t ∉ own -> d t = d0 t).

(** * Theorems *)

(** ** The monad *)

Lemma bind_ok {A B} (m : M A) (k : A -> M B) w w' a :
  m w = (w', inr a) -> bind m k w = k a w'.
Proof. intros H. unfold bind. by rewrite H. Qed.

Lemma bind_err {A B} (m : M A) (k : A -> M B) w w' e :
  m w = (w', inl e) -> bind m k w = (w', inl e).
Proof. intros H. unfold bind. by rewrite H. Qed.

Lemma Neuron_row_twice key i d j e : Neuron_row (Neuron_row key i d) j e = Neuron_row key j e.
Proof.
  unfold Neuron_row. apply map_eq. intros a.
  rewrite !lookup_insert. repeat case_decide; congruence.
Qed.


Lemma agree_on_ext names r1 r1' r2 :
  (forall a, a ∈ names -> r1 !! a = r1' !! a) ->
  agree_on names r1 r2 <-> agree_on names r1' r2.
Proof.
  intros Hext. unfold agree_on. rewrite !Forall_forall.
  split; intros H a Ha; specialize (H a Ha); specialize (Hext a Ha).
  - by rewrite <- Hext.
  - by rewrite Hext.
Qed.

Lemma insert1_ok t r w :
  row_ok t r -> ~ has_key (db w t) (pk t) r -> parents_present (db w) t r ->
  insert1 t r w =
    (World (set_table (db w) t (db w t ++ [r])) (files w) (stdout w) (opened w)
           (journal w ++ [(t, r, set_table (db w) t (db w t ++ [r]))]) (calls w),
     inr tt).
Proof. intros. unfold insert1. repeat case_decide; done. Qed.

Lemma format_field_ok key a v s w :
  key !! a = Some v -> py_str v = Some s -> format_field key a w = (w, inr s).
Proof. intros H1 H2. unfold format_field. by rewrite H1, H2. Qed.

Lemma set_table_same d t rows : set_table d t rows t = rows.
Proof. unfold set_table. by case_decide. Qed.

Lemma set_table_other d t rows t' : t' <> t -> set_table d t rows t' = d t'.
Proof. intros. unfold set_table. by case_decide. Qed.

Lemma Neuron_make_loop_ok m s items : forall idx key w,
  (forall j e, Neuron_row key j e = Neuron_row (Session_key m s) j e) ->
  has_key (db w Session) (pk Session) (Session_key m s) ->
  (forall r, r ∈ db w Neuron -> agree_on Session_pk (Session_key m s) r ->
             exists j, r !! "neuron_id" = Some (VInt j) /\ j < idx) ->
  exists w', Neuron_make_loop items idx key w = (w', inr tt)
    /\ db w' Neuron
       = db w Neuron ++ imap (fun i d => Neuron_row (Session_key m s) (idx + Z.of_nat i) d) items
    /\ (forall t, t <> Neuron -> db w' t = db w t)
    /\ opened w' = opened w /\ files w' = files w /\ calls w' = calls w.
Proof.
  induction items as [|d items IH]; intros idx key w Hkey Hsess Hold.
  - exists w. simpl. rewrite app_nil_r. done.
  - simpl. fold (Neuron_row key idx d). rewrite Hkey.
    set (r := Neuron_row (Session_key m s) idx d).
    assert (Hrow : row_ok Neuron r) by (subst r; compute_done).
    assert (Hnodup : ~ has_key (db w Neuron) (pk Neuron) r).
    { unfold has_key. rewrite Exists_exists. intros (r' & Hin & Hag).
      destruct (Hold r' Hin) as (j & Hj & Hlt).
      - unfold agree_on in *. rewrite Forall_forall in *.
        intros a Ha. specialize (Hag a).
        unfold Session_pk in Ha. rewrite !elem_of_cons in Ha.
        destruct Ha as [->|[->|Ha]]; [| |by apply elem_of_nil in Ha];
          apply Hag; compute_done.
      - unfold agree_on in Hag. rewrite Forall_forall in Hag.
        destruct (Hag "neuron_id") as [_ Heq]; [compute_done|].
        rewrite Hj in Heq. subst r. unfold Neuron_row in Heq.
        rewrite lookup_insert_ne, lookup_insert_eq in Heq by done.
        injection Heq as ->. lia. }
    assert (Hpar : parents_present (db w) Neuron r).
    { unfold parents_present. simpl. constructor; [|constructor].
      unfold has_key in *. eapply Exists_impl; [exact Hsess|].
      intros r' Hag. eapply agree_on_ext; [|exact Hag].
      intros a Ha. unfold pk, Session_pk in Ha. rewrite !elem_of_cons in Ha.
      destruct Ha as [->|[->|Ha]]; [| |by apply elem_of_nil in Ha]; reflexivity. }
    rewrite (bind_ok _ _ _ _ _ (insert1_ok _ _ _ Hrow Hnodup Hpar)).
    rewrite (bind_ok _ _ _ _ _ (format_field_ok r "neuron_id" (VInt idx) _ _ eq_refl eq_refl)).
    rewrite (bind_ok _ _ _ _ _ (format_field_ok r "mouse_id" (VInt m) _ _ eq_refl eq_refl)).
    rewrite (bind_ok _ _ _ _ _ (format_field_ok r "session_date" (VStr s) _ _ eq_refl eq_refl)).
    rewrite (bind_ok _ _ _ _ _ eq_refl).
    match goal with |- context [Neuron_make_loop items (idx + 1) r ?w1] =>
      destruct (IH (idx + 1) r w1) as (w' & Hrun & Hdb & Hoth & Hop & Hfi & Hca) end.
    + intros j e. subst r. apply Neuron_row_twice.
    + simpl. by rewrite set_table_other.
    + simpl. rewrite set_table_same. intros r' Hin Hag.
      apply elem_of_app in Hin as [Hin|Hin].
      * destruct (Hold r' Hin Hag) as (j & Hj & Hlt). exists j. split; [done|lia].
      * apply list_elem_of_singleton in Hin as ->. exists idx. split; [reflexivity|lia].
    + exists w'. split; [exact Hrun|]. simpl in *. rewrite set_table_same in Hdb.
      split.
      { rewrite Hdb, <- app_assoc. simpl. rewrite Z.add_0_r. f_equal. f_equal.
        apply imap_ext. intros i x _. simpl. f_equal. lia. }
      split; [|done].
      intros t Ht. rewrite Hoth by done. by rewrite set_table_other.
Qed.



(** ** Frame lemmas *)

Lemma unchanged_invariant P {A} (m : M A) : unchanged m -> invariant P m.
Proof. intros H w HP. by rewrite H. Qed.

Lemma unchanged_ret {A} (a : A) : unchanged (ret a).
Proof. by intros w. Qed.

Lemma unchanged_raise {A} e : unchanged (@raise A e).
Proof. by intros w. Qed.

Lemma unchanged_bind {A B} (m : M A) (k : A -> M B) :
  unchanged m -> (forall a, unchanged (k a)) -> unchanged (bind m k).
Proof.
  intros Hm Hk w. unfold bind. specialize (Hm w).
  destruct (m w) as [w1 [e|a]]; simpl in *; subst; [done|apply Hk].
Qed.

Lemma invariant_bind P {A B} (m : M A) (k : A -> M B) :
  invariant P m -> (forall a, invariant P (k a)) -> invariant P (bind m k).
Proof.
  intros Hm Hk w HP. unfold bind. specialize (Hm w HP).
  destruct (m w) as [w1 [e|a]]; simpl in *; [done|by apply Hk].
Qed.

Lemma invariant_for_each P {A} (body : A -> M unit) l :
  (forall x, invariant P (body x)) -> invariant P (for_each l body).
Proof.
  intros Hb. induction l as [|x l IH]; simpl.
  - by intros w.
  - apply invariant_bind; [apply Hb|done].
Qed.

Lemma invariant_map_M P {A B} (f : A -> M B) l :
  (forall x, invariant P (f x)) -> invariant P (map_M f l).
Proof.
  intros Hf. induction l as [|x l IH]; simpl.
  - by intros w.
  - apply invariant_bind; [apply Hf|]. intros y.
    apply invariant_bind; [done|]. by intros ys w.
Qed.

Lemma unchanged_fetch1_row t key : unchanged (fetch1_row t key).
Proof. intros w. unfold fetch1_row. by destruct (restrict _ _) as [|? [|]]. Qed.

Lemma unchanged_attr r a : unchanged (attr r a).
Proof. intros w. unfold attr. by destruct (r !! a). Qed.

Lemma unchanged_fetch1 t key a : unchanged (fetch1 t key a).
Proof.
  apply unchanged_bind; [apply unchanged_fetch1_row|intros; apply unchanged_attr].
Qed.

Lemma unchanged_fetch_key_and t key a : unchanged (fetch_key_and t key a).
Proof. intros w. unfold fetch_key_and. by destruct (mapM _ _). Qed.

Lemma unchanged_format_field key a : unchanged (format_field key a).
Proof. intros w. unfold format_field. destruct (key !! a) as [v|]; [|done]. by destruct (py_str v). Qed.

Lemma unchanged_dict_with key a v : unchanged (dict_with key a v).
Proof. intros w. unfold dict_with. by destruct (key !! a). Qed.

Lemma unchanged_as_str v : unchanged (as_str v).
Proof. intros w. by destruct v. Qed.

Lemma unchanged_as_float v : unchanged (as_float v).
Proof. intros w. by destruct v. Qed.

Lemma unchanged_as_image v : unchanged (as_image v).
Proof. intros w. by destruct v. Qed.

Lemma unchanged_as_mask v : unchanged (as_mask v).
Proof. intros w. by destruct v. Qed.

Lemma unchanged_np_iter a : unchanged (np_iter a).
Proof. intros w. unfold np_iter. by destruct (npy_slices a). Qed.

Lemma unchanged_fancy_index {A} (a : list A) idx : unchanged (fancy_index a idx).
Proof. intros w. unfold fancy_index. by destruct (mapM _ _). Qed.

Lemma unchanged_get_db : unchanged get_db.
Proof. by intros w. Qed.

Create HintDb frame.
#[export] Hint Resolve unchanged_ret unchanged_raise unchanged_fetch1_row unchanged_attr
  unchanged_fetch1 unchanged_fetch_key_and unchanged_format_field unchanged_dict_with
  unchanged_as_str unchanged_as_float unchanged_as_image unchanged_as_mask
  unchanged_np_iter unchanged_fancy_index unchanged_get_db : frame.
#[export] Hint Extern 2 (unchanged (bind _ _)) =>
  apply unchanged_bind; [|intros] : frame.
#[export] Hint Extern 2 (invariant _ (bind _ _)) =>
  apply invariant_bind; [|intros] : frame.
#[export] Hint Extern 5 (invariant _ _) => apply unchanged_invariant : frame.
#[export] Hint Extern 2 (invariant _ (for_each _ _)) =>
  apply invariant_for_each; intros : frame.
#[export] Hint Extern 2 (invariant _ (map_M _ _)) =>
  apply invariant_map_M; intros : frame.

(** A write to the tables leaves the files, the list of opened files and the
    log of calls alone, whatever it answers. *)
Lemma insert1_frame t r w :
  files (insert1 t r w).1 = files w /\ opened (insert1 t r w).1 = opened w
  /\ calls (insert1 t r w).1 = calls w /\ stdout (insert1 t r w).1 = stdout w.
Proof. unfold insert1. repeat case_decide; done. Qed.

Lemma invariant_insert1_opened X t r : invariant (fun w => opened w = X) (insert1 t r).
Proof. intros w <-. apply insert1_frame. Qed.

Lemma invariant_insert1_calls X t r : invariant (fun w => calls w = X) (insert1 t r).
Proof. intros w <-. apply insert1_frame. Qed.

Lemma invariant_print_opened X o : invariant (fun w => opened w = X) (print o).
Proof. by intros w <-. Qed.

Lemma invariant_print_calls X o : invariant (fun w => calls w = X) (print o).
Proof. by intros w <-. Qed.

Lemma invariant_open_file_calls X p : invariant (fun w => calls w = X) (open_file p).
Proof. intros w <-. unfold open_file. by destruct (files w !! p). Qed.

#[export] Hint Resolve invariant_insert1_opened invariant_insert1_calls
  invariant_print_opened invariant_print_calls invariant_open_file_calls : frame.

Lemma Neuron_make_loop_opened X items : forall idx key,
  invariant (fun w => opened w = X) (Neuron_make_loop items idx key).
Proof.
  induction items as [|d items IH]; intros idx key; simpl; auto 10 with frame.
Qed.

Lemma open_file_opened p w : opened (open_file p w).1 = opened w ++ [p].
Proof. unfold open_file. by destruct (files w !! p). Qed.


Lemma np_load_opened p w : opened (np_load p w).1 = opened w ++ [p].
Proof.
  unfold np_load, bind. pose proof (open_file_opened p w) as H.
  destruct (open_file p w) as [w1 [e|[]]]; done.
Qed.

Lemma io_imread_opened p w : opened (io_imread p w).1 = opened w ++ [p].
Proof.
  unfold io_imread, bind. pose proof (open_file_opened p w) as H.
  destruct (open_file p w) as [w1 [e|[pages|a]]]; [done| |done].
  by destruct (skimage_imread pages).
Qed.

Lemma data_file_of_Session_key data_dir m s w :
  data_file_of data_dir (Session_key m s) w = (w, inr (Neuron_data_file data_dir m s)).
Proof.
  unfold data_file_of.
  change (Session_key m s !! "data_dir") with (@None value). cbv iota beta.
  erewrite bind_ok; [|by apply (format_field_ok _ "mouse_id" (VInt m))].
  erewrite bind_ok; [|by apply (format_field_ok _ "session_date" (VStr s))].
  reflexivity.
Qed.

Lemma Neuron_make_opens data_dir m s w :
  opened (Neuron_make data_dir (Session_key m s) w).1
  = opened w ++ [Neuron_data_file data_dir m s].
Proof.
  unfold Neuron_make.
  rewrite (bind_ok _ _ _ _ _ (data_file_of_Session_key data_dir m s w)).
  pose proof (np_load_opened (Neuron_data_file data_dir m s) w) as Hop.
  unfold bind at 1.
  destruct (np_load _ w) as [w1 [e|a]]; [done|]. simpl in Hop.
  apply (invariant_bind (fun w' => opened w' = opened w ++ [Neuron_data_file data_dir m s]));
    [auto with frame| |done].
  intros items. apply Neuron_make_loop_opened.
Qed.

Lemma insert1_Scan_names_ok r :
  (exists fn, r !! "file_name" = Some (VStr fn) /\ is_example_scan fn = true) ->
  invariant (fun w => Scan_names_ok (db w)) (insert1 Scan r).
Proof.
  intros Hr w Hw. unfold insert1. repeat case_decide; try done.
  unfold Scan_names_ok in *. simpl. rewrite set_table_same.
  apply Forall_app. split; [done|]. by constructor.
Qed.

Lemma Scan_row_name_ok m s i d wl lp fps fn :
  is_example_scan fn = true ->
  exists fn', Scan_row m s i d wl lp fps fn !! "file_name" = Some (VStr fn')
              /\ is_example_scan fn' = true.
Proof. intros H. exists fn. split; [reflexivity|exact H]. Qed.

Lemma notebook_Scan_inserts_names_ok :
  invariant (fun w => Scan_names_ok (db w)) notebook_Scan_inserts.
Proof.
  unfold notebook_Scan_inserts, insert, Scan_inserted, Scan_inserted_later.
  apply invariant_bind; [|intros _; by apply insert1_Scan_names_ok, Scan_row_name_ok].
  simpl for_each.
  apply invariant_bind; [by apply insert1_Scan_names_ok, Scan_row_name_ok|intros _].
  apply invariant_bind; [by apply insert1_Scan_names_ok, Scan_row_name_ok|intros _].
  by intros w.
Qed.

Lemma fetch1_row_in t key w w' r :
  fetch1_row t key w = (w', inr r) -> w' = w /\ r ∈ db w t /\ matches key r.
Proof.
  unfold fetch1_row. destruct (restrict (db w t) key) as [|r' [|]] eqn:E; try done.
  intros [= <- <-]. split; [done|].
  assert (r' ∈ restrict (db w t) key) as Hin by (rewrite E; apply list_elem_of_here).
  unfold restrict in Hin. by apply list_elem_of_filter in Hin as [? ?].
Qed.

Lemma unchanged_run {A} (m : M A) w w' x : unchanged m -> m w = (w', x) -> w' = w.
Proof. intros Hu E. specialize (Hu w). by rewrite E in Hu. Qed.

Lemma fetch1_inv t key a w w1 v :
  fetch1 t key a w = (w1, inr v) ->
  w1 = w /\ exists r, restrict (db w t) key = [r] /\ r !! a = Some v.
Proof.
  unfold fetch1, bind, fetch1_row, attr.
  destruct (restrict (db w t) key) as [|r [|]] eqn:E; try done.
  destruct (r !! a) as [v'|] eqn:Ea; [|done].
  intros [= <- <-]. eauto.
Qed.

Lemma fetch1_str_inv t key a w w1 s :
  (v <- fetch1 t key a;; as_str v) w = (w1, inr s) ->
  w1 = w /\ exists r, restrict (db w t) key = [r] /\ r !! a = Some (VStr s).
Proof.
  unfold bind at 1. destruct (fetch1 t key a w) as [w2 [e|v]] eqn:E; [done|].
  apply fetch1_inv in E as (-> & r & Hr & Hv).
  destruct v; try done. intros [= <- <-]. eauto.
Qed.

Lemma restrict_singleton_in rows key r :
  restrict rows key = [r] -> r ∈ rows /\ matches key r.
Proof.
  intros E. assert (r ∈ restrict rows key) as Hin by (rewrite E; apply list_elem_of_here).
  unfold restrict in Hin. by apply list_elem_of_filter in Hin as [? ?].
Qed.

Lemma AverageFrame_make_opens key w w' res :
  AverageFrame_make key w = (w', res) ->
  opened w' = opened w
  \/ exists r data_path file_name,
       r ∈ db w Scan /\ matches key r /\ r !! "file_name" = Some (VStr file_name)
       /\ opened w' = opened w ++ [os_path_join data_path file_name].
Proof.
  unfold AverageFrame_make.
  unfold bind at 1.
  destruct ((v <- fetch1 Session key "data_path";; as_str v) w) as [w1 [e|dp]] eqn:E1.
  { apply (unchanged_run (v <- fetch1 Session key "data_path";; as_str v)) in E1 as ->;
      [|auto with frame]. intros [= <- _]. by left. }
  apply fetch1_str_inv in E1 as [-> _].
  unfold bind at 1.
  destruct ((v <- fetch1 Scan key "file_name";; as_str v) w) as [w1 [e|fn]] eqn:E2.
  { apply (unchanged_run (v <- fetch1 Scan key "file_name";; as_str v)) in E2 as ->;
      [|auto with frame]. intros [= <- _]. by left. }
  apply fetch1_str_inv in E2 as (-> & r & Hr & Hfn).
  apply restrict_singleton_in in Hr as [Hin Hm].
  intros Hrun. right. exists r, dp, fn. repeat (split; [done|]).
  pose proof (io_imread_opened (os_path_join dp fn) w) as Hop.
  unfold bind at 1 in Hrun.
  destruct (io_imread (os_path_join dp fn) w) as [w1 [e|im]]; simpl in Hop.
  { by injection Hrun as <- _. }
  assert (opened (w', res).1 = opened w ++ [os_path_join dp fn]) as H; [|exact H].
  rewrite <- Hrun.
  apply (invariant_bind (fun w' => opened w' = opened w ++ [os_path_join dp fn]));
    [auto with frame| |done].
  intros _. auto 10 with frame.
Qed.

(** C5: [Neuron.make], handed a session key, opens exactly one file, the
    path [data_dir/data_{mouse_id}_{session_date}.npy] made of the key's two
    attributes; the rows the notebook inserts into [Scan] keep every stored
    [file_name] of the form [example_scan_NN.tif]; and over such a [Scan]
    the one file [AverageFrame.make] opens, if it opens one, is the path
    joined from a data directory and a [file_name] of that form taken from
    the scan the key selects. *)
Theorem file_names_follow_convention :
  (forall data_dir m s w,
     opened (Neuron_make data_dir (Session_key m s) w).1
     = opened w ++ [Neuron_data_file data_dir m s])
  /\ Forall (fun r => exists fn, r !! "file_name" = Some (VStr fn)
                                 /\ is_example_scan fn = true)
            (Scan_inserted ++ [Scan_inserted_later])
  /\ (forall w, Scan_names_ok (db w) -> Scan_names_ok (db (notebook_Scan_inserts w).1))
  /\ (forall key w w' res,
        Scan_names_ok (db w) ->
        AverageFrame_make key w = (w', res) ->
        opened w' = opened w
        \/ exists data_path file_name,
             is_example_scan file_name = true
             /\ opened w' = opened w ++ [os_path_join data_path file_name]).
Proof.
  split; [apply Neuron_make_opens|].
  split.
  { unfold Scan_inserted, Scan_inserted_later. simpl.
    repeat constructor; by apply Scan_row_name_ok. }
  split; [apply notebook_Scan_inserts_names_ok|].
  intros key w w' res Hok Hrun.
  destruct (AverageFrame_make_opens key w w' res Hrun)
    as [H|(r & dp & fn & Hin & _ & Hfn & Hop)]; [by left|].
  right. exists dp, fn. split; [|done].
  unfold Scan_names_ok in Hok. rewrite Forall_forall in Hok.
  destruct (Hok r Hin) as (fn' & Hfn' & Hex). congruence.
Qed.

(** ** Floating-point arithmetic on integers *)

Lemma fl_Qeq q1 q2 : (q1 == q2)%Q -> fl q1 = fl q2.
Proof. intros H. unfold fl. by rewrite (Qred_complete _ _ H). Qed.

Lemma Qred_inject_Z z : Qred (inject_Z z) = inject_Z z.
Proof. apply Qcanon.Qred_identity. simpl. apply Z.gcd_1_r. Qed.

Lemma round_half_even_int q z : (q == inject_Z z)%Q -> round_half_even q = z.
Proof.
  intros H. unfold round_half_even.
  assert (Qfloor q = z) as -> by (rewrite (Qfloor_comp _ _ H); apply Qfloor_Z).
  assert ((q - inject_Z z ?= 1 # 2)%Q = Lt) as ->; [|done].
  apply Qlt_alt. rewrite H. unfold Qminus. rewrite Qplus_opp_r. reflexivity.
Qed.

Lemma floor_log2_int z : 0 < z -> floor_log2 (inject_Z z) = Z.log2 z.
Proof.
  intros Hz. unfold floor_log2. simpl Qnum. simpl Qden.
  change (Z.log2 1) with 0. rewrite Z.sub_0_r.
  assert (Qle_bool (2 ^ Z.log2 z) (inject_Z z) = true) as ->; [|done].
  apply Qle_bool_iff.
  pose proof (Z.log2_spec z Hz) as [Hlo _].
  pose proof (Z.log2_nonneg z) as Hnn.
  rewrite <- (Zpower_Qpower 2 (Z.log2 z) Hnn). by rewrite <- Zle_Qle.
Qed.

(** The significand of an integer below [2^53], scaled back, is the
    integer. *)
Lemma significand_int z :
  0 < z < 2 ^ 53 ->
  let ulp := (2 ^ (Z.max (floor_log2 (inject_Z z)) (-1022) - 52))%Q in
  (inject_Z (round_half_even (inject_Z z / ulp)) * ulp == inject_Z z)%Q.
Proof.
  intros [Hz Hlt]. rewrite floor_log2_int by done.
  set (l := Z.log2 z).
  assert (0 <= l <= 52) as Hl.
  { split; [apply Z.log2_nonneg|]. subst l.
    assert (Z.log2 z < 53); [|lia]. apply Z.log2_lt_pow2; lia. }
  rewrite Z.max_l by lia. intros ulp.
  assert (ulp * 2 ^ (52 - l) == 1)%Q as Hulp.
  { subst ulp. rewrite <- Qpower_plus by done. by replace (l - 52 + (52 - l)) with 0 by lia. }
  assert (~ ulp == 0)%Q as Hnz.
  { intros H. rewrite H in Hulp. by rewrite Qmult_0_l in Hulp. }
  assert (inject_Z z / ulp == inject_Z (z * 2 ^ (52 - l)))%Q as Hm.
  { rewrite inject_Z_mult, (Zpower_Qpower 2 (52 - l)) by lia.
    change (inject_Z 2) with 2%Q.
    apply (Qmult_inj_r _ _ ulp Hnz). unfold Qdiv.
    rewrite <- !Qmult_assoc, (Qmult_comm (/ ulp)), Qmult_inv_r by done.
    rewrite (Qmult_comm (2 ^ (52 - l))), Hulp. reflexivity. }
  rewrite (round_half_even_int _ _ Hm).
  rewrite inject_Z_mult, (Zpower_Qpower 2 (52 - l)) by lia.
  change (inject_Z 2) with 2%Q.
  rewrite <- Qmult_assoc, (Qmult_comm (2 ^ (52 - l))), Hulp. apply Qmult_1_r.
Qed.

(** An integer of magnitude below [2^53] is a float64. *)
Lemma fl_int z : Z.abs z < 2 ^ 53 -> fl (inject_Z z) = inject_Z z.
Proof.
  intros Hz. unfold fl. rewrite Qred_inject_Z.
  destruct (Z.lt_trichotomy z 0) as [Hneg|[->|Hpos]]; [| reflexivity |].
  - assert (Qeq_bool (inject_Z z) 0 = false) as ->.
    { apply not_true_iff_false. intros H. apply Qeq_bool_iff in H.
      unfold Qeq in H. simpl in H. lia. }
    assert (Qabs (inject_Z z) = inject_Z (- z)) as ->.
    { unfold Qabs, inject_Z. f_equal. lia. }
    assert (Qle_bool 0 (inject_Z z) = false) as ->.
    { apply not_true_iff_false. intros H. apply Qle_bool_iff in H.
      change 0%Q with (inject_Z 0) in H. rewrite <- Zle_Qle in H. lia. }
    transitivity (Qred (inject_Z z)); [|apply Qred_inject_Z]. apply Qred_complete.
    rewrite (significand_int (- z)) by lia. by rewrite inject_Z_opp, Qopp_opp.
  - assert (Qeq_bool (inject_Z z) 0 = false) as ->.
    { apply not_true_iff_false. intros H. apply Qeq_bool_iff in H.
      unfold Qeq in H. simpl in H. lia. }
    assert (Qabs (inject_Z z) = inject_Z z) as ->.
    { unfold Qabs, inject_Z. f_equal. lia. }
    assert (Qle_bool 0 (inject_Z z) = true) as ->.
    { apply Qle_bool_iff. change 0%Q with (inject_Z 0). rewrite <- Zle_Qle. lia. }
    transitivity (Qred (inject_Z z)); [|apply Qred_inject_Z]. apply Qred_complete.
    apply significand_int. lia.
Qed.

Lemma fadd_int a b :
  Z.abs (a + b) < 2 ^ 53 -> fadd (inject_Z a) (inject_Z b) = inject_Z (a + b).
Proof.
  intros H. unfold fadd. rewrite (fl_Qeq _ (inject_Z (a + b))); [by apply fl_int|].
  by rewrite inject_Z_plus.
Qed.

Lemma sum_abs_nonneg l : 0 <= sum_abs l.
Proof. induction l as [|s l IH]; simpl; lia. Qed.

Lemma sum_list_abs l : Z.abs (fold_right Z.add 0 l) <= sum_abs l.
Proof. induction l as [|s l IH]; simpl; lia. Qed.

(** Added up as floats, in order, integers whose magnitudes sum to less than
    [2^53] give their sum. *)
Lemma fold_fadd_int l : forall a,
  Z.abs a + sum_abs l < 2 ^ 53 ->
  fold_left fadd (map of_int l) (inject_Z a) = inject_Z (a + fold_right Z.add 0 l).
Proof.
  induction l as [|s l IH]; intros a Ha; simpl in *.
  - by rewrite Z.add_0_r.
  - pose proof (sum_abs_nonneg l).
    unfold of_int. rewrite fl_int by lia. rewrite fadd_int by lia.
    rewrite IH by lia. f_equal. lia.
Qed.

(** ** [np.mean] along the first axis *)

Lemma has_shape_lookup {A} wd ht (a : list (list A)) i j :
  has_shape wd ht a -> (i < wd)%nat -> (j < ht)%nat ->
  exists r x, a !! i = Some r /\ r !! j = Some x /\ length r = ht.
Proof.
  intros [Hl Hr] Hi Hj.
  destruct (lookup_lt_is_Some_2 a i) as [r Hri]; [lia|].
  rewrite Forall_forall in Hr.
  assert (length r = ht) as Hlr by (apply Hr; eapply list_elem_of_lookup_2; eauto).
  destruct (lookup_lt_is_Some_2 r j) as [x Hx]; [lia|]. eauto.
Qed.

Lemma img_add_shape wd ht a b :
  has_shape wd ht a -> has_shape wd ht b -> has_shape wd ht (img_add a b).
Proof.
  intros [Hla Hra] [Hlb Hrb]. unfold img_add. split.
  - rewrite length_zip_with. lia.
  - rewrite Forall_forall in *. intros r Hr.
    apply list_elem_of_lookup in Hr as [i Hi].
    rewrite lookup_zip_with in Hi.
    destruct (a !! i) as [ra|] eqn:Ea; [|done].
    destruct (b !! i) as [rb|] eqn:Eb; [|done].
    simpl in Hi. injection Hi as <-. rewrite length_zip_with.
    rewrite (Hra ra), (Hrb rb); [lia| |]; eapply list_elem_of_lookup_2; eauto.
Qed.

Lemma px_img_add wd ht a b i j :
  has_shape wd ht a -> has_shape wd ht b -> (i < wd)%nat -> (j < ht)%nat ->
  px (img_add a b) i j = fadd (px a i j) (px b i j).
Proof.
  intros Ha Hb Hi Hj.
  destruct (has_shape_lookup wd ht a i j Ha Hi Hj) as (ra & x & Hra & Hx & _).
  destruct (has_shape_lookup wd ht b i j Hb Hi Hj) as (rb & y & Hrb & Hy & _).
  unfold px, img_add. rewrite lookup_zip_with, Hra, Hrb. simpl.
  rewrite lookup_zip_with, Hx, Hy. reflexivity.
Qed.

Lemma fold_img_add_shape wd ht rest : forall f,
  has_shape wd ht f -> Forall (has_shape wd ht) rest ->
  has_shape wd ht (fold_left img_add rest f).
Proof.
  induction rest as [|g rest IH]; intros f Hf Hrest; simpl; [done|].
  apply Forall_cons in Hrest as [Hg Hrest].
  apply IH; [by apply img_add_shape|done].
Qed.

Lemma px_fold_img_add wd ht i j rest : forall f,
  has_shape wd ht f -> Forall (has_shape wd ht) rest -> (i < wd)%nat -> (j < ht)%nat ->
  px (fold_left img_add rest f) i j
  = fold_left fadd (map (fun g => px g i j) rest) (px f i j).
Proof.
  induction rest as [|g rest IH]; intros f Hf Hrest Hi Hj; simpl; [done|].
  apply Forall_cons in Hrest as [Hg Hrest].
  rewrite IH by (try apply img_add_shape; done).
  by rewrite (px_img_add wd ht).
Qed.

Lemma px_map_map (g : Q -> Q) wd ht a i j :
  has_shape wd ht a -> (i < wd)%nat -> (j < ht)%nat ->
  px (map (map g) a) i j = g (px a i j).
Proof.
  intros Ha Hi Hj.
  destruct (has_shape_lookup wd ht a i j Ha Hi Hj) as (ra & x & Hra & Hx & _).
  unfold px. rewrite list_lookup_fmap, Hra. simpl.
  rewrite list_lookup_fmap, Hx. reflexivity.
Qed.

Lemma map_map_shape {A B} (g : A -> B) wd ht a :
  has_shape wd ht a -> has_shape wd ht (map (map g) a).
Proof.
  intros [Hl Hr]. split; [by rewrite length_map|].
  apply Forall_fmap. eapply Forall_impl; [exact Hr|].
  intros r Hlr. simpl. by rewrite length_map.
Qed.

Lemma px_of_int wd ht (frame : list (list Z)) i j :
  has_shape wd ht frame -> (i < wd)%nat -> (j < ht)%nat ->
  px (map (map of_int) frame) i j = of_int (sample frame i j).
Proof.
  intros Ha Hi Hj.
  destruct (has_shape_lookup wd ht frame i j Ha Hi Hj) as (ra & x & Hra & Hx & _).
  unfold px, sample. rewrite list_lookup_fmap, Hra. simpl.
  rewrite list_lookup_fmap, Hx. simpl. reflexivity.
Qed.

(** Each sample of [np.mean(im, axis=0)] is the float sum of that sample
    over the frames, in their order, divided by their number. *)
Lemma np_mean_axis0_spec wd ht im :
  im <> [] -> Forall (has_shape wd ht) im ->
  has_shape wd ht (np_mean_axis0 im)
  /\ forall i j, (i < wd)%nat -> (j < ht)%nat ->
       px (np_mean_axis0 im) i j
       = fl (fold_left fadd (map (fun f => of_int (sample f i j)) (tail im))
                       (of_int (sample (hd [] im) i j))
             / inject_Z (Z.of_nat (length im))).
Proof.
  intros Hne Him. destruct im as [|f rest]; [done|].
  apply Forall_cons in Him as [Hf Hrest].
  assert (Hf' : has_shape wd ht (map (map of_int) f)) by by apply map_map_shape.
  assert (Hrest' : Forall (has_shape wd ht) (map (map (map of_int)) rest)).
  { apply Forall_fmap. eapply Forall_impl; [exact Hrest|].
    intros g Hg. by apply map_map_shape. }
  pose proof (fold_img_add_shape wd ht _ _ Hf' Hrest') as Hsum.
  unfold np_mean_axis0. simpl map. split; [by apply map_map_shape|].
  intros i j Hi Hj.
  rewrite (px_map_map _ wd ht) by done.
  rewrite (px_fold_img_add wd ht) by done.
  rewrite (px_of_int wd ht) by done. simpl tail. simpl hd.
  do 3 f_equal. rewrite map_map. apply Forall_fmap_ext_1.
  eapply Forall_impl; [exact Hrest|]. intros g Hg. by apply (px_of_int wd ht).
Qed.

(** When the magnitudes of a sample over the frames sum to less than
    [2^53], the sum is exact, and the sample of the mean is the float64
    nearest to the arithmetic mean. *)
Lemma np_mean_axis0_exact wd ht im i j :
  im <> [] -> Forall (has_shape wd ht) im -> (i < wd)%nat -> (j < ht)%nat ->
  sum_abs (map (fun f => sample f i j) im) < 2 ^ 53 ->
  px (np_mean_axis0 im) i j
  = fl (arith_mean (map (fun f => inject_Z (sample f i j)) im)).
Proof.
  intros Hne Him Hi Hj Hsum.
  destruct (np_mean_axis0_spec wd ht im Hne Him) as [_ Hpx]. rewrite Hpx by done.
  destruct im as [|f rest]; [done|]. simpl hd. simpl tail. simpl in Hsum.
  pose proof (sum_abs_nonneg (map (fun f => sample f i j) rest)).
  unfold of_int at 2. rewrite fl_int by lia.
  rewrite <- (map_map (fun f => sample f i j) of_int).
  rewrite fold_fadd_int by lia.
  apply fl_Qeq. unfold arith_mean. rewrite length_map.
  apply Qdiv_comp; [|reflexivity]. simpl fold_right.
  rewrite inject_Z_plus. apply Qplus_comp; [reflexivity|].
  clear. induction rest as [|g rest IH]; simpl; [reflexivity|].
  by rewrite inject_Z_plus, IH.
Qed.

(** ** Running the library operations *)

Lemma fetch1_ok t key a w r v :
  restrict (db w t) key = [r] -> r !! a = Some v -> fetch1 t key a w = (w, inr v).
Proof.
  intros Hr Hv. unfold fetch1, bind, fetch1_row, attr. by rewrite Hr, Hv.
Qed.

Lemma fetch1_str_ok t key a w r s :
  restrict (db w t) key = [r] -> r !! a = Some (VStr s) ->
  (v <- fetch1 t key a;; as_str v) w = (w, inr s).
Proof. intros Hr Hv. by rewrite (bind_ok _ _ _ _ _ (fetch1_ok _ _ _ _ _ _ Hr Hv)). Qed.

Lemma agree_on_matches names (key r : row) :
  dom key ⊆ list_to_set names -> agree_on names key r -> matches key r.
Proof.
  intros Hdom Hag a v Hl. simpl.
  assert (a ∈ names) as Ha.
  { apply (elem_of_list_to_set (C := gset string)). apply Hdom.
    apply elem_of_dom. eauto. }
  unfold agree_on in Hag. rewrite Forall_forall in Hag.
  destruct (Hag a Ha) as [_ Heq]. by rewrite <- Heq, Hl.
Qed.

Lemma has_key_ext rows names (r1 r2 : row) :
  (forall a, a ∈ names -> r1 !! a = r2 !! a) ->
  has_key rows names r1 -> has_key rows names r2.
Proof.
  intros Hext Hk. unfold has_key in *. eapply Exists_impl; [exact Hk|].
  intros r Hag. by apply (agree_on_ext names r1 r2 r Hext).
Qed.

Lemma not_present_not_has_key rows names (key : row) :
  dom key ⊆ list_to_set names -> ~ present rows key -> ~ has_key rows names key.
Proof.
  intros Hdom Hnp Hk. apply Hnp. unfold present, has_key in *.
  eapply Exists_impl; [exact Hk|]. intros r. by apply agree_on_matches.
Qed.

Lemma lookup_insert_other (key : row) a v (names : list string) :
  a ∉ names -> forall b, b ∈ names -> <[a := v]> key !! b = key !! b.
Proof. intros Ha b Hb. apply lookup_insert_ne. congruence. Qed.

(** ** [AverageFrame.make] *)

Lemma io_imread_ok path w pages im :
  files w !! path = Some (TifFile pages) -> skimage_imread pages = Some im ->
  io_imread path w
  = (World (db w) (files w) (stdout w) (opened w ++ [path]) (journal w) (calls w), inr im).
Proof.
  intros Hf Him. unfold io_imread.
  erewrite bind_ok; [|unfold open_file; rewrite Hf; reflexivity].
  cbv beta iota. by rewrite Him.
Qed.

Lemma AverageFrame_make_ok m s i w rs rsc dp fn pages im :
  restrict (db w Session) (Scan_key m s i) = [rs] -> rs !! "data_path" = Some (VStr dp) ->
  restrict (db w Scan) (Scan_key m s i) = [rsc] -> rsc !! "file_name" = Some (VStr fn) ->
  files w !! os_path_join dp fn = Some (TifFile pages) ->
  skimage_imread pages = Some im ->
  has_key (db w Scan) (pk Scan) (Scan_key m s i) ->
  ~ present (db w AverageFrame) (Scan_key m s i) ->
  exists w',
    AverageFrame_make (Scan_key m s i) w = (w', inr tt)
    /\ db w' AverageFrame
       = db w AverageFrame ++ [<["average_frame" := np_mean im]> (Scan_key m s i)]
    /\ (forall t, t <> AverageFrame -> db w' t = db w t)
    /\ calls w' = calls w /\ files w' = files w.
Proof.
  intros Hrs Hdp Hrsc Hfn Hfile Him Hscan Habs.
  unfold AverageFrame_make.
  rewrite (bind_ok _ _ _ _ _ (fetch1_str_ok _ _ _ _ _ _ Hrs Hdp)).
  rewrite (bind_ok _ _ _ _ _ (fetch1_str_ok _ _ _ _ _ _ Hrsc Hfn)).
  rewrite (bind_ok _ _ _ _ _ (io_imread_ok _ _ _ _ Hfile Him)).
  set (r := <["average_frame" := np_mean im]> (Scan_key m s i)).
  set (w1 := World _ _ _ _ _ _).
  assert (Hext : forall a, a ∈ pk Scan -> Scan_key m s i !! a = r !! a).
  { intros a Ha. symmetry. apply (lookup_insert_other _ _ _ (pk Scan)); [|done].
    compute_done. }
  assert (Hrow : row_ok AverageFrame r) by (subst r; compute_done).
  assert (Hnodup : ~ has_key (db w1 AverageFrame) (pk AverageFrame) r).
  { intros Hk. apply (not_present_not_has_key _ (pk AverageFrame) _) in Habs;
      [|compute_done].
    apply Habs. eapply has_key_ext; [|exact Hk]. intros a Ha. symmetry. by apply Hext. }
  assert (Hpar : parents_present (db w1) AverageFrame r).
  { constructor; [|constructor]. eapply has_key_ext; [|exact Hscan]. exact Hext. }
  rewrite (bind_ok _ _ _ _ _ (insert1_ok _ _ _ Hrow Hnodup Hpar)).
  rewrite (bind_ok _ _ _ _ _ (format_field_ok r "mouse_id" (VInt m) _ _ eq_refl eq_refl)).
  rewrite (bind_ok _ _ _ _ _ (format_field_ok r "session_date" (VStr s) _ _ eq_refl eq_refl)).
  rewrite (bind_ok _ _ _ _ _ (format_field_ok r "scan_idx" (VInt i) _ _ eq_refl eq_refl)).
  eexists. split; [reflexivity|]. simpl. rewrite set_table_same.
  split; [done|]. split; [|done].
  intros t Ht. by rewrite set_table_other.
Qed.

(** C6, as amended: for a scan key with no row in [AverageFrame] yet, whose
    session and scan rows name a TIFF that [io.imread] loads as an array of
    [n >= 1] by [wd] by [ht] integer samples, [AverageFrame.make] returns and
    appends exactly one row: the key with [average_frame] an array of [wd]
    by [ht] floats.  Where the magnitudes of a sample over the [n] frames
    sum to less than [2^53], the stored float is the float64 nearest to the
    arithmetic mean of that sample over the frames. *)
Theorem AverageFrame_make_mean m s i w rs rsc dp fn pages im n wd ht :
  restrict (db w Session) (Scan_key m s i) = [rs] -> rs !! "data_path" = Some (VStr dp) ->
  restrict (db w Scan) (Scan_key m s i) = [rsc] -> rsc !! "file_name" = Some (VStr fn) ->
  files w !! os_path_join dp fn = Some (TifFile pages) ->
  skimage_imread pages = Some (Arr3 im) ->
  has_key (db w Scan) (pk Scan) (Scan_key m s i) ->
  ~ present (db w AverageFrame) (Scan_key m s i) ->
  length im = n -> (0 < n)%nat -> Forall (has_shape wd ht) im ->
  exists w' avg,
    AverageFrame_make (Scan_key m s i) w = (w', inr tt)
    /\ db w' AverageFrame
       = db w AverageFrame ++ [<["average_frame" := VImage avg]> (Scan_key m s i)]
    /\ (forall t, t <> AverageFrame -> db w' t = db w t)
    /\ has_shape wd ht avg
    /\ forall x y, (x < wd)%nat -> (y < ht)%nat ->
         sum_abs (map (fun frame => sample frame x y) im) < 2 ^ 53 ->
         px avg x y = fl (arith_mean (map (fun frame => inject_Z (sample frame x y)) im)).
Proof.
  intros Hrs Hdp Hrsc Hfn Hfile Him Hscan Habs Hlen Hpos Hshape.
  destruct (AverageFrame_make_ok m s i w rs rsc dp fn pages (Arr3 im))
    as (w' & Hrun & Hdb & Hoth & _); try done.
  assert (im <> []) as Hne by (intros ->; simpl in Hlen; lia).
  destruct (np_mean_axis0_spec wd ht im Hne Hshape) as [Hsh _].
  exists w', (np_mean_axis0 im).
  split; [exact Hrun|]. split; [exact Hdb|]. split; [exact Hoth|]. split; [exact Hsh|].
  intros x y Hx Hy Hsum. by apply (np_mean_axis0_exact wd ht).
Qed.

(** ** [np.unique] *)

Lemma elem_of_insert_sorted x l y : y ∈ insert_sorted x l <-> y = x \/ y ∈ l.
Proof.
  induction l as [|z l IH]; simpl.
  - rewrite list_elem_of_singleton, elem_of_nil. tauto.
  - destruct (Z.ltb_spec x z); [rewrite !elem_of_cons; tauto|].
    destruct (Z.eqb_spec x z) as [->|?].
    + rewrite !elem_of_cons. tauto.
    + rewrite !elem_of_cons, IH. tauto.
Qed.

Lemma elem_of_np_unique a y : y ∈ np_unique a <-> y ∈ concat a.
Proof.
  unfold np_unique. induction (concat a) as [|x l IH]; simpl; [done|].
  rewrite elem_of_insert_sorted, IH, elem_of_cons. tauto.
Qed.

Lemma insert_sorted_sorted x l :
  StronglySorted Z.lt l -> StronglySorted Z.lt (insert_sorted x l).
Proof.
  induction l as [|z l IH]; intros Hs; simpl.
  - repeat constructor.
  - apply StronglySorted_inv in Hs as [Hs Hz].
    destruct (Z.ltb_spec x z).
    + constructor; [by constructor|].
      constructor; [done|]. eapply Forall_impl; [exact Hz|]. intros; simpl in *; lia.
    + destruct (Z.eqb_spec x z) as [->|?]; [by constructor|].
      constructor; [by apply IH|].
      rewrite Forall_forall in *. intros y Hy.
      apply elem_of_insert_sorted in Hy as [->|Hy]; [lia|by apply Hz].
Qed.

Lemma np_unique_sorted a : StronglySorted Z.lt (np_unique a).
Proof.
  unfold np_unique. induction (concat a) as [|x l IH]; simpl; [constructor|].
  by apply insert_sorted_sorted.
Qed.

Lemma sorted_lt_NoDup l : StronglySorted Z.lt l -> NoDup l.
Proof.
  induction 1 as [|x l Hs IH Hx]; constructor; [|done].
  intros Hin. rewrite Forall_forall in Hx. specialize (Hx x Hin). lia.
Qed.

Lemma sorted_lt_le l : StronglySorted Z.lt l -> StronglySorted Z.le l.
Proof.
  induction 1 as [|x l Hs IH Hx]; constructor; [done|].
  eapply Forall_impl; [exact Hx|]. intros; simpl in *; lia.
Qed.

Lemma seqZ_sorted_lt n : forall m, StronglySorted Z.lt (seqZ m (Z.of_nat n)).
Proof.
  induction n as [|n IH]; intros m.
  - simpl. constructor.
  - rewrite Nat2Z.inj_succ, seqZ_cons by lia.
    replace (Z.pred (Z.succ (Z.of_nat n))) with (Z.of_nat n) by lia.
    constructor; [apply IH|].
    rewrite Forall_forall. intros y Hy. apply elem_of_seqZ in Hy. lia.
Qed.

(** A strictly ascending list is determined by its elements. *)
Lemma sorted_lt_unique l1 l2 :
  StronglySorted Z.lt l1 -> StronglySorted Z.lt l2 ->
  (forall x, x ∈ l1 <-> x ∈ l2) -> l1 = l2.
Proof.
  intros H1 H2 Hel.
  apply (StronglySorted_unique Z.le); try by apply sorted_lt_le.
  apply NoDup_Permutation; [by apply sorted_lt_NoDup|by apply sorted_lt_NoDup|done].
Qed.

Lemma np_unique_contiguous a nb :
  0 <= nb ->
  (forall v, v ∈ concat a -> 0 <= v <= nb) ->
  (forall k, 0 <= k <= nb -> k ∈ concat a) ->
  np_unique a = seqZ 0 (nb + 1).
Proof.
  intros Hnb Hin Hall.
  apply sorted_lt_unique; [apply np_unique_sorted| |].
  - replace (nb + 1) with (Z.of_nat (Z.to_nat (nb + 1))) by lia. apply seqZ_sorted_lt.
  - intros x. rewrite elem_of_np_unique, elem_of_seqZ. split; intros H.
    + apply Hin in H. lia.
    + apply Hall. lia.
Qed.

(** ** The size filter *)

Lemma mapM_map_Some {A B} (f : A -> option B) (g : A -> B) l :
  (forall x, x ∈ l -> f x = Some (g x)) -> mapM f l = Some (map g l).
Proof.
  induction l as [|x l IH]; intros H; [done|].
  simpl.
  rewrite (H x) by apply list_elem_of_here. simpl.
  rewrite IH by (intros y Hy; apply H; by apply list_elem_of_further). done.
Qed.

Lemma elem_of_concat {A} (a : list (list A)) x :
  x ∈ concat a <-> exists r, r ∈ a /\ x ∈ r.
Proof.
  induction a as [|r0 a IH]; simpl.
  - split; [by intros ?%elem_of_nil|by intros (r & ?%elem_of_nil & _)].
  - rewrite elem_of_app, IH. split.
    + intros [H|(r & Hr & Hx)]; [exists r0|exists r]; split; try done;
        [apply list_elem_of_here|by apply list_elem_of_further].
    + intros (r & Hr & Hx). apply elem_of_cons in Hr as [->|Hr]; [by left|right; eauto].
Qed.

Lemma elem_of_concat_row {A} (a : list (list A)) r x : r ∈ a -> x ∈ r -> x ∈ concat a.
Proof. intros Hr Hx. apply elem_of_concat. eauto. Qed.

Lemma small_size_filter_index label_im size_cutoff nb v :
  0 <= v <= nb ->
  np_index (map (fun s => Qltb (inject_Z s) size_cutoff)
                (map (count_eq label_im) (seqZ 0 (nb + 1)))) v
  = Some (Qltb (inject_Z (count_eq label_im v)) size_cutoff).
Proof.
  intros Hv. unfold np_index. rewrite !length_map, length_seqZ.
  rewrite decide_True by lia.
  rewrite !list_lookup_fmap, lookup_seqZ_lt by lia. simpl.
  by replace (0 + Z.of_nat (Z.to_nat v)) with v by lia.
Qed.

Lemma zero_where_map_gen (h : Z -> bool) a :
  zero_where a (map (map h) a) = map (map (fun v => if h v then 0 else v)) a.
Proof.
  unfold zero_where.
  induction a as [|r a IH]; simpl; [done|]. f_equal; [|exact IH].
  clear IH. induction r as [|v r IH]; simpl; [done|]. by f_equal.
Qed.

Lemma zero_where_map label_im size_cutoff :
  zero_where label_im
    (map (map (fun v => Qltb (inject_Z (count_eq label_im v)) size_cutoff)) label_im)
  = map (map (keep_large label_im size_cutoff)) label_im.
Proof. apply zero_where_map_gen. Qed.

Lemma size_filter_ok label_im size_cutoff nb w :
  (forall v, v ∈ concat label_im -> 0 <= v <= nb) ->
  (forall k, 0 <= k <= nb -> k ∈ concat label_im) ->
  0 <= nb ->
  size_filter label_im size_cutoff w
  = (w, inr (map (map (keep_large label_im size_cutoff)) label_im)).
Proof.
  intros Hin Hall Hnb. unfold size_filter.
  rewrite (np_unique_contiguous label_im nb) by done.
  erewrite bind_ok; cycle 1.
  { unfold fancy_index.
    rewrite (mapM_map_Some _
               (map (fun v => Qltb (inject_Z (count_eq label_im v)) size_cutoff))).
    - reflexivity.
    - intros r Hr. apply mapM_map_Some. intros v Hv.
      apply small_size_filter_index. apply Hin. by eapply elem_of_concat_row. }
  unfold ret. by rewrite zero_where_map.
Qed.

Lemma as_float_ok v q w : float_of v = Some q -> as_float v w = (w, inr q).
Proof. destruct v; simpl; try done; by intros [= <-]. Qed.

Lemma sorted_tail_nonzero u :
  StronglySorted Z.lt u -> (forall x, x ∈ u -> 0 <= x) -> 0 ∈ u ->
  forall x, x ∈ tail u <-> x ∈ u /\ x <> 0.
Proof.
  intros Hs Hpos H0 x. destruct u as [|h t]; [by apply elem_of_nil in H0|].
  apply StronglySorted_inv in Hs as [_ Hh]. rewrite Forall_forall in Hh.
  assert (h = 0) as ->.
  { apply elem_of_cons in H0 as [->|H0]; [done|].
    specialize (Hh 0 H0). specialize (Hpos h (list_elem_of_here _ _)). lia. }
  simpl. rewrite elem_of_cons. split.
  - intros Hx. specialize (Hh x Hx). split; [by right|lia].
  - intros [[->|Hx] Hne]; done.
Qed.

Lemma keep_large_cases label_im size_cutoff v :
  keep_large label_im size_cutoff v = 0
  \/ (keep_large label_im size_cutoff v = v
      /\ Qltb (inject_Z (count_eq label_im v)) size_cutoff = false).
Proof. unfold keep_large. destruct (Qltb _ _); auto. Qed.

Lemma elem_of_concat_map_map {A B} (g : A -> B) a y :
  y ∈ concat (map (map g) a) <-> exists x, x ∈ concat a /\ y = g x.
Proof.
  rewrite elem_of_concat. split.
  - intros (r & Hr & Hy). apply list_elem_of_fmap in Hr as (r0 & -> & Hr0).
    apply list_elem_of_fmap in Hy as (x & -> & Hx).
    exists x. split; [|done]. by eapply elem_of_concat_row.
  - intros (x & Hx & ->). apply elem_of_concat in Hx as (r & Hr & Hx).
    exists (map g r). split; by apply list_elem_of_fmap_2.
Qed.

Lemma at2_map_map {A B} (g : A -> B) a x y :
  at2 (map (map g) a) x y = g <$> at2 a x y.
Proof.
  unfold at2. rewrite list_lookup_fmap. destruct (a !! x) as [r|]; simpl; [|done].
  by rewrite list_lookup_fmap.
Qed.

Lemma concat_map_map {A B} (g : A -> B) a : concat (map (map g) a) = map g (concat a).
Proof. induction a as [|r a IH]; simpl; [done|]. by rewrite map_app, IH. Qed.

Lemma count_eq_keep_large label_im size_cutoff i :
  i <> 0 -> keep_large label_im size_cutoff i = i ->
  count_eq (map (map (keep_large label_im size_cutoff)) label_im) i = count_eq label_im i.
Proof.
  intros Hi Hk. unfold count_eq. rewrite concat_map_map. f_equal.
  induction (concat label_im) as [|v l IH]; simpl; [done|].
  rewrite !filter_cons.
  destruct (decide (v = i)) as [->|Hne].
  - rewrite Hk, decide_True by done. simpl. by rewrite IH.
  - rewrite decide_False; [done|].
    destruct (keep_large_cases label_im size_cutoff v) as [->|[-> _]]; congruence.
Qed.

Lemma count_true_img_eq a i : count_true (img_eq a i) = count_eq a i.
Proof.
  unfold count_true, count_eq, img_eq. rewrite concat_map_map. f_equal.
  induction (concat a) as [|v l IH]; simpl; [done|].
  rewrite !filter_cons. destruct (decide (v = i)) as [->|Hne].
  - rewrite bool_decide_eq_true_2, decide_True by done. simpl. by rewrite IH.
  - rewrite bool_decide_eq_false_2, decide_False by done. exact IH.
Qed.

Lemma Qltb_lt x y : Qltb x y = true <-> (x < y)%Q.
Proof. unfold Qltb, Qlt. apply Z.ltb_lt. Qed.

Lemma Qltb_ge x y : Qltb x y = false <-> (y <= x)%Q.
Proof. unfold Qltb, Qle. rewrite Z.ltb_ge. done. Qed.

(** ** Inserting several rows *)

Lemma insert_ok t rows : forall w,
  t ∉ parents t ->
  Forall (row_ok t) rows ->
  Forall (fun r => ~ has_key (db w t) (pk t) r) rows ->
  (forall i j ri rj, (i < j)%nat -> rows !! i = Some ri -> rows !! j = Some rj ->
                     ~ agree_on (pk t) rj ri) ->
  Forall (parents_present (db w) t) rows ->
  exists w', insert t rows w = (w', inr tt)
    /\ db w' t = db w t ++ rows
    /\ (forall t', t' <> t -> db w' t' = db w t')
    /\ stdout w' = stdout w /\ calls w' = calls w /\ files w' = files w
    /\ opened w' = opened w.
Proof.
  intros w Hpt. revert w.
  induction rows as [|r rows IH]; intros w Hok Hfresh Hpair Hpar.
  - exists w. simpl. rewrite app_nil_r. done.
  - apply Forall_cons in Hok as [Hr Hok]. apply Forall_cons in Hfresh as [Hfr Hfresh].
    apply Forall_cons in Hpar as [Hpr Hpar].
    unfold insert. simpl for_each.
    rewrite (bind_ok _ _ _ _ _ (insert1_ok _ _ _ Hr Hfr Hpr)).
    set (w1 := World _ _ _ _ _ _).
    destruct (IH w1) as (w' & Hrun & Hdb & Hoth & Hst & Hca & Hfi & Hop).
    + done.
    + subst w1. simpl. rewrite set_table_same.
      rewrite Forall_forall in *. intros r' Hr' Hk. unfold has_key in Hk.
      apply Exists_app in Hk as [Hk|Hk]; [by apply (Hfresh r')|].
      apply Exists_cons in Hk as [Hk|Hk]; [|by apply Exists_nil in Hk].
      apply list_elem_of_lookup in Hr' as [j Hj].
      apply (Hpair 0%nat (S j) r r'); [lia|done|done|done].
    + intros i j ri rj Hij Hi Hj. apply (Hpair (S i) (S j)); [lia|done|done].
    + subst w1. simpl. eapply Forall_impl; [exact Hpar|].
      intros r' Hp. unfold parents_present in *.
      rewrite Forall_forall in *. intros p Hp'.
      rewrite set_table_other; [by apply Hp|]. intros ->. done.
    + exists w'. split; [exact Hrun|]. subst w1. simpl in *.
      rewrite set_table_same in Hdb. split; [by rewrite Hdb, <- app_assoc|].
      split; [|done]. intros t' Ht'. rewrite Hoth by done. by rewrite set_table_other.
Qed.

(** ** [Segmentation.make] *)

Lemma map_M_Roi_rows (key : row) seg L w :
  key !! "roi_idx" = None -> key !! "mask" = None ->
  map_M (fun i => r <- dict_with key "roi_idx" (VInt i);;
                  dict_with r "mask" (VMask (img_eq seg i))) L w
  = (w, inr (map (Roi_row key seg) L)).
Proof.
  intros H1 H2. induction L as [|i L IH]; simpl; [done|].
  unfold bind at 1. unfold bind at 1. unfold dict_with at 1. rewrite H1.
  unfold ret at 1. unfold dict_with at 1.
  rewrite lookup_insert_ne, H2 by done. unfold ret at 1.
  unfold bind at 1. rewrite IH. reflexivity.
Qed.

Lemma agree_on_trans names (r1 r2 r3 : row) :
  agree_on names r1 r2 -> agree_on names r2 r3 -> agree_on names r1 r3.
Proof.
  unfold agree_on. rewrite !Forall_forall. intros H12 H23 a Ha.
  destruct (H12 a Ha) as [Hs H1]. destruct (H23 a Ha) as [_ H2].
  split; [done|congruence].
Qed.

Lemma agree_on_sym names (r1 r2 : row) : agree_on names r1 r2 -> agree_on names r2 r1.
Proof.
  unfold agree_on. rewrite !Forall_forall. intros H a Ha.
  destruct (H a Ha) as [Hs H1]. split; [by rewrite <- H1|done].
Qed.

Lemma agree_on_sub (n1 n2 : list string) (r1 r2 : row) :
  n1 ⊆ n2 -> agree_on n2 r1 r2 -> agree_on n1 r1 r2.
Proof.
  unfold agree_on. rewrite !Forall_forall. intros Hsub H a Ha. apply H, Hsub, Ha.
Qed.

Ltac elem_cases H :=
  repeat (apply elem_of_cons in H as [->|H]); [..|by apply elem_of_nil in H].

Lemma pk_AverageFrame_Segmentation a : a ∈ pk AverageFrame -> a ∈ pk Segmentation.
Proof. intros H. unfold pk, Session_pk in H. simpl in H. elem_cases H; compute_done. Qed.

Lemma pk_SegmentationParam_Segmentation a :
  a ∈ pk SegmentationParam -> a ∈ pk Segmentation.
Proof. intros H. unfold pk in H. elem_cases H; compute_done. Qed.

Lemma pk_Segmentation_Roi a : a ∈ pk Segmentation -> a ∈ pk Roi.
Proof. intros H. unfold pk, Session_pk in H. simpl in H. elem_cases H; compute_done. Qed.

Lemma Roi_row_agree (key : row) seg i a :
  a ∈ pk Segmentation -> Roi_row key seg i !! a = key !! a.
Proof.
  intros H. unfold Roi_row. unfold pk, Session_pk in H. simpl in H.
  elem_cases H; by rewrite !lookup_insert_ne.
Qed.

Lemma Roi_row_idx (key : row) seg i : Roi_row key seg i !! "roi_idx" = Some (VInt i).
Proof. unfold Roi_row. by rewrite lookup_insert_ne, lookup_insert_eq. Qed.

Lemma Segmentation_make_ok ndimage_label m s i p w ra avg rp vt vc threshold size_cutoff
    label_im nb :
  let key := Segmentation_key m s i p in
  let seg := map (map (keep_large label_im size_cutoff)) label_im in
  restrict (db w AverageFrame) key = [ra] -> ra !! "average_frame" = Some (VImage avg) ->
  restrict (db w SegmentationParam) key = [rp] ->
  rp !! "threshold" = Some vt -> float_of vt = Some threshold ->
  rp !! "size_cutoff" = Some vc -> float_of vc = Some size_cutoff ->
  ndimage_label (img_gt avg threshold) = (label_im, nb) ->
  label_contract (img_gt avg threshold) label_im nb ->
  has_key (db w AverageFrame) (pk AverageFrame) key ->
  has_key (db w SegmentationParam) (pk SegmentationParam) key ->
  ~ present (db w Segmentation) key ->
  parts_have_master (db w) ->
  exists w',
    Segmentation_make ndimage_label key w = (w', inr tt)
    /\ db w' Segmentation = db w Segmentation ++ [<["segmented_masks" := VLabels seg]> key]
    /\ db w' Roi = db w Roi ++ map (Roi_row key seg) (tail (np_unique seg))
    /\ (forall t, t <> Segmentation -> t <> Roi -> db w' t = db w t)
    /\ stdout w'
       = stdout w ++ [KeyLine "Populating for: " key;
                      Line ("Detected " +:+ dec_nat (length (tail (np_unique seg)))
                            +:+ " ROIs!" +:+ newline)]
    /\ calls w' = calls w /\ files w' = files w /\ opened w' = opened w.
Proof.
  intros key seg Hra Havg Hrp Hvt Hth Hvc Hsc Hlab (Hnb & Hin & Hall & Hfg)
         Hkav Hkp Habs Hpm.
  unfold Segmentation_make.
  rewrite (bind_ok _ _ _ _ _ eq_refl).
  set (wp := World _ _ _ _ _ _).
  erewrite bind_ok; cycle 1.
  { rewrite (bind_ok _ _ _ _ _ (fetch1_ok _ _ _ wp _ _ Hra Havg)). reflexivity. }
  erewrite bind_ok; [|unfold fetch1_row; change (db wp) with (db w); rewrite Hrp; reflexivity].
  erewrite bind_ok; cycle 1.
  { unfold attr. rewrite Hvt. unfold bind, ret. by apply as_float_ok. }
  erewrite bind_ok; cycle 1.
  { unfold attr. rewrite Hvc. unfold bind, ret. by apply as_float_ok. }
  cbn [fst snd mask_value labels_value].
  rewrite Hlab.
  rewrite (bind_ok _ _ _ _ _ (size_filter_ok label_im size_cutoff nb _ Hin Hall Hnb)).
  fold seg.
  rewrite (bind_ok _ _ _ _ _ (map_M_Roi_rows key seg _ _ eq_refl eq_refl)).
  rewrite (bind_ok _ _ _ _ _ eq_refl).
  set (mrow := <["segmented_masks" := VLabels seg]> key).
  assert (Hext : forall a, a ∈ pk Segmentation -> key !! a = mrow !! a).
  { intros a Ha. symmetry. apply (lookup_insert_other _ _ _ (pk Segmentation)); [|done].
    compute_done. }
  assert (Hrow : row_ok Segmentation mrow) by (subst mrow key; compute_done).
  assert (Hnokey : ~ has_key (db w Segmentation) (pk Segmentation) key).
  { apply not_present_not_has_key; [compute_done|done]. }
  assert (Hnodup : ~ has_key (db wp Segmentation) (pk Segmentation) mrow).
  { intros Hk. apply Hnokey. eapply has_key_ext; [|exact Hk].
    intros a Ha. symmetry. by apply Hext. }
  assert (Hpar : parents_present (db wp) Segmentation mrow).
  { constructor; [|constructor; [|constructor]].
    - eapply has_key_ext; [|exact Hkav]. intros a Ha.
      by apply Hext, pk_AverageFrame_Segmentation.
    - eapply has_key_ext; [|exact Hkp]. intros a Ha.
      by apply Hext, pk_SegmentationParam_Segmentation. }
  rewrite (bind_ok _ _ _ _ _ (insert1_ok _ _ _ Hrow Hnodup Hpar)).
  rewrite (bind_ok _ _ _ _ _ eq_refl).
  set (w1 := World _ _ _ _ _ _).
  set (L := tail (np_unique seg)).
  assert (HL : NoDup L).
  { subst L. pose proof (sorted_lt_NoDup _ (np_unique_sorted seg)) as Hnd.
    destruct (np_unique seg); [done|]. by apply NoDup_cons in Hnd as [_ ?]. }
  destruct (insert_ok Roi (map (Roi_row key seg) L) w1)
    as (w' & Hrun & Hdb & Hoth & Hst & Hca & Hfi & Hop).
  - compute_done.
  - apply Forall_fmap, Forall_forall. intros i0 _. simpl. subst key. compute_done.
  - apply Forall_fmap, Forall_forall. intros i0 _. simpl.
    subst w1. simpl. rewrite set_table_other by done.
    intros Hk. unfold has_key in Hk. apply Exists_exists in Hk as (r & Hr & Hag).
    apply Hnokey.
    pose proof (Hpm Roi Segmentation r eq_refl Hr) as Hm.
    unfold has_key in *. eapply Exists_impl; [exact Hm|]. intros mr Hmr.
    eapply agree_on_trans; [|exact Hmr].
    apply (agree_on_ext (pk Segmentation) (Roi_row key seg i0) key r);
      [intros a Ha; by apply Roi_row_agree|].
    eapply agree_on_sub; [|exact Hag]. intros a. apply pk_Segmentation_Roi.
  - intros i1 i2 r1 r2 Hlt H1 H2 Hag.
    rewrite list_lookup_fmap in H1, H2.
    destruct (L !! i1) as [l1|] eqn:E1; [|done].
    destruct (L !! i2) as [l2|] eqn:E2; [|done].
    simpl in H1, H2. injection H1 as <-. injection H2 as <-.
    unfold agree_on in Hag. rewrite Forall_forall in Hag.
    destruct (Hag "roi_idx") as [_ Heq]; [compute_done|].
    rewrite !Roi_row_idx in Heq. injection Heq as ->.
    pose proof (NoDup_lookup _ _ _ _ HL E1 E2). lia.
  - apply Forall_fmap, Forall_forall. intros i0 _. simpl.
    constructor; [|constructor].
    subst w1. simpl. rewrite set_table_same. unfold has_key.
    apply Exists_app. right. constructor.
    apply (agree_on_ext (pk Segmentation) (Roi_row key seg i0) key mrow);
      [intros a Ha; by apply Roi_row_agree|].
    unfold agree_on. apply Forall_forall. intros a Ha.
    split; [|by apply Hext].
    unfold pk, Session_pk in Ha. simpl in Ha. elem_cases Ha; eexists; reflexivity.
  - exists w'. split; [exact Hrun|].
    subst w1. simpl in *. rewrite set_table_other in Hdb by done.
    split.
    { rewrite Hoth by done. by rewrite set_table_same. }
    split; [done|].
    split.
    { intros t Ht1 Ht2. rewrite Hoth by done. by rewrite set_table_other. }
    rewrite Hst, Hca, Hfi, Hop. subst wp. simpl. rewrite length_map, <- app_assoc. done.
Qed.

Lemma filter_all {A} (P : A -> Prop) `{forall x, Decision (P x)} (l : list A) :
  Forall P l -> filter P l = l.
Proof.
  induction 1 as [|x l Hx Hl IH]; [done|].
  rewrite filter_cons, decide_True by done. by rewrite IH.
Qed.

Lemma sorted_tail_filter u :
  StronglySorted Z.lt u -> (forall x, x ∈ u -> 0 <= x) -> 0 ∈ u ->
  tail u = filter (fun x => x <> 0) u.
Proof.
  intros Hs Hpos H0. destruct u as [|h t]; [by apply elem_of_nil in H0|].
  apply StronglySorted_inv in Hs as [_ Hh].
  assert (h = 0) as ->.
  { rewrite Forall_forall in Hh.
    apply elem_of_cons in H0 as [->|H0]; [done|].
    specialize (Hh 0 H0). specialize (Hpos h (list_elem_of_here _ _)). lia. }
  simpl. rewrite filter_cons, decide_False by (intros ?; done).
  symmetry. apply filter_all. eapply Forall_impl; [exact Hh|]. intros; simpl in *; lia.
Qed.

Lemma filtered_labels label_im size_cutoff nb :
  0 <= nb ->
  (forall v, v ∈ concat label_im -> 0 <= v <= nb) ->
  (forall k, 0 <= k <= nb -> k ∈ concat label_im) ->
  let seg := map (map (keep_large label_im size_cutoff)) label_im in
  tail (np_unique seg) = filter (fun x => x <> 0) (np_unique seg)
  /\ forall i, i ∈ concat seg -> i <> 0 ->
       i ∈ concat label_im /\ keep_large label_im size_cutoff i = i
       /\ (size_cutoff <= inject_Z (count_eq label_im i))%Q.
Proof.
  intros Hnb Hin Hall seg. split.
  - apply sorted_tail_filter; [apply np_unique_sorted| |].
    + intros x Hx. apply elem_of_np_unique in Hx.
      apply elem_of_concat_map_map in Hx as (v & Hv & ->).
      destruct (keep_large_cases label_im size_cutoff v) as [->|[-> _]]; [lia|].
      by apply Hin.
    + apply elem_of_np_unique, elem_of_concat_map_map. exists 0.
      split; [apply Hall; lia|].
      by destruct (keep_large_cases label_im size_cutoff 0) as [->|[-> _]].
  - intros i Hi Hne. apply elem_of_concat_map_map in Hi as (v & Hv & ->).
    destruct (keep_large_cases label_im size_cutoff v) as [H0|[Hk Hlt]]; [done|].
    rewrite Hk in *. split; [done|]. split; [done|]. by apply Qltb_ge.
Qed.

Lemma Roi_row_mask (key : row) seg i :
  Roi_row key seg i !! "mask" = Some (VMask (img_eq seg i)).
Proof. unfold Roi_row. by rewrite lookup_insert_eq. Qed.

(** C9: the [Roi] rows one run of [Segmentation.make] inserts: each has as
    [roi_idx] a label other than [0] of the stored label image and as [mask]
    the samples carrying it, at least [size_cutoff] of them; the [roi_idx]
    values are exactly the labels other than [0] of that image, each once;
    and the count [make] prints is the number of rows inserted. *)
Theorem Roi_rows_of_make ndimage_label m s i p w avg threshold size_cutoff label_im nb :
  Segmentation_ready ndimage_label (Segmentation_key m s i p) w avg threshold size_cutoff
    label_im nb ->
  let key := Segmentation_key m s i p in
  exists w' seg new,
    Segmentation_make ndimage_label key w = (w', inr tt)
    /\ db w' Segmentation = db w Segmentation ++ [<["segmented_masks" := VLabels seg]> key]
    /\ db w' Roi = db w Roi ++ new
    /\ Forall (fun r => exists l mask,
                 r !! "roi_idx" = Some (VInt l) /\ r !! "mask" = Some (VMask mask)
                 /\ l <> 0 /\ l ∈ concat seg /\ mask = img_eq seg l
                 /\ (size_cutoff <= inject_Z (count_true mask))%Q) new
    /\ (forall l, (exists r, r ∈ new /\ r !! "roi_idx" = Some (VInt l))
                  <-> (l ∈ concat seg /\ l <> 0))
    /\ NoDup (map (fun r => r !! "roi_idx") new)
    /\ stdout w'
       = stdout w ++ [KeyLine "Populating for: " key;
                      Line ("Detected " +:+ dec_nat (length new) +:+ " ROIs!" +:+ newline)].
Proof.
  intros ((ra & Hra & Havg) & (rp & vt & vc & Hrp & Hvt & Hth & Hvc & Hsc) & Hlab & Hc
          & Hkav & Hkp & Habs & Hpm) key.
  destruct (Segmentation_make_ok ndimage_label m s i p w ra avg rp vt vc threshold
              size_cutoff label_im nb Hra Havg Hrp Hvt Hth Hvc Hsc Hlab Hc Hkav Hkp Habs Hpm)
    as (w' & Hrun & Hseg & Hroi & Hoth & Hout & _).
  destruct Hc as (Hnb & Hin & Hall & Hfg).
  destruct (filtered_labels label_im size_cutoff nb Hnb Hin Hall) as [Htail Hkept].
  set (seg := map (map (keep_large label_im size_cutoff)) label_im) in *.
  set (L := tail (np_unique seg)) in *.
  assert (HL : forall l, l ∈ L <-> l ∈ concat seg /\ l <> 0).
  { intros l. subst L. rewrite Htail, list_elem_of_filter, elem_of_np_unique. tauto. }
  assert (HLnd : NoDup L).
  { subst L. rewrite Htail. apply NoDup_filter, sorted_lt_NoDup, np_unique_sorted. }
  exists w', seg, (map (Roi_row key seg) L).
  split; [exact Hrun|]. split; [exact Hseg|]. split; [exact Hroi|].
  split.
  { apply Forall_fmap, Forall_forall. intros l Hl. simpl.
    apply HL in Hl as [Hl Hne].
    exists l, (img_eq seg l). rewrite Roi_row_idx, Roi_row_mask.
    repeat (split; [done|]).
    destruct (Hkept l Hl Hne) as (_ & Hk & Hge).
    rewrite count_true_img_eq. subst seg. by rewrite count_eq_keep_large. }
  split.
  { intros l. rewrite <- HL. split.
    - intros (r & Hr & Hidx). apply list_elem_of_fmap in Hr as (l' & -> & Hl').
      rewrite Roi_row_idx in Hidx. by injection Hidx as <-.
    - intros Hl. exists (Roi_row key seg l). split; [by apply list_elem_of_fmap_2|].
      apply Roi_row_idx. }
  split.
  { rewrite map_map. erewrite map_ext; [|intros l; apply Roi_row_idx].
    assert (Inj eq eq (fun l : Z => Some (VInt l))) by (intros l1 l2 [= ->]; done).
    by apply (NoDup_fmap_2 (fun l => Some (VInt l))). }
  by rewrite length_map.
Qed.

(** ** Checking the example states *)

Lemma elem_of_positions {A} (a : list (list A)) x y v :
  at2 a x y = Some v -> (x, y) ∈ positions a.
Proof.
  unfold at2, positions. intros H.
  destruct (a !! x) as [r|] eqn:Er; [|done]. simpl in H.
  apply list_elem_of_bind. exists x. split.
  - rewrite Er. simpl. apply list_elem_of_bind. exists y. split.
    + apply list_elem_of_singleton. done.
    + apply elem_of_seq. apply lookup_lt_Some in H. lia.
  - apply elem_of_seq. apply lookup_lt_Some in Er. lia.
Qed.

Lemma label_contract_b_sound mask label_im nb :
  label_contract_b mask label_im nb = true -> label_contract mask label_im nb.
Proof.
  unfold label_contract_b. rewrite !andb_true_iff, !forallb_forall.
  intros (((Hnb & Hin) & Hall) & Hfg).
  split; [lia|]. split; [|split].
  - intros v Hv. apply list_elem_of_In, Hin in Hv. lia.
  - intros k Hk. assert (In k (seqZ 0 (nb + 1))) as Hi.
    { apply list_elem_of_In, elem_of_seqZ. lia. }
    apply Hall in Hi. by apply bool_decide_eq_true in Hi.
  - intros x y v Hv Hne.
    pose proof (elem_of_positions _ _ _ _ Hv) as Hp.
    apply list_elem_of_In, Hfg in Hp. simpl in Hp. rewrite Hv in Hp.
    apply orb_true_iff in Hp as [Hp|Hp]; [lia|]. by apply bool_decide_eq_true in Hp.
Qed.

Lemma parts_have_master_empty d : d Roi = [] -> d Trace = [] -> parts_have_master d.
Proof.
  intros HR HT t m r Hm Hr.
  destruct t; try discriminate; rewrite ?HR, ?HT in Hr; by apply elem_of_nil in Hr.
Qed.

Lemma segmentation_world_ready :
  Segmentation_ready label4 (Segmentation_key 0 "2017-05-15" 1 0) segmentation_world
    (np_mean_axis0 [example_frame 60; example_frame 80]) (inject_Z 50) (inject_Z 50)
    (label4 (img_gt (np_mean_axis0 [example_frame 60; example_frame 80]) (inject_Z 50))).1
    (label4 (img_gt (np_mean_axis0 [example_frame 60; example_frame 80]) (inject_Z 50))).2.
Proof.
  split.
  { exists (default ∅ (head (restrict (db segmentation_world AverageFrame)
                                   (Segmentation_key 0 "2017-05-15" 1 0)))).
    split; compute_done. }
  split.
  { exists (default ∅ (head (restrict (db segmentation_world SegmentationParam)
                                   (Segmentation_key 0 "2017-05-15" 1 0)))),
           (VInt 50), (VInt 50).
    repeat split; compute_done. }
  split; [by destruct (label4 _)|].
  split; [apply label_contract_b_sound; compute_done|].
  split; [compute_done|]. split; [compute_done|]. split; [compute_done|].
  apply parts_have_master_empty; compute_done.
Qed.

Lemma AverageFrame_make_mean_witness :
  exists w' avg,
    AverageFrame_make (Scan_key 0 "2017-05-15" 1) imaging_world = (w', inr tt)
    /\ db w' AverageFrame
       = db imaging_world AverageFrame
         ++ [<["average_frame" := VImage avg]> (Scan_key 0 "2017-05-15" 1)]
    /\ (forall t, t <> AverageFrame -> db w' t = db imaging_world t)
    /\ has_shape 10 10 avg
    /\ forall x y, (x < 10)%nat -> (y < 10)%nat ->
         sum_abs (map (fun frame => sample frame x y)
                      [example_frame 60; example_frame 80]) < 2 ^ 53 ->
         px avg x y
         = fl (arith_mean (map (fun frame => inject_Z (sample frame x y))
                               [example_frame 60; example_frame 80])).
Proof.
  apply (AverageFrame_make_mean 0 "2017-05-15" 1 imaging_world
           (Session_row 0 "2017-05-15" 0 "Edgar Y. Walker" "/data")
           (Scan_row 0 "2017-05-15" 1 150 920 26 15 "example_scan_01.tif")
           "/data" "example_scan_01.tif" [example_frame 60; example_frame 80]
           [example_frame 60; example_frame 80] 2 10 10).
  - compute_done.
  - compute_done.
  - compute_done.
  - compute_done.
  - compute_done.
  - reflexivity.
  - compute_done.
  - compute_done.
  - compute_done.
  - lia.
  - compute_done.
Defined.

(** The mean of five frames whose samples at one place are [1, 0, 0, 0, 0]
    is [1/5], which is no float64: what [AverageFrame.make] stores there is
    the float64 nearest to it. *)
Lemma AverageFrame_make_mean_is_rounded :
  let pages := [[[1; 0]; [0; 0]]; [[0; 0]; [0; 0]]; [[0; 0]; [0; 0]]; [[0; 0]; [0; 0]];
                [[0; 0]; [0; 0]]] in
  let w := World (db imaging_world)
                 (<["/data/example_scan_01.tif" := TifFile pages]> ∅) [] [] [] [] in
  let res := AverageFrame_make (Scan_key 0 "2017-05-15" 1) w in
  let stored := (3602879701896397 # 18014398509481984)%Q in
  skimage_imread pages = Some (Arr3 pages)
  /\ res.2 = inr tt
  /\ db res.1 AverageFrame
     = [<["average_frame" := VImage [[stored; 0%Q]; [0%Q; 0%Q]]]> (Scan_key 0 "2017-05-15" 1)]
  /\ ~ (stored == arith_mean [1; 0; 0; 0; 0])%Q.
Proof.
  intros pages w res stored.
  split; [reflexivity|]. split; [compute_done|]. split; [compute_done|].
  intros H. discriminate H.
Qed.

(** C7, where the code departs from it: an average frame with every sample
    above the threshold.  The notebook's steps for the scan
    [(0, 2017-05-15, 1)], whose two frames are [60] and [80] all over, and
    the parameters [(0, 50, 50)]: the average frame is [70] all over, the
    key is among those [Segmentation.populate()] hands to [make], the mask
    [avg_image > threshold] is [True] all over and its labelling is the one
    label [1].  [sizes] then has the one entry of label [1], at index [0],
    and [small_size_filter[label_im]] asks for index [1]: [make] raises
    [IndexError], and neither [segmented_masks] nor a [Roi] row is
    stored. *)
Theorem Segmentation_make_all_above_threshold :
  let key := Segmentation_key 0 "2017-05-15" 1 0 in
  let res := Segmentation_make label4 key bright_world in
  (fetch1 AverageFrame key "average_frame" bright_world).2
  = inr (VImage [[70; 70]; [70; 70]]%Q)
  /\ (fetch1 SegmentationParam key "threshold" bright_world).2 = inr (VInt 50)
  /\ (fetch1 SegmentationParam key "size_cutoff" bright_world).2 = inr (VInt 50)
  /\ key ∈ to_do Segmentation (db bright_world)
  /\ img_gt [[70; 70]; [70; 70]]%Q (inject_Z 50) = [[true; true]; [true; true]]
  /\ label4 [[true; true]; [true; true]] = ([[1; 1]; [1; 1]], 1)
  /\ res.2 = inl IndexError
  /\ db res.1 Segmentation = []
  /\ db res.1 Roi = [].
Proof.
  intros key res. repeat split; compute_done.
Qed.

Lemma Roi_rows_of_make_witness :
  let key := Segmentation_key 0 "2017-05-15" 1 0 in
  exists w' seg new,
    Segmentation_make label4 key segmentation_world = (w', inr tt)
    /\ db w' Segmentation
       = db segmentation_world Segmentation ++ [<["segmented_masks" := VLabels seg]> key]
    /\ db w' Roi = db segmentation_world Roi ++ new
    /\ Forall (fun r => exists l mask,
                 r !! "roi_idx" = Some (VInt l) /\ r !! "mask" = Some (VMask mask)
                 /\ l <> 0 /\ l ∈ concat seg /\ mask = img_eq seg l
                 /\ (inject_Z 50 <= inject_Z (count_true mask))%Q) new
    /\ (forall l, (exists r, r ∈ new /\ r !! "roi_idx" = Some (VInt l))
                  <-> (l ∈ concat seg /\ l <> 0))
    /\ NoDup (map (fun r => r !! "roi_idx") new)
    /\ stdout w'
       = stdout segmentation_world
         ++ [KeyLine "Populating for: " key;
             Line ("Detected " +:+ dec_nat (length new) +:+ " ROIs!" +:+ newline)].
Proof.
  exact (Roi_rows_of_make label4 0 "2017-05-15" 1 0 segmentation_world _ _ _ _ _
           segmentation_world_ready).
Defined.

(** ** The order of writes in [make] *)

Lemma triple_bind {A B} P (m : M A) (k : A -> M B) Q Q' E :
  triple P m Q E -> (forall a, triple (Q a) (k a) Q' E) -> triple P (bind m k) Q' E.
Proof.
  intros Hm Hk w HP. unfold bind. specialize (Hm w HP).
  destruct (m w) as [w1 [e|a]]; [done|]. by apply Hk.
Qed.

Lemma triple_weaken {A} (P P' : world -> Prop) (m : M A) Q E :
  (forall w, P' w -> P w) -> triple P m Q E -> triple P' m Q E.
Proof. intros HP Hm w Hw. apply Hm, HP, Hw. Qed.

Lemma keeps_store_unchanged {A} (m : M A) : unchanged m -> keeps_store m.
Proof. intros H w. by rewrite H. Qed.

Lemma keeps_store_bind {A B} (m : M A) (k : A -> M B) :
  keeps_store m -> (forall a, keeps_store (k a)) -> keeps_store (bind m k).
Proof.
  intros Hm Hk w. unfold bind. specialize (Hm w).
  destruct (m w) as [w1 [e|a]]; simpl in *; [done|].
  destruct (Hk a w1) as [-> ->]. done.
Qed.

Lemma keeps_store_print o : keeps_store (print o).
Proof. by intros w. Qed.

Lemma keeps_store_open_file p : keeps_store (open_file p).
Proof. intros w. unfold open_file. by destruct (files w !! p). Qed.

Lemma keeps_store_io_imread p : keeps_store (io_imread p).
Proof.
  apply keeps_store_bind; [apply keeps_store_open_file|].
  intros [pages|a]; [destruct (skimage_imread pages)|]; by apply keeps_store_unchanged.
Qed.

Lemma keeps_store_map_M {A B} (f : A -> M B) l :
  (forall x, keeps_store (f x)) -> keeps_store (map_M f l).
Proof.
  intros Hf. induction l as [|x l IH]; simpl.
  - by intros w.
  - apply keeps_store_bind; [apply Hf|]. intros y.
    apply keeps_store_bind; [done|]. by intros ys w.
Qed.

Lemma triple_keeps_store {A} (P : list (tbl * row * DB) -> DB -> Prop) (m : M A) E :
  keeps_store m ->
  (forall w, P (journal w) (db w) -> E w) ->
  triple (fun w => P (journal w) (db w)) m (fun _ w => P (journal w) (db w)) E.
Proof.
  intros Hk HE w HP. destruct (Hk w) as [Hj Hd].
  destruct (m w) as [w1 [e|a]]; simpl in *.
  - apply HE. by rewrite Hj, Hd.
  - by rewrite Hj, Hd.
Qed.

Lemma has_key_app_l rows more names (r : row) :
  has_key rows names r -> has_key (rows ++ more) names r.
Proof. unfold has_key. intros H. apply Exists_app. by left. Qed.

Lemma master_in_parents t m : master t = Some m -> m ∈ parents t.
Proof. destruct t; intros [= <-]; compute_done. Qed.

(** A row [insert1] accepts into a part table has its master. *)
Lemma insert1_keeps_parts_have_master d t r :
  parts_have_master d -> parents_present d t r ->
  parts_have_master (set_table d t (d t ++ [r])).
Proof.
  intros Hpm Hpar t0 m0 r0 Hm Hr0.
  assert (forall r', has_key (d m0) (pk m0) r' ->
                     has_key (set_table d t (d t ++ [r]) m0) (pk m0) r') as Hmono.
  { intros r' H. unfold set_table. case_decide as Heq; [|done].
    rewrite Heq in H |- *. by apply has_key_app_l. }
  apply Hmono. unfold set_table in Hr0. case_decide as Heq.
  - subst t0. apply elem_of_app in Hr0 as [Hr0|Hr0]; [by eapply Hpm|].
    apply list_elem_of_singleton in Hr0 as ->.
    unfold parents_present in Hpar. rewrite Forall_forall in Hpar.
    by apply Hpar, master_in_parents.
  - by eapply Hpm.
Qed.

Lemma insert1_cases t r w :
  insert1 t r w
  = (World (set_table (db w) t (db w t ++ [r])) (files w) (stdout w) (opened w)
           (journal w ++ [(t, r, set_table (db w) t (db w t ++ [r]))]) (calls w), inr tt)
    /\ parents_present (db w) t r
  \/ exists e, insert1 t r w = (w, inl e).
Proof. unfold insert1. repeat case_decide; eauto. Qed.

Lemma triple_insert1_master tm tp j0 r :
  triple (fun w => journal w = j0 /\ parts_have_master (db w))
         (insert1 tm r)
         (fun _ w => exists new, journal w = j0 ++ new
                       /\ (exists k, tables_written new = tm :: replicate k tp)
                       /\ Forall (fun e => parts_have_master e.2) new
                       /\ parts_have_master (db w))
         (master_then_parts tm tp j0).
Proof.
  intros w [Hj Hpm].
  destruct (insert1_cases tm r w) as [[-> Hpar]|[e ->]].
  - pose proof (insert1_keeps_parts_have_master _ _ _ Hpm Hpar) as Hpm'.
    eexists. simpl. split; [by rewrite Hj|]. split; [by exists 0%nat|].
    split; [by repeat constructor|done].
  - exists []. rewrite app_nil_r. split; [done|]. split; [by left|].
    split; [constructor|done].
Qed.

Lemma triple_insert1_part tm tp j0 r :
  triple (fun w => exists new, journal w = j0 ++ new
                     /\ (exists k, tables_written new = tm :: replicate k tp)
                     /\ Forall (fun e => parts_have_master e.2) new
                     /\ parts_have_master (db w))
         (insert1 tp r)
         (fun _ w => exists new, journal w = j0 ++ new
                       /\ (exists k, tables_written new = tm :: replicate k tp)
                       /\ Forall (fun e => parts_have_master e.2) new
                       /\ parts_have_master (db w))
         (master_then_parts tm tp j0).
Proof.
  intros w (new & Hj & [k Hk] & Hall & Hpm).
  destruct (insert1_cases tp r w) as [[-> Hpar]|[e ->]].
  - pose proof (insert1_keeps_parts_have_master _ _ _ Hpm Hpar) as Hpm'.
    eexists. simpl. split; [by rewrite Hj, <- app_assoc|].
    split.
    { exists (S k). unfold tables_written in *. rewrite map_app, Hk. simpl.
      f_equal. clear. induction k as [|k IH]; simpl; [done|]. by rewrite IH. }
    split; [|done]. apply Forall_app. split; [done|]. by repeat constructor.
  - exists new. eauto 6.
Qed.

Lemma triple_insert_parts tm tp j0 rows :
  triple (fun w => exists new, journal w = j0 ++ new
                     /\ (exists k, tables_written new = tm :: replicate k tp)
                     /\ Forall (fun e => parts_have_master e.2) new
                     /\ parts_have_master (db w))
         (insert tp rows)
         (fun _ w => master_then_parts tm tp j0 w)
         (master_then_parts tm tp j0).
Proof.
  unfold insert. induction rows as [|r rows IH]; simpl.
  - intros w (new & Hj & Hk & Hall & Hpm). exists new. eauto 6.
  - eapply triple_bind; [apply triple_insert1_part|]. intros []. exact IH.
Qed.

Lemma unchanged_size_filter label_im size_cutoff :
  unchanged (size_filter label_im size_cutoff).
Proof. unfold size_filter. auto with frame. Qed.

Lemma unchanged_trace_of im_reshaped w h km : unchanged (trace_of im_reshaped w h km).
Proof.
  unfold trace_of. apply unchanged_bind; [auto with frame|]. intros mask.
  apply unchanged_bind; [case_decide; auto with frame|]. auto with frame.
Qed.

#[export] Hint Resolve unchanged_size_filter unchanged_trace_of : frame.

Ltac solve_keeps :=
  lazymatch goal with
  | |- keeps_store (bind _ _) => apply keeps_store_bind; [solve_keeps|intros ?; solve_keeps]
  | |- keeps_store (print _) => apply keeps_store_print
  | |- keeps_store (io_imread _) => apply keeps_store_io_imread
  | |- keeps_store (map_M _ _) => apply keeps_store_map_M; intros ?; solve_keeps
  | |- keeps_store _ => apply keeps_store_unchanged; auto 10 with frame
  end.

Lemma before_master tm tp j0 {A} (m : M A) :
  keeps_store m ->
  triple (fun w => journal w = j0 /\ parts_have_master (db w)) m
         (fun _ w => journal w = j0 /\ parts_have_master (db w))
         (master_then_parts tm tp j0).
Proof.
  intros Hk.
  apply (triple_keeps_store (fun j d => j = j0 /\ parts_have_master d)); [done|].
  intros w [Hj Hpm]. exists []. rewrite app_nil_r.
  split; [done|]. split; [by left|]. split; [constructor|done].
Qed.

Lemma after_master tm tp j0 {A} (m : M A) :
  keeps_store m ->
  triple (fun w => exists new, journal w = j0 ++ new
                     /\ (exists k, tables_written new = tm :: replicate k tp)
                     /\ Forall (fun e => parts_have_master e.2) new
                     /\ parts_have_master (db w))
         m
         (fun _ w => exists new, journal w = j0 ++ new
                       /\ (exists k, tables_written new = tm :: replicate k tp)
                       /\ Forall (fun e => parts_have_master e.2) new
                       /\ parts_have_master (db w))
         (master_then_parts tm tp j0).
Proof.
  intros Hk.
  apply (triple_keeps_store
           (fun j d => exists new, j = j0 ++ new
                         /\ (exists k, tables_written new = tm :: replicate k tp)
                         /\ Forall (fun e => parts_have_master e.2) new
                         /\ parts_have_master d)); [done|].
  intros w (new & Hj & Hk' & Hall & Hpm). exists new. eauto 6.
Qed.

Ltac before_step :=
  eapply triple_bind; [apply before_master; solve_keeps|intros ?].

Lemma Segmentation_make_order ndimage_label key j0 :
  triple (fun w => journal w = j0 /\ parts_have_master (db w))
         (Segmentation_make ndimage_label key)
         (fun _ => master_then_parts Segmentation Roi j0)
         (master_then_parts Segmentation Roi j0).
Proof.
  unfold Segmentation_make.
  do 5 before_step.
  destruct (ndimage_label _) as [label_im nb].
  do 3 before_step.
  eapply triple_bind; [apply triple_insert1_master|intros []].
  eapply triple_bind; [apply after_master; solve_keeps|intros []].
  apply triple_insert_parts.
Qed.

Lemma Fluorescence_make_order key j0 :
  triple (fun w => journal w = j0 /\ parts_have_master (db w))
         (Fluorescence_make key)
         (fun _ => master_then_parts Fluorescence Trace j0)
         (master_then_parts Fluorescence Trace j0).
Proof.
  unfold Fluorescence_make.
  do 4 before_step.
  match goal with [ arr : ndarray |- _ ] => destruct arr as [page|im] end.
  { intros w Hw.
    exact (before_master Fluorescence Trace j0 (@raise unit ValueError)
             ltac:(solve_keeps) w Hw). }
  destruct (np_shape3 _) as [[n wd] ht].
  do 2 before_step.
  eapply triple_bind; [apply triple_insert1_master|intros []].
  eapply triple_bind; [apply after_master; solve_keeps|intros ?].
  eapply triple_bind; [apply after_master; solve_keeps|intros ?].
  apply triple_insert_parts.
Qed.

(** C8: in any run of [Segmentation.make] and of [Fluorescence.make],
    returned or raised, from a store with no part row without its master:
    the writes are none, or one to the master table followed by writes to
    its part table only; and every store a write leaves, and the store at
    the end, has no part row without its master. *)
Theorem master_inserted_before_parts ndimage_label key w :
  parts_have_master (db w) ->
  master_then_parts Segmentation Roi (journal w) (Segmentation_make ndimage_label key w).1
  /\ master_then_parts Fluorescence Trace (journal w) (Fluorescence_make key w).1.
Proof.
  intros Hpm. split.
  - pose proof (Segmentation_make_order ndimage_label key (journal w) w (conj eq_refl Hpm)) as H.
    by destruct (Segmentation_make ndimage_label key w) as [w' [e|[]]].
  - pose proof (Fluorescence_make_order key (journal w) w (conj eq_refl Hpm)) as H.
    by destruct (Fluorescence_make key w) as [w' [e|[]]].
Qed.

Lemma parts_have_master_check d :
  Forall (fun r => has_key (d Segmentation) (pk Segmentation) r) (d Roi) ->
  Forall (fun r => has_key (d Fluorescence) (pk Fluorescence) r) (d Trace) ->
  parts_have_master d.
Proof.
  intros HR HT t m r Hm Hr. rewrite Forall_forall in HR, HT.
  destruct t; try discriminate; injection Hm as <-; [by apply HR|by apply HT].
Qed.

Lemma fluorescence_world_parts_have_master : parts_have_master (db fluorescence_world).
Proof. apply parts_have_master_check; compute_done. Qed.

Lemma master_inserted_before_parts_witness :
  master_then_parts Segmentation Roi (journal fluorescence_world)
    (Segmentation_make label4 (Segmentation_key 0 "2017-05-15" 1 0) fluorescence_world).1
  /\ master_then_parts Fluorescence Trace (journal fluorescence_world)
       (Fluorescence_make (Segmentation_key 0 "2017-05-15" 1 0) fluorescence_world).1.
Proof.
  apply (master_inserted_before_parts label4 (Segmentation_key 0 "2017-05-15" 1 0)
           fluorescence_world).
  exact fluorescence_world_parts_have_master.
Defined.

(** ** [populate] *)

Lemma bind_inv_ok {A B} (m : M A) (k : A -> M B) w w' b :
  bind m k w = (w', inr b) -> exists w1 a, m w = (w1, inr a) /\ k a w1 = (w', inr b).
Proof. unfold bind. destruct (m w) as [w1 [e|a]]; [done|]. eauto. Qed.

Lemma populate_unfold t make w :
  populate t make w = for_each (to_do t (db w)) (fun key => note_call t key;; invoke make key) w.
Proof. reflexivity. Qed.

(** Nothing to do: [populate] returns at once, whatever [make] is. *)
Lemma populate_nothing_to_do t make w :
  to_do t (db w) = [] -> populate t make w = (w, inr tt).
Proof. intros H. rewrite populate_unfold, H. reflexivity. Qed.

(** The calls [populate] notes are a prefix of the keys to do, all of them
    when it returns. *)
Lemma for_each_calls t make l :
  (forall k X, invariant (fun w => calls w = X) (invoke make k)) ->
  forall w w' res,
    for_each l (fun key => note_call t key;; invoke make key) w = (w', res) ->
    exists invoked,
      calls w' = calls w ++ map (pair t) invoked
      /\ invoked `prefix_of` l
      /\ (res = inr tt -> invoked = l).
Proof.
  intros Hmk. induction l as [|k l IH]; intros w w' res.
  - simpl. intros [= <- <-]. exists []. simpl. rewrite app_nil_r. done.
  - simpl. unfold bind at 1. unfold bind at 1. unfold note_call at 1.
    set (w1 := World _ _ _ _ _ _).
    pose proof (Hmk k (calls w1) w1 eq_refl) as Hc.
    destruct (invoke make k w1) as [w2 [e|[]]]; simpl in Hc.
    + intros [= <- <-]. exists [k]. simpl. split; [by rewrite Hc|]. split; [|done].
      apply prefix_cons, prefix_nil.
    + intros Hrun. destruct (IH w2 w' res Hrun) as (inv & Hcalls & Hpre & Hall).
      exists (k :: inv). split.
      { rewrite Hcalls, Hc. subst w1. simpl. by rewrite <- app_assoc. }
      split; [by apply prefix_cons|]. intros Hok. by rewrite Hall.
Qed.

Lemma populate_calls t make w w' res :
  (forall k X, invariant (fun w => calls w = X) (invoke make k)) ->
  populate t make w = (w', res) ->
  exists invoked,
    calls w' = calls w ++ map (pair t) invoked
    /\ invoked `prefix_of` to_do t (db w)
    /\ (res = inr tt -> invoked = to_do t (db w)).
Proof. intros Hmk. rewrite populate_unfold. by apply for_each_calls. Qed.

Lemma AverageFrame_make_calls k X :
  invariant (fun w => calls w = X) (AverageFrame_make k).
Proof.
  unfold AverageFrame_make.
  apply invariant_bind; [auto with frame|]. intros dp.
  apply invariant_bind; [auto with frame|]. intros fn.
  apply invariant_bind.
  { unfold io_imread. apply invariant_bind; [auto with frame|].
    intros [pages|a]; [destruct (skimage_imread pages)|]; auto with frame. }
  intros im. auto 10 with frame.
Qed.

(** What a returned [AverageFrame.make] did to the store: one row more in
    [AverageFrame], the key with its [average_frame]. *)
Lemma AverageFrame_make_inv k w w' :
  AverageFrame_make k w = (w', inr tt) ->
  exists v, db w' AverageFrame = db w AverageFrame ++ [<["average_frame" := v]> k]
            /\ forall t, t <> AverageFrame -> db w' t = db w t.
Proof.
  unfold AverageFrame_make. intros H.
  apply bind_inv_ok in H as (w1 & dp & H1 & H).
  apply (unchanged_run (v <- fetch1 Session k "data_path";; as_str v)) in H1 as ->;
    [|auto with frame].
  apply bind_inv_ok in H as (w1 & fn & H1 & H).
  apply (unchanged_run (v <- fetch1 Scan k "file_name";; as_str v)) in H1 as ->;
    [|auto with frame].
  apply bind_inv_ok in H as (w1 & im & H1 & H).
  assert (db w1 = db w) as Hdb1.
  { pose proof (keeps_store_io_imread (os_path_join dp fn) w) as [_ Hd].
    by rewrite H1 in Hd. }
  apply bind_inv_ok in H as (w2 & [] & H2 & H).
  destruct (insert1_cases AverageFrame (<["average_frame" := np_mean im]> k) w1)
    as [[Hins _]|[e Hins]]; rewrite Hins in H2; [|done].
  injection H2 as <-.
  assert (db w' = db (World (set_table (db w1) AverageFrame
                      (db w1 AverageFrame ++ [<["average_frame" := np_mean im]> k]))
                    (files w1) (stdout w1) (opened w1)
                    (journal w1 ++ [(AverageFrame, <["average_frame" := np_mean im]> k,
                       set_table (db w1) AverageFrame
                         (db w1 AverageFrame ++ [<["average_frame" := np_mean im]> k]))])
                    (calls w1))) as Hdb.
  { match type of H with ?m ?w0 = _ =>
      assert (keeps_store m) as Hk by solve_keeps;
      destruct (Hk w0) as [_ Hd]; by rewrite H in Hd end. }
  rewrite Hdb. simpl. rewrite Hdb1. exists (np_mean im).
  split; [by rewrite set_table_same|]. intros t Ht. by rewrite set_table_other.
Qed.

Lemma proj_lookup_None (names : list string) (r : row) a :
  a ∉ names -> proj names r !! a = None.
Proof.
  intros Ha. unfold proj. apply map_lookup_filter_None. right. intros x _. exact Ha.
Qed.

Lemma proj_lookup_in (names : list string) (r : row) a :
  a ∈ names -> proj names r !! a = r !! a.
Proof.
  intros Ha. unfold proj. destruct (r !! a) as [v|] eqn:E.
  - by apply map_lookup_filter_Some.
  - apply map_lookup_filter_None. by left.
Qed.

Lemma matches_insert_fresh (k : row) a v : k !! a = None -> matches k (<[a := v]> k).
Proof.
  intros Hk b vb Hb. simpl.
  destruct (decide (a = b)) as [->|Hne]; [congruence|].
  by rewrite lookup_insert_ne, Hb.
Qed.

Lemma present_app_l rows more k : present rows k -> present (rows ++ more) k.
Proof. unfold present. intros H. apply Exists_app. by left. Qed.

Lemma for_each_AverageFrame_make_done l : forall w w',
  (forall k, k ∈ l -> k !! "average_frame" = None) ->
  for_each l (fun key => note_call AverageFrame key;;
                         invoke (Some AverageFrame_make) key) w = (w', inr tt) ->
  (forall t, t <> AverageFrame -> db w' t = db w t)
  /\ (forall k, present (db w AverageFrame) k -> present (db w' AverageFrame) k)
  /\ (forall k, k ∈ l -> present (db w' AverageFrame) k).
Proof.
  induction l as [|k l IH]; intros w w' Hfresh.
  - simpl. intros [= <-]. split; [done|]. split; [done|]. by intros k ?%elem_of_nil.
  - simpl. intros H.
    apply bind_inv_ok in H as (w2 & [] & H1 & H).
    apply bind_inv_ok in H1 as (w1 & [] & Hn & H1).
    injection Hn as <-. simpl in H1.
    apply AverageFrame_make_inv in H1 as (a & Haf & Hoth). simpl in Haf, Hoth.
    destruct (IH w2 w') as (Hoth' & Hmono & Hdone); [|exact H|].
    { intros k' Hk'. apply Hfresh. by apply list_elem_of_further. }
    split; [intros t Ht; by rewrite Hoth', Hoth|].
    split.
    + intros k' Hk'. apply Hmono. rewrite Haf. by apply present_app_l.
    + intros k' Hk'. apply elem_of_cons in Hk' as [->|Hk']; [|by apply Hdone].
      apply Hmono. rewrite Haf. unfold present. apply Exists_app. right. constructor.
      apply matches_insert_fresh, Hfresh, list_elem_of_here.
Qed.

Lemma filter_none {A} (P : A -> Prop) `{forall x, Decision (P x)} (l : list A) :
  Forall (fun x => ~ P x) l -> filter P l = [].
Proof.
  induction 1 as [|x l Hx Hl IH]; [done|].
  by rewrite filter_cons, decide_False.
Qed.

Lemma key_source_AverageFrame d : key_source AverageFrame d = keys_of d Scan.
Proof. reflexivity. Qed.

(** C1: each call of [AverageFrame.populate()] enumerates the primary keys of
    [Scan] that have no row in [AverageFrame], each once, and invokes [make]
    for keys among them only, in that order: for all of them when it returns
    (an exception from [make] ends the call at that key).  After a call that
    returned every key has its row, and the next call invokes [make] for no
    key and changes nothing. *)
Theorem populate_once_per_missing_key w w' res :
  NoDup (keys_of (db w) Scan) ->
  populate AverageFrame (Some AverageFrame_make) w = (w', res) ->
  (forall k, k ∈ to_do AverageFrame (db w)
             <-> k ∈ keys_of (db w) Scan /\ ~ present (db w AverageFrame) k)
  /\ NoDup (to_do AverageFrame (db w))
  /\ (exists invoked,
        calls w' = calls w ++ map (pair AverageFrame) invoked
        /\ invoked `prefix_of` to_do AverageFrame (db w)
        /\ (res = inr tt -> invoked = to_do AverageFrame (db w)))
  /\ (res = inr tt ->
        to_do AverageFrame (db w') = []
        /\ populate AverageFrame (Some AverageFrame_make) w' = (w', inr tt)).
Proof.
  intros Hnd Hrun.
  split.
  { intros k. unfold to_do. rewrite list_elem_of_filter, key_source_AverageFrame. tauto. }
  split; [by apply NoDup_filter|].
  split.
  { apply (populate_calls AverageFrame (Some AverageFrame_make) w w' res); [|exact Hrun].
    intros k X. apply AverageFrame_make_calls. }
  intros ->.
  assert (to_do AverageFrame (db w') = []) as Hnone.
  { rewrite populate_unfold in Hrun.
    apply for_each_AverageFrame_make_done in Hrun as (Hoth & Hmono & Hdone).
    - unfold to_do. rewrite key_source_AverageFrame.
      unfold keys_of. rewrite (Hoth Scan) by done.
      apply filter_none, Forall_forall. intros k Hk Hnp. apply Hnp.
      destruct (decide (present (db w AverageFrame) k)) as [Hp|Hp]; [by apply Hmono|].
      apply Hdone. unfold to_do. apply list_elem_of_filter. done.
    - intros k Hk. unfold to_do in Hk. apply list_elem_of_filter in Hk as [_ Hk].
      rewrite key_source_AverageFrame in Hk.
      apply list_elem_of_fmap in Hk as (r & -> & _).
      apply proj_lookup_None. compute_done. }
  split; [done|]. by apply populate_nothing_to_do.
Qed.

Lemma populate_once_per_missing_key_witness :
  let w' := (populate AverageFrame (Some AverageFrame_make) imaging_world).1 in
  NoDup (keys_of (db imaging_world) Scan)
  /\ populate AverageFrame (Some AverageFrame_make) imaging_world = (w', inr tt)
  /\ length (to_do AverageFrame (db imaging_world)) = 2%nat
  /\ calls w' = calls imaging_world
                ++ map (pair AverageFrame) (to_do AverageFrame (db imaging_world))
  /\ to_do AverageFrame (db w') = []
  /\ populate AverageFrame (Some AverageFrame_make) w' = (w', inr tt).
Proof.
  intros w'.
  assert (NoDup (keys_of (db imaging_world) Scan)) as H1 by compute_done.
  assert (populate AverageFrame (Some AverageFrame_make) imaging_world = (w', inr tt)) as H2.
  { assert ((populate AverageFrame (Some AverageFrame_make) imaging_world).2 = inr tt)
      as Hres by compute_done.
    subst w'. rewrite <- Hres. apply surjective_pairing. }
  destruct (populate_once_per_missing_key imaging_world w' (inr tt) H1 H2)
    as (_ & _ & (invoked & Hcalls & _ & Hall) & Hdone).
  destruct (Hdone eq_refl) as [Hnone Hagain].
  rewrite (Hall eq_refl) in Hcalls.
  split; [exact H1|]. split; [exact H2|]. split; [compute_done|].
  split; [exact Hcalls|]. split; [exact Hnone|exact Hagain].
Defined.

(** ** The key source of a table with two parents *)

Lemma elem_of_join l1 l2 k :
  k ∈ join l1 l2
  <-> exists k1 k2, k1 ∈ l1 /\ k2 ∈ l2 /\ matches k1 k2 /\ k = k1 ∪ k2.
Proof.
  unfold join. rewrite list_elem_of_bind. split.
  - intros (k1 & Hk & Hk1). apply list_elem_of_omap in Hk as (k2 & Hk2 & Hj).
    unfold join_rows in Hj. case_decide; [|done]. injection Hj as <-. eauto 6.
  - intros (k1 & k2 & Hk1 & Hk2 & Hm & ->). exists k1. split; [|done].
    apply list_elem_of_omap. exists k2. split; [done|].
    unfold join_rows. by rewrite decide_True.
Qed.

Lemma join_nil_r l1 : join l1 [] = [].
Proof. unfold join. induction l1 as [|k l IH]; [done|]. csimpl. exact IH. Qed.

(** Keys over disjoint attributes always join. *)
Lemma matches_disjoint (n1 n2 : list string) (k1 k2 : row) :
  (forall a, is_Some (k1 !! a) -> a ∈ n1) ->
  (forall a, is_Some (k2 !! a) -> a ∈ n2) ->
  (forall a, a ∈ n1 -> a ∉ n2) ->
  matches k1 k2.
Proof.
  intros H1 H2 Hd a v Ha. simpl.
  destruct (k2 !! a) as [v2|] eqn:E; [|done].
  exfalso. apply (Hd a); [apply H1|apply H2]; eauto.
Qed.

Lemma union_disjoint_inj (n1 n2 : list string) (k1 k2 k1' k2' : row) :
  (forall a, is_Some (k1 !! a) -> a ∈ n1) -> (forall a, is_Some (k1' !! a) -> a ∈ n1) ->
  (forall a, is_Some (k2 !! a) -> a ∈ n2) -> (forall a, is_Some (k2' !! a) -> a ∈ n2) ->
  (forall a, a ∈ n1 -> a ∉ n2) ->
  k1 ∪ k2 = k1' ∪ k2' -> k1 = k1' /\ k2 = k2'.
Proof.
  intros H1 H1' H2 H2' Hd Heq.
  assert (forall a, (k1 ∪ k2) !! a = (k1' ∪ k2') !! a) as Hl by (intros a; by rewrite Heq).
  assert (forall (k : row) (n : list string), (forall a, is_Some (k !! a) -> a ∈ n) ->
                              forall a, a ∉ n -> k !! a = None) as Hnone.
  { intros k n Hk a Ha. destruct (k !! a) eqn:E; [|done]. exfalso. apply Ha, Hk. eauto. }
  split; apply map_eq; intros a; specialize (Hl a); rewrite !lookup_union in Hl.
  - destruct (decide (a ∈ n1)) as [Ha|Ha].
    + rewrite (Hnone k2 n2 H2 a), (Hnone k2' n2 H2' a) in Hl by (by apply Hd).
      by destruct (k1 !! a), (k1' !! a).
    + by rewrite (Hnone k1 n1 H1 a), (Hnone k1' n1 H1' a).
  - destruct (decide (a ∈ n1)) as [Ha|Ha].
    + by rewrite (Hnone k2 n2 H2 a), (Hnone k2' n2 H2' a) by (by apply Hd).
    + rewrite (Hnone k1 n1 H1 a), (Hnone k1' n1 H1' a) in Hl by done.
      by destruct (k2 !! a), (k2' !! a).
Qed.

Lemma NoDup_join (n1 n2 : list string) l1 l2 :
  (forall k a, k ∈ l1 -> is_Some (k !! a) -> a ∈ n1) ->
  (forall k a, k ∈ l2 -> is_Some (k !! a) -> a ∈ n2) ->
  (forall a, a ∈ n1 -> a ∉ n2) ->
  NoDup l1 -> NoDup l2 -> NoDup (join l1 l2).
Proof.
  intros H1 H2 Hd Hn1 Hn2. unfold join. apply NoDup_bind; [| |done].
  - intros x1 x2 y Hx1 Hx2 Hy1 Hy2.
    apply list_elem_of_omap in Hy1 as (y1 & Hy1 & Hj1).
    apply list_elem_of_omap in Hy2 as (y2 & Hy2 & Hj2).
    unfold join_rows in Hj1, Hj2. repeat case_decide; try done.
    injection Hj1 as <-. injection Hj2 as Heq.
    symmetry in Heq.
    by destruct (union_disjoint_inj n1 n2 x1 y1 x2 y2) as [? ?]; eauto.
  - intros x Hx. clear Hn1.
    induction Hn2 as [|y l Hy Hl IH]; csimpl; [constructor|].
    assert (NoDup (omap (join_rows x) l)) as IH'.
    { apply IH. intros k a Hk. apply H2. by apply list_elem_of_further. }
    unfold join_rows at 1. case_decide; [|done]. simpl.
    constructor; [|done]. intros Hin.
    apply list_elem_of_omap in Hin as (y' & Hy' & Hj).
    unfold join_rows in Hj. case_decide; [|done]. injection Hj as Heq.
    apply Hy.
    destruct (union_disjoint_inj n1 n2 x y' x y) as [_ ->]; eauto using list_elem_of_here,
      list_elem_of_further.
Qed.

Lemma keys_of_dom d t k a : k ∈ keys_of d t -> is_Some (k !! a) -> a ∈ pk t.
Proof.
  unfold keys_of. intros Hk [v Hv]. apply list_elem_of_fmap in Hk as (r & -> & _).
  destruct (decide (a ∈ pk t)) as [|Hn]; [done|].
  by rewrite proj_lookup_None in Hv.
Qed.

Lemma pk_AverageFrame_SegmentationParam a :
  a ∈ pk AverageFrame -> a ∉ pk SegmentationParam.
Proof. intros H. unfold pk, Session_pk in H. simpl in H. elem_cases H; compute_done. Qed.

Lemma key_source_Segmentation d :
  key_source Segmentation d = join (keys_of d AverageFrame) (keys_of d SegmentationParam).
Proof. reflexivity. Qed.

Lemma Segmentation_make_calls ndimage_label k X :
  invariant (fun w => calls w = X) (Segmentation_make ndimage_label k).
Proof.
  unfold Segmentation_make.
  do 5 (apply invariant_bind; [auto with frame|intros ?]).
  destruct (ndimage_label _) as [label_im nb].
  do 3 (apply invariant_bind; [auto with frame|intros ?]).
  apply invariant_bind; [auto with frame|intros ?].
  apply invariant_bind; [auto with frame|intros ?].
  unfold insert. auto with frame.
Qed.

(** C2: each call of [Segmentation.populate()] enumerates the keys of the
    join of its two parents' primary keys (every [AverageFrame] key with
    every [SegmentationParam] key) that have no row in [Segmentation], each
    once, and invokes [make] for keys among them only, for all of them when
    it returns.  With [SegmentationParam] empty there is no such key: the
    call invokes [make] for none, returns and changes nothing. *)
Theorem populate_Segmentation_join ndimage_label w w' res :
  NoDup (keys_of (db w) AverageFrame) ->
  NoDup (keys_of (db w) SegmentationParam) ->
  populate Segmentation (Some (Segmentation_make ndimage_label)) w = (w', res) ->
  (forall k, k ∈ to_do Segmentation (db w)
             <-> (exists ka kp, ka ∈ keys_of (db w) AverageFrame
                                /\ kp ∈ keys_of (db w) SegmentationParam
                                /\ k = ka ∪ kp)
                 /\ ~ present (db w Segmentation) k)
  /\ NoDup (to_do Segmentation (db w))
  /\ (exists invoked,
        calls w' = calls w ++ map (pair Segmentation) invoked
        /\ invoked `prefix_of` to_do Segmentation (db w)
        /\ (res = inr tt -> invoked = to_do Segmentation (db w)))
  /\ (db w SegmentationParam = [] -> w' = w /\ res = inr tt).
Proof.
  intros Hn1 Hn2 Hrun.
  split.
  { intros k. unfold to_do. rewrite list_elem_of_filter, key_source_Segmentation, elem_of_join.
    split.
    - intros [Hnp (ka & kp & Ha & Hp & _ & ->)]. eauto 6.
    - intros [(ka & kp & Ha & Hp & ->) Hnp]. split; [done|].
      exists ka, kp. repeat (split; [done|]). split; [|done].
      apply (matches_disjoint (pk AverageFrame) (pk SegmentationParam));
        eauto using keys_of_dom, pk_AverageFrame_SegmentationParam. }
  split.
  { apply NoDup_filter. rewrite key_source_Segmentation.
    apply (NoDup_join (pk AverageFrame) (pk SegmentationParam));
      eauto using keys_of_dom, pk_AverageFrame_SegmentationParam. }
  split.
  { apply (populate_calls Segmentation (Some (Segmentation_make ndimage_label)) w w' res);
      [|exact Hrun]. intros k X. apply Segmentation_make_calls. }
  intros Hempty.
  rewrite populate_nothing_to_do in Hrun.
  - by injection Hrun as <- <-.
  - unfold to_do. rewrite key_source_Segmentation. unfold keys_of at 2.
    by rewrite Hempty, join_nil_r.
Qed.

Lemma populate_Segmentation_join_witness :
  let w0 := (populate AverageFrame (Some AverageFrame_make) imaging_world).1 in
  let w1 := (populate Segmentation (Some (Segmentation_make label4)) segmentation_world).1 in
  (db w0 SegmentationParam = []
   /\ populate Segmentation (Some (Segmentation_make label4)) w0 = (w0, inr tt))
  /\ (populate Segmentation (Some (Segmentation_make label4)) segmentation_world
      = (w1, inr tt)
      /\ length (to_do Segmentation (db segmentation_world)) = 2%nat
      /\ NoDup (to_do Segmentation (db segmentation_world))
      /\ calls w1 = calls segmentation_world
                    ++ map (pair Segmentation) (to_do Segmentation (db segmentation_world))).
Proof.
  intros w0 w1. split.
  - assert (db w0 SegmentationParam = []) as He by compute_done.
    split; [exact He|].
    destruct (populate Segmentation (Some (Segmentation_make label4)) w0) as [w' res] eqn:Hrun.
    destruct (populate_Segmentation_join label4 w0 w' res) as (_ & _ & _ & Hnone);
      [compute_done|compute_done|exact Hrun|].
    destruct (Hnone He) as [-> ->]. reflexivity.
  - assert (populate Segmentation (Some (Segmentation_make label4)) segmentation_world
            = (w1, inr tt)) as Hrun.
    { assert ((populate Segmentation (Some (Segmentation_make label4))
                 segmentation_world).2 = inr tt) as Hres by compute_done.
      subst w1. rewrite <- Hres. apply surjective_pairing. }
    destruct (populate_Segmentation_join label4 segmentation_world w1 (inr tt))
      as (_ & Hnd & (invoked & Hcalls & _ & Hall) & _);
      [compute_done|compute_done|exact Hrun|].
    rewrite (Hall eq_refl) in Hcalls.
    split; [exact Hrun|]. split; [compute_done|]. split; [exact Hnd|exact Hcalls].
Defined.

(** ** A class without [make] *)

Lemma for_each_print_make t l : forall w,
  exists w',
    for_each l (fun key => note_call t key;; invoke (Some AverageFrame_make_print) key) w
    = (w', inr tt)
    /\ db w' = db w
    /\ stdout w' = stdout w ++ map (KeyLine "key is") l.
Proof.
  induction l as [|k l IH]; intros w.
  - exists w. simpl. by rewrite app_nil_r.
  - simpl. rewrite (bind_ok _ _ _ _ _ eq_refl).
    match goal with |- context [for_each l ?f ?w1] =>
      destruct (IH w1) as (w' & Hrun & Hdb & Hout) end.
    exists w'. split; [exact Hrun|]. split; [exact Hdb|].
    rewrite Hout. simpl. by rewrite <- app_assoc.
Qed.

(** C3, as amended: when at least one key is to do, [populate] on a class
    without [make] raises [NotImplementedError] and leaves every table as it
    was; with [make] defined as the notebook's next cell defines it (it
    prints its key) the same call returns, having printed each key to do
    and written to no table. *)
Theorem populate_needs_make t w :
  to_do t (db w) <> [] ->
  (exists w', populate t None w = (w', inl NotImplementedError) /\ db w' = db w)
  /\ (exists w', populate t (Some AverageFrame_make_print) w = (w', inr tt)
                 /\ db w' = db w
                 /\ stdout w' = stdout w ++ map (KeyLine "key is") (to_do t (db w))).
Proof.
  intros Hne. split.
  - rewrite populate_unfold. destruct (to_do t (db w)) as [|k l]; [done|].
    eexists. simpl. split; reflexivity.
  - rewrite populate_unfold. apply for_each_print_make.
Qed.

Lemma populate_needs_make_witness :
  (exists w', populate AverageFrame None imaging_world = (w', inl NotImplementedError)
              /\ db w' = db imaging_world)
  /\ (exists w', populate AverageFrame (Some AverageFrame_make_print) imaging_world
                 = (w', inr tt)
                 /\ db w' = db imaging_world
                 /\ stdout w'
                    = stdout imaging_world
                      ++ map (KeyLine "key is") (to_do AverageFrame (db imaging_world))).
Proof.
  apply (populate_needs_make AverageFrame imaging_world). compute_done.
Defined.

(** With nothing to do, here after [AverageFrame] has been populated, a
    class without [make] populates without an error. *)
Lemma populate_without_make_returns :
  to_do AverageFrame
    (db (populate AverageFrame (Some AverageFrame_make) imaging_world).1) = []
  /\ populate AverageFrame None
       (populate AverageFrame (Some AverageFrame_make) imaging_world).1
     = ((populate AverageFrame (Some AverageFrame_make) imaging_world).1, inr tt).
Proof.
  assert (to_do AverageFrame
            (db (populate AverageFrame (Some AverageFrame_make) imaging_world).1) = [])
    as H by compute_done.
  split; [exact H|]. by apply populate_nothing_to_do.
Qed.

(** ** Cascading deletes *)

Lemma doomed_zero d tg re t r :
  doomed 0 d tg re t r = true <-> t = tg /\ re r = true.
Proof.
  simpl. rewrite orb_false_r, andb_true_iff, bool_decide_eq_true. done.
Qed.

Lemma doomed_succ f d tg re t r :
  doomed (S f) d tg re t r = true
  <-> (t = tg /\ re r = true)
      \/ exists p pr, p ∈ parents t /\ pr ∈ d p /\ agree_on (pk p) r pr
                      /\ doomed f d tg re p pr = true.
Proof.
  simpl. rewrite orb_true_iff, andb_true_iff, bool_decide_eq_true, existsb_exists.
  split; (intros [H|H]; [by left|right]).
  - destruct H as (p & Hp & H). apply existsb_exists in H as (pr & Hpr & H).
    apply andb_true_iff in H as [Hag Hd]. apply bool_decide_eq_true in Hag.
    exists p, pr. by rewrite <- !list_elem_of_In in *.
  - destruct H as (p & pr & Hp & Hpr & Hag & Hd).
    exists p. split; [by apply list_elem_of_In|].
    apply existsb_exists. exists pr. split; [by apply list_elem_of_In|].
    by rewrite andb_true_iff, bool_decide_eq_true.
Qed.

Lemma doomed_mono f d tg re : forall t r,
  doomed f d tg re t r = true -> doomed (S f) d tg re t r = true.
Proof.
  induction f as [|f IH]; intros t r H.
  - apply doomed_succ. left. by apply doomed_zero in H.
  - apply doomed_succ. apply doomed_succ in H as [H|(p & pr & Hp & Hpr & Hag & H)];
      [by left|right]. exists p, pr. eauto.
Qed.

Lemma doomed_mono_le f f' d tg re t r :
  (f <= f')%nat -> doomed f d tg re t r = true -> doomed f' d tg re t r = true.
Proof. induction 1 as [|f' Hle IH]; [done|]. intros Hd. by apply doomed_mono, IH. Qed.

Lemma parents_depth t p : p ∈ parents t -> (depth p < depth t)%nat.
Proof. destruct t; simpl; intros H; elem_cases H; simpl; lia. Qed.

Lemma doomed_saturates f d tg re : forall t r,
  (depth t <= f)%nat ->
  doomed (S f) d tg re t r = true -> doomed f d tg re t r = true.
Proof.
  induction f as [|f IH]; intros t r Hd H.
  - apply doomed_zero. apply doomed_succ in H as [H|(p & pr & Hp & _)]; [done|].
    apply parents_depth in Hp. lia.
  - apply doomed_succ. apply doomed_succ in H as [H|(p & pr & Hp & Hpr & Hag & H)];
      [by left|right]. exists p, pr. repeat (split; [done|]).
    apply IH; [|done]. apply parents_depth in Hp. lia.
Qed.

Lemma depth_bound t : (depth t <= length all_tables)%nat.
Proof. destruct t; simpl; lia. Qed.

Lemma elem_of_after_delete d tg re t r :
  r ∈ after_delete d tg re t
  <-> r ∈ d t /\ doomed (length all_tables) d tg re t r = false.
Proof. unfold after_delete. rewrite list_elem_of_filter. tauto. Qed.

Lemma after_delete_ref_integrity d tg re :
  ref_integrity d -> ref_integrity (after_delete d tg re).
Proof.
  intros Hri t r Hr. apply elem_of_after_delete in Hr as [Hr Hnd].
  unfold parents_present. apply Forall_forall. intros p Hp.
  pose proof (Hri t r Hr) as Hpar. unfold parents_present in Hpar.
  rewrite Forall_forall in Hpar. specialize (Hpar p Hp).
  unfold has_key in *. apply Exists_exists in Hpar as (pr & Hpr & Hag).
  apply Exists_exists. exists pr. split; [|done].
  apply elem_of_after_delete. split; [done|].
  destruct (doomed (length all_tables) d tg re p pr) eqn:E; [|done].
  exfalso. assert (doomed (length all_tables) d tg re t r = true) as Ht; [|congruence].
  apply doomed_saturates; [apply depth_bound|].
  apply doomed_succ. right. eauto 6.
Qed.

Lemma delete_ref_integrity t restr confirm :
  invariant (fun w => ref_integrity (db w)) (delete t restr confirm).
Proof.
  intros w H. unfold delete. destruct confirm; [|done]. simpl.
  by apply after_delete_ref_integrity.
Qed.

(** A row that references a doomed row is doomed. *)
Lemma doomed_child f d tg re t r p (a : string) v :
  ref_integrity d -> r ∈ d t -> p ∈ parents t -> a ∈ pk p -> r !! a = Some v ->
  (forall pr, pr ∈ d p -> pr !! a = Some v -> doomed f d tg re p pr = true) ->
  doomed (S f) d tg re t r = true.
Proof.
  intros Hri Hr Hp Ha Hv Hrec.
  pose proof (Hri t r Hr) as Hpar. unfold parents_present in Hpar.
  rewrite Forall_forall in Hpar. specialize (Hpar p Hp).
  apply Exists_exists in Hpar as (pr & Hpr & Hag).
  apply doomed_succ. right. exists p, pr. repeat (split; [done|]).
  apply Hrec; [done|].
  unfold agree_on in Hag. rewrite Forall_forall in Hag.
  destruct (Hag a Ha) as [_ Heq]. by rewrite <- Heq.
Qed.

Lemma seg_param_rows_doomed d n t r :
  ref_integrity d ->
  t ∈ [SegmentationParam; Segmentation; Roi; Fluorescence; Trace] ->
  r ∈ d t -> r !! "seg_param_id" = Some (VInt n) ->
  doomed (length all_tables) d SegmentationParam (seg_param_id_is n) t r = true.
Proof.
  intros Hri Ht Hr Hv.
  assert (forall r, r ∈ d SegmentationParam -> r !! "seg_param_id" = Some (VInt n) ->
            doomed 0 d SegmentationParam (seg_param_id_is n) SegmentationParam r = true)
    as H0.
  { intros r0 _ Hv0. apply doomed_zero. split; [done|].
    unfold seg_param_id_is. by apply bool_decide_eq_true. }
  assert (forall r, r ∈ d Segmentation -> r !! "seg_param_id" = Some (VInt n) ->
            doomed 1 d SegmentationParam (seg_param_id_is n) Segmentation r = true)
    as H1.
  { intros r0 Hr0 Hv0.
    apply (doomed_child 0 d _ _ Segmentation r0 SegmentationParam "seg_param_id" (VInt n));
      try done; compute_done. }
  assert (forall r, r ∈ d Roi -> r !! "seg_param_id" = Some (VInt n) ->
            doomed 2 d SegmentationParam (seg_param_id_is n) Roi r = true)
    as H2.
  { intros r0 Hr0 Hv0.
    apply (doomed_child 1 d _ _ Roi r0 Segmentation "seg_param_id" (VInt n));
      try done; compute_done. }
  assert (forall r, r ∈ d Fluorescence -> r !! "seg_param_id" = Some (VInt n) ->
            doomed 2 d SegmentationParam (seg_param_id_is n) Fluorescence r = true)
    as H3.
  { intros r0 Hr0 Hv0.
    apply (doomed_child 1 d _ _ Fluorescence r0 Segmentation "seg_param_id" (VInt n));
      try done; compute_done. }
  assert (forall r, r ∈ d Trace -> r !! "seg_param_id" = Some (VInt n) ->
            doomed 3 d SegmentationParam (seg_param_id_is n) Trace r = true)
    as H4.
  { intros r0 Hr0 Hv0.
    apply (doomed_child 2 d _ _ Trace r0 Fluorescence "seg_param_id" (VInt n));
      try done; compute_done. }
  elem_cases Ht.
  - apply (doomed_mono_le 0); [simpl; lia|by apply H0].
  - apply (doomed_mono_le 1); [simpl; lia|by apply H1].
  - apply (doomed_mono_le 2); [simpl; lia|by apply H2].
  - apply (doomed_mono_le 2); [simpl; lia|by apply H3].
  - apply (doomed_mono_le 3); [simpl; lia|by apply H4].
Qed.

(** ** Referential integrity under writes *)

Lemma insert1_ref_integrity t r :
  invariant (fun w => ref_integrity (db w)) (insert1 t r).
Proof.
  intros w Hri.
  destruct (insert1_cases t r w) as [[-> Hpar]|[e ->]]; [|done]. simpl.
  assert (forall p r', has_key (db w p) (pk p) r' ->
                       has_key (set_table (db w) t (db w t ++ [r]) p) (pk p) r') as Hmono.
  { intros p r' H. unfold set_table. case_decide as Heq; [|done].
    rewrite Heq in H |- *. by apply has_key_app_l. }
  intros t0 r0 Hr0. unfold parents_present. apply Forall_forall. intros p Hp.
  apply Hmono. unfold set_table in Hr0. case_decide as Heq.
  - subst t0. apply elem_of_app in Hr0 as [Hr0|Hr0].
    + pose proof (Hri t r0 Hr0) as H. unfold parents_present in H.
      rewrite Forall_forall in H. by apply H.
    + apply list_elem_of_singleton in Hr0 as ->.
      unfold parents_present in Hpar. rewrite Forall_forall in Hpar. by apply Hpar.
  - pose proof (Hri t0 r0 Hr0) as H. unfold parents_present in H.
    rewrite Forall_forall in H. by apply H.
Qed.

Lemma keeps_store_invariant (P : DB -> Prop) {A} (m : M A) :
  keeps_store m -> invariant (fun w => P (db w)) m.
Proof. intros Hk w HP. destruct (Hk w) as [_ ->]. done. Qed.

Lemma insert_ref_integrity t rows :
  invariant (fun w => ref_integrity (db w)) (insert t rows).
Proof. unfold insert. apply invariant_for_each. intros r. apply insert1_ref_integrity. Qed.

Ltac ri_step :=
  apply invariant_bind;
  [first [apply insert1_ref_integrity | apply insert_ref_integrity
         | apply (keeps_store_invariant ref_integrity); solve_keeps]
  |intros ?].

Lemma AverageFrame_make_ref_integrity k :
  invariant (fun w => ref_integrity (db w)) (AverageFrame_make k).
Proof.
  unfold AverageFrame_make. do 7 ri_step.
  apply (keeps_store_invariant ref_integrity). solve_keeps.
Qed.

Lemma Segmentation_make_ref_integrity ndimage_label k :
  invariant (fun w => ref_integrity (db w)) (Segmentation_make ndimage_label k).
Proof.
  unfold Segmentation_make. do 5 ri_step.
  destruct (ndimage_label _) as [label_im nb]. do 5 ri_step.
  apply insert_ref_integrity.
Qed.

Lemma Fluorescence_make_ref_integrity k :
  invariant (fun w => ref_integrity (db w)) (Fluorescence_make k).
Proof.
  unfold Fluorescence_make. do 4 ri_step.
  match goal with [ arr : ndarray |- _ ] => destruct arr as [page|im] end;
    [by intros w|].
  destruct (np_shape3 _) as [[n wd] ht]. do 5 ri_step.
  apply insert_ref_integrity.
Qed.

Lemma keeps_store_np_load p : keeps_store (np_load p).
Proof.
  apply keeps_store_bind; [apply keeps_store_open_file|].
  intros []; by apply keeps_store_unchanged.
Qed.

Lemma Neuron_make_loop_ref_integrity items : forall idx key,
  invariant (fun w => ref_integrity (db w)) (Neuron_make_loop items idx key).
Proof.
  induction items as [|d items IH]; intros idx key; simpl.
  - by intros w.
  - do 5 ri_step. apply IH.
Qed.

Lemma Neuron_make_ref_integrity data_dir k :
  invariant (fun w => ref_integrity (db w)) (Neuron_make data_dir k).
Proof.
  unfold Neuron_make.
  apply invariant_bind.
  { apply (keeps_store_invariant ref_integrity), keeps_store_unchanged.
    unfold data_file_of. destruct (k !! "data_dir"); auto with frame. }
  intros p. apply invariant_bind;
    [apply (keeps_store_invariant ref_integrity), keeps_store_np_load|].
  intros a. ri_step. apply Neuron_make_loop_ref_integrity.
Qed.

Lemma populate_ref_integrity t make :
  (forall k, invariant (fun w => ref_integrity (db w)) (make k)) ->
  invariant (fun w => ref_integrity (db w)) (populate t (Some make)).
Proof.
  intros Hmk w Hri. rewrite populate_unfold.
  apply invariant_for_each; [|done]. intros k.
  apply invariant_bind; [by intros w0|]. intros []. apply Hmk.
Qed.

(** C4: in a store where every row references an existing row in each
    parent, [(SegmentationParam & 'seg_param_id = 0').delete()], confirmed,
    leaves no row with [seg_param_id = 0] in [SegmentationParam],
    [Segmentation], [Roi], [Fluorescence] or [Trace]; and after any
    [delete] (confirmed or declined), [insert1], [insert], and after
    [populate] of each of the four tables with its [make], every row still
    references an existing row in each parent. *)
Theorem delete_cascades_and_keeps_integrity w :
  ref_integrity (db w) ->
  (forall t r,
     t ∈ [SegmentationParam; Segmentation; Roi; Fluorescence; Trace] ->
     r ∈ db (delete SegmentationParam (seg_param_id_is 0) true w).1 t ->
     r !! "seg_param_id" <> Some (VInt 0))
  /\ (forall t restr confirm, ref_integrity (db (delete t restr confirm w).1))
  /\ (forall t r, ref_integrity (db (insert1 t r w).1))
  /\ (forall t rows, ref_integrity (db (insert t rows w).1))
  /\ (forall ndimage_label data_dir,
        ref_integrity (db (populate AverageFrame (Some AverageFrame_make) w).1)
        /\ ref_integrity
             (db (populate Segmentation (Some (Segmentation_make ndimage_label)) w).1)
        /\ ref_integrity (db (populate Fluorescence (Some Fluorescence_make) w).1)
        /\ ref_integrity (db (populate Neuron (Some (Neuron_make data_dir)) w).1)).
Proof.
  intros Hri. split.
  { intros t r Ht Hr Hv. simpl in Hr.
    apply elem_of_after_delete in Hr as [Hr Hnd].
    by rewrite (seg_param_rows_doomed (db w) 0 t r) in Hnd. }
  split; [intros t restr confirm; by apply delete_ref_integrity|].
  split; [intros t r; by apply insert1_ref_integrity|].
  split; [intros t rows; by apply insert_ref_integrity|].
  intros ndimage_label data_dir.
  split; [apply populate_ref_integrity; [apply AverageFrame_make_ref_integrity|done]|].
  split; [apply populate_ref_integrity; [apply Segmentation_make_ref_integrity|done]|].
  split; [apply populate_ref_integrity; [apply Fluorescence_make_ref_integrity|done]|].
  apply populate_ref_integrity; [apply Neuron_make_ref_integrity|done].
Qed.

Lemma ref_integrity_check d :
  Forall (fun t => Forall (parents_present d t) (d t)) all_tables -> ref_integrity d.
Proof.
  intros H t r Hr. rewrite Forall_forall in H.
  assert (t ∈ all_tables) as Ht by (destruct t; compute_done).
  specialize (H t Ht). rewrite Forall_forall in H. by apply H.
Qed.

Lemma pipeline_world_ref_integrity : ref_integrity (db pipeline_world).
Proof. apply ref_integrity_check. compute_done. Qed.

Lemma delete_cascades_and_keeps_integrity_witness :
  length (db pipeline_world Trace) = 1%nat
  /\ (forall t r,
        t ∈ [SegmentationParam; Segmentation; Roi; Fluorescence; Trace] ->
        r ∈ db (delete SegmentationParam (seg_param_id_is 0) true pipeline_world).1 t ->
        r !! "seg_param_id" <> Some (VInt 0))
  /\ ref_integrity (db (delete SegmentationParam (seg_param_id_is 0) true pipeline_world).1).
Proof.
  destruct (delete_cascades_and_keeps_integrity pipeline_world pipeline_world_ref_integrity)
    as (Hgone & Hdel & _).
  split; [compute_done|]. split; [exact Hgone|]. apply Hdel.
Defined.

(** * Further properties of the notebooks' code *)

(** ** When the size filter can run *)

Lemma mapM_None_elem {A B} (f : A -> option B) l x :
  x ∈ l -> f x = None -> mapM f l = None.
Proof.
  intros Hx Hf. induction l as [|y l IH]; [by apply elem_of_nil in Hx|].
  simpl. apply elem_of_cons in Hx as [->|Hx].
  - by rewrite Hf.
  - rewrite (IH Hx). by destruct (f y).
Qed.

(** A strictly ascending list of [n] integers from [lo .. lo + n - 1] is
    that range. *)
Lemma sorted_lt_range u : forall lo,
  StronglySorted Z.lt u ->
  (forall x, x ∈ u -> lo <= x < lo + Z.of_nat (length u)) ->
  u = seqZ lo (Z.of_nat (length u)).
Proof.
  induction u as [|h t IH]; intros lo Hs Hb; [done|].
  apply StronglySorted_inv in Hs as [Hs Hh]. rewrite Forall_forall in Hh.
  simpl length in *. rewrite Nat2Z.inj_succ in *.
  rewrite seqZ_cons by lia.
  replace (Z.pred (Z.succ (Z.of_nat (length t)))) with (Z.of_nat (length t)) by lia.
  assert (t = seqZ (Z.succ lo) (Z.of_nat (length t))) as Ht.
  { apply IH; [done|]. intros x Hx.
    specialize (Hh x Hx). pose proof (Hb h (list_elem_of_here _ _)).
    pose proof (Hb x (list_elem_of_further _ _ _ Hx)). lia. }
  f_equal; [|exact Ht].
  pose proof (Hb h (list_elem_of_here _ _)) as Hbh.
  destruct t as [|x t'].
  - simpl in Hbh. lia.
  - rewrite Ht in Hh. simpl length in Hh. rewrite Nat2Z.inj_succ, seqZ_cons in Hh by lia.
    specialize (Hh (Z.succ lo) (list_elem_of_here _ _)). lia.
Qed.

Lemma size_filter_consecutive label_im size_cutoff w :
  np_unique label_im = seqZ 0 (Z.of_nat (length (np_unique label_im))) ->
  size_filter label_im size_cutoff w
  = (w, inr (map (map (keep_large label_im size_cutoff)) label_im)).
Proof.
  intros Hu. unfold size_filter.
  erewrite bind_ok; cycle 1.
  { unfold fancy_index.
    rewrite (mapM_map_Some _
               (map (fun v => Qltb (inject_Z (count_eq label_im v)) size_cutoff))).
    - reflexivity.
    - intros r Hr. apply mapM_map_Some. intros v Hv.
      assert (v ∈ np_unique label_im) as Hin
        by (apply elem_of_np_unique; by eapply elem_of_concat_row).
      rewrite Hu in Hin. apply elem_of_seqZ in Hin.
      unfold np_index. rewrite !length_map.
      rewrite decide_True by lia.
      rewrite !list_lookup_fmap, Hu, lookup_seqZ_lt by lia. simpl.
      by replace (0 + Z.of_nat (Z.to_nat v)) with v by lia. }
  unfold ret. by rewrite zero_where_map.
Qed.

Lemma size_filter_gap label_im size_cutoff w :
  (forall v, v ∈ concat label_im -> 0 <= v) ->
  np_unique label_im <> seqZ 0 (Z.of_nat (length (np_unique label_im))) ->
  size_filter label_im size_cutoff w = (w, inl IndexError).
Proof.
  intros Hpos Hu. unfold size_filter.
  set (n := Z.of_nat (length (np_unique label_im))).
  assert (exists x, x ∈ concat label_im /\ n <= x) as (x & Hx & Hge).
  { destruct (decide (Forall (fun x => x < n) (np_unique label_im))) as [Hall|Hex].
    - exfalso. apply Hu. apply sorted_lt_range; [apply np_unique_sorted|].
      intros x Hx. rewrite Forall_forall in Hall. specialize (Hall x Hx).
      apply elem_of_np_unique, Hpos in Hx. unfold n in Hall. lia.
    - apply not_Forall_Exists in Hex; [|apply _].
      apply Exists_exists in Hex as (x & Hx & Hnlt).
      exists x. split; [by apply elem_of_np_unique|]. simpl in Hnlt. lia. }
  apply elem_of_concat in Hx as (r & Hr & Hxr).
  erewrite bind_err; [reflexivity|].
  unfold fancy_index.
  rewrite (mapM_None_elem _ _ r Hr); [reflexivity|].
  apply (mapM_None_elem _ _ x Hxr).
  unfold np_index. rewrite !length_map. fold n.
  rewrite decide_False by lia. rewrite decide_False; [done|].
  pose proof (Hpos x (elem_of_concat_row _ _ _ Hr Hxr)). lia.
Qed.

Lemma consecutive_iff label_im :
  (forall v, v ∈ concat label_im -> 0 <= v) ->
  np_unique label_im = seqZ 0 (Z.of_nat (length (np_unique label_im)))
  <-> (forall v k, v ∈ concat label_im -> 0 <= k <= v -> k ∈ concat label_im).
Proof.
  intros Hpos. split.
  - intros Hu v k Hv Hk. apply elem_of_np_unique. rewrite Hu.
    apply elem_of_np_unique in Hv. rewrite Hu in Hv.
    apply elem_of_seqZ in Hv. apply elem_of_seqZ. lia.
  - intros Hc. apply sorted_lt_range; [apply np_unique_sorted|].
    intros x Hx. split; [by apply Hpos, elem_of_np_unique|].
    assert (seqZ 0 (x + 1) ⊆ np_unique label_im) as Hsub.
    { intros k Hk. apply elem_of_seqZ in Hk. apply elem_of_np_unique.
      apply (Hc x k); [by apply elem_of_np_unique|lia]. }
    assert (length (seqZ 0 (x + 1)) <= length (np_unique label_im))%nat as Hlen.
    { apply submseteq_length, NoDup_submseteq; [apply NoDup_seqZ|done]. }
    rewrite length_seqZ in Hlen.
    apply elem_of_np_unique, Hpos in Hx. lia.
Qed.

Lemma size_filter_missing label_im size_cutoff w v k :
  (forall v, v ∈ concat label_im -> 0 <= v) ->
  v ∈ concat label_im -> 0 <= k <= v -> k ∉ concat label_im ->
  size_filter label_im size_cutoff w = (w, inl IndexError).
Proof.
  intros Hpos Hv Hk Hnk. apply size_filter_gap; [done|].
  intros Hu. apply Hnk. by apply (proj1 (consecutive_iff label_im Hpos) Hu v k).
Qed.

(** X1: on a label image with no negative label, the size filter of the
    notebook and of [Segmentation.make] returns exactly when every number
    from [0] up to a label that occurs occurs too; it then sets to [0] the
    labels carried by fewer than [size_cutoff] samples and keeps the others.
    When a number below a label that occurs is missing, the filter raises
    [IndexError]. *)
Theorem size_filter_returns_iff label_im size_cutoff w :
  (forall v, v ∈ concat label_im -> 0 <= v) ->
  ((forall v k, v ∈ concat label_im -> 0 <= k <= v -> k ∈ concat label_im) ->
   size_filter label_im size_cutoff w
   = (w, inr (map (map (fun v => if Qltb (inject_Z (count_eq label_im v)) size_cutoff
                                 then 0 else v)) label_im)))
  /\ (forall v k, v ∈ concat label_im -> 0 <= k <= v -> k ∉ concat label_im ->
        size_filter label_im size_cutoff w = (w, inl IndexError)).
Proof.
  intros Hpos. split.
  - intros Hc. apply size_filter_consecutive. by apply consecutive_iff.
  - intros v k Hv Hk Hnk. by apply (size_filter_missing _ _ _ v k).
Qed.

Lemma size_filter_returns_iff_witness :
  size_filter [[0; 1; 1]; [0; 2; 2]] (inject_Z 2) imaging_world
  = (imaging_world, inr [[0; 1; 1]; [0; 2; 2]])
  /\ size_filter [[0; 1; 1]; [0; 3; 3]] (inject_Z 2) imaging_world
     = (imaging_world, inl IndexError).
Proof.
  destruct (size_filter_returns_iff [[0; 1; 1]; [0; 2; 2]] (inject_Z 2) imaging_world)
    as [H1 _]; [apply Forall_forall; compute_done|].
  destruct (size_filter_returns_iff [[0; 1; 1]; [0; 3; 3]] (inject_Z 2) imaging_world)
    as [_ H2]; [apply Forall_forall; compute_done|].
  split.
  - apply H1. intros v k Hv Hk.
    assert (Forall (fun v => Forall (fun k => k ∈ [0; 1; 1; 0; 2; 2]) (seqZ 0 (v + 1)))
                   [0; 1; 1; 0; 2; 2]) as Hall by compute_done.
    rewrite Forall_forall in Hall. specialize (Hall v Hv).
    rewrite Forall_forall in Hall. apply Hall, elem_of_seqZ. lia.
  - apply (H2 3 2); [compute_done|lia|compute_done].
Defined.

(** ** [Segmentation.make] on an image without background *)

(** X2: when the labelling routine gives a label image that has samples but
    none labelled [0] (every sample of the average frame is above the
    threshold, so there is no background), [Segmentation.make] raises
    [IndexError] in its size filter: the sizes are counted per label that
    occurs but looked up by label value.  Nothing is written to any table;
    only the line [Populating for: key] has been printed. *)
Theorem Segmentation_make_no_background ndimage_label key w ra avg rp vt vc
    threshold size_cutoff label_im nb :
  restrict (db w AverageFrame) key = [ra] -> ra !! "average_frame" = Some (VImage avg) ->
  restrict (db w SegmentationParam) key = [rp] ->
  rp !! "threshold" = Some vt -> float_of vt = Some threshold ->
  rp !! "size_cutoff" = Some vc -> float_of vc = Some size_cutoff ->
  ndimage_label (img_gt avg threshold) = (label_im, nb) ->
  (forall v, v ∈ concat label_im -> 1 <= v) ->
  concat label_im <> [] ->
  exists w',
    Segmentation_make ndimage_label key w = (w', inl IndexError)
    /\ db w' = db w /\ journal w' = journal w
    /\ stdout w' = stdout w ++ [KeyLine "Populating for: " key].
Proof.
  intros Hra Havg Hrp Hvt Hth Hvc Hsc Hlab Hfg Hne.
  unfold Segmentation_make.
  rewrite (bind_ok _ _ _ _ _ eq_refl).
  set (wp := World _ _ _ _ _ _).
  erewrite bind_ok; cycle 1.
  { rewrite (bind_ok _ _ _ _ _ (fetch1_ok _ _ _ wp _ _ Hra Havg)). reflexivity. }
  erewrite bind_ok; [|unfold fetch1_row; change (db wp) with (db w); rewrite Hrp; reflexivity].
  erewrite bind_ok; cycle 1.
  { unfold attr. rewrite Hvt. unfold bind, ret. by apply as_float_ok. }
  erewrite bind_ok; cycle 1.
  { unfold attr. rewrite Hvc. unfold bind, ret. by apply as_float_ok. }
  cbn [fst snd mask_value labels_value].
  rewrite Hlab.
  assert (exists v, v ∈ concat label_im) as [v Hv].
  { destruct (concat label_im) as [|v rest]; [done|]. exists v. apply list_elem_of_here. }
  erewrite bind_err; cycle 1.
  { apply (size_filter_missing _ _ _ v 0).
    - intros x Hx. specialize (Hfg x Hx). lia.
    - done.
    - specialize (Hfg v Hv). lia.
    - intros H0. specialize (Hfg 0 H0). lia. }
  exists wp. done.
Qed.

Lemma Segmentation_make_no_background_witness :
  let w := (insert1 SegmentationParam
              (<["seg_param_id" := VInt 1]> (<["threshold" := VInt (-1)]>
               (<["size_cutoff" := VInt 50]> ∅)))
              (populate AverageFrame (Some AverageFrame_make) imaging_world).1).1 in
  let key := Segmentation_key 0 "2017-05-15" 1 1 in
  exists w',
    Segmentation_make (fun mask => (map (map (fun b : bool => if b then 1 else 0)) mask,
                                    if decide (true ∈ concat mask) then 1 else 0))
                      key w
    = (w', inl IndexError)
    /\ db w' = db w /\ journal w' = journal w
    /\ stdout w' = stdout w ++ [KeyLine "Populating for: " key].
Proof.
  intros w key.
  set (lab := fun mask : list (list bool) =>
                (map (map (fun b : bool => if b then 1 else 0)) mask,
                 if decide (true ∈ concat mask) then 1 else 0)).
  set (avg := np_mean_axis0 [example_frame 60; example_frame 80]).
  eapply (Segmentation_make_no_background lab key w
            (default ∅ (head (restrict (db w AverageFrame) key))) avg
            (default ∅ (head (restrict (db w SegmentationParam) key)))
            (VInt (-1)) (VInt 50) (inject_Z (-1)) (inject_Z 50)).
  - compute_done.
  - compute_done.
  - compute_done.
  - compute_done.
  - reflexivity.
  - compute_done.
  - reflexivity.
  - reflexivity.
  - apply Forall_forall. compute_done.
  - compute_done.
Defined.

(** ** Running the size filter again *)

Lemma size_filter_inv label_im size_cutoff w w1 seg :
  (forall v, v ∈ concat label_im -> 0 <= v) ->
  size_filter label_im size_cutoff w = (w1, inr seg) ->
  w1 = w
  /\ seg = map (map (keep_large label_im size_cutoff)) label_im
  /\ np_unique label_im = seqZ 0 (Z.of_nat (length (np_unique label_im))).
Proof.
  intros Hpos Hrun.
  destruct (decide (np_unique label_im
                    = seqZ 0 (Z.of_nat (length (np_unique label_im))))) as [Hu|Hu].
  - rewrite (size_filter_consecutive _ _ _ Hu) in Hrun. by injection Hrun as <- <-.
  - by rewrite (size_filter_gap _ _ _ Hpos Hu) in Hrun.
Qed.

Lemma keep_large_nonneg label_im size_cutoff :
  (forall v, v ∈ concat label_im -> 0 <= v) ->
  forall v, v ∈ concat (map (map (keep_large label_im size_cutoff)) label_im) -> 0 <= v.
Proof.
  intros Hpos v Hv. apply elem_of_concat_map_map in Hv as (x & Hx & ->).
  destruct (keep_large_cases label_im size_cutoff x) as [->|[-> _]]; [lia|by apply Hpos].
Qed.

Lemma keep_large_twice label_im size_cutoff v :
  let seg := map (map (keep_large label_im size_cutoff)) label_im in
  keep_large seg size_cutoff (keep_large label_im size_cutoff v)
  = keep_large label_im size_cutoff v.
Proof.
  intros seg.
  destruct (keep_large_cases label_im size_cutoff v) as [H0|[Hk Hge]].
  - rewrite H0. by destruct (keep_large_cases seg size_cutoff 0) as [->|[-> _]].
  - rewrite Hk. destruct (decide (v = 0)) as [->|Hne].
    + by destruct (keep_large_cases seg size_cutoff 0) as [->|[-> _]].
    + unfold keep_large at 1. subst seg.
      by rewrite (count_eq_keep_large _ _ _ Hne Hk), Hge.
Qed.

(** X3: the size filter changes a label image once only.  When it has
    returned [seg] for a label image without negative labels, running it
    again on [seg] with the same cutoff (as re-running the notebook's cell
    does) either raises or returns [seg] itself. *)
Theorem size_filter_twice label_im size_cutoff w w1 seg w2 w3 seg2 :
  (forall v, v ∈ concat label_im -> 0 <= v) ->
  size_filter label_im size_cutoff w = (w1, inr seg) ->
  size_filter seg size_cutoff w2 = (w3, inr seg2) ->
  seg2 = seg.
Proof.
  intros Hpos H1 H2.
  apply size_filter_inv in H1 as (_ & -> & _); [|done].
  apply size_filter_inv in H2 as (_ & -> & _); [|by apply keep_large_nonneg].
  rewrite <- !list_fmap_compose. apply list_fmap_ext. intros _ r _. simpl.
  rewrite <- list_fmap_compose. apply list_fmap_ext. intros _ v _. simpl.
  apply keep_large_twice.
Qed.

Lemma size_filter_twice_witness :
  size_filter [[0; 1; 1]; [0; 2; 0]] (inject_Z 2) imaging_world
  = (imaging_world, inr [[0; 1; 1]; [0; 0; 0]])
  /\ size_filter [[0; 1; 1]; [0; 0; 0]] (inject_Z 2) imaging_world
     = (imaging_world, inr [[0; 1; 1]; [0; 0; 0]])
  /\ [[0; 1; 1]; [0; 0; 0]] = [[0; 1; 1]; [0; 0; 0]].
Proof.
  assert (size_filter [[0; 1; 1]; [0; 2; 0]] (inject_Z 2) imaging_world
          = (imaging_world, inr [[0; 1; 1]; [0; 0; 0]])) as H1
    by (apply (size_filter_consecutive [[0; 1; 1]; [0; 2; 0]]); compute_done).
  assert (size_filter [[0; 1; 1]; [0; 0; 0]] (inject_Z 2) imaging_world
          = (imaging_world, inr [[0; 1; 1]; [0; 0; 0]])) as H2
    by (apply (size_filter_consecutive [[0; 1; 1]; [0; 0; 0]]); compute_done).
  split; [exact H1|]. split; [exact H2|].
  apply (size_filter_twice [[0; 1; 1]; [0; 2; 0]] (inject_Z 2) imaging_world imaging_world
           [[0; 1; 1]; [0; 0; 0]] imaging_world imaging_world); [|exact H1|exact H2].
  apply Forall_forall. compute_done.
Defined.

(** ** Thresholds *)

Lemma Qltb_trans_le t1 t2 x : (t1 <= t2)%Q -> Qltb t2 x = true -> Qltb t1 x = true.
Proof. rewrite !Qltb_lt. intros H1 H2. by eapply Qle_lt_trans. Qed.

(** X4: raising the threshold can only shrink the mask [avg_image >
    threshold]: a sample above the higher threshold is above the lower one,
    so the mask of the higher threshold has at most as many [True] samples. *)
Theorem img_gt_antitone (avg : list (list Q)) (t1 t2 : Q) :
  (t1 <= t2)%Q ->
  (forall x y, at2 (img_gt avg t2) x y = Some true -> at2 (img_gt avg t1) x y = Some true)
  /\ count_true (img_gt avg t2) <= count_true (img_gt avg t1).
Proof.
  intros Hle. split.
  - intros x y. unfold img_gt. rewrite !at2_map_map.
    destruct (at2 avg x y) as [a|]; [|done]. simpl. intros [= H].
    f_equal. by eapply Qltb_trans_le.
  - unfold count_true, img_gt. rewrite !concat_map_map.
    apply inj_le. induction (concat avg) as [|a l IH]; simpl; [done|].
    rewrite !filter_cons.
    destruct (Qltb t2 a) eqn:E2.
    + rewrite (Qltb_trans_le _ _ _ Hle E2). simpl. lia.
    + rewrite decide_False by done. destruct (decide (Qltb t1 a = true)); simpl; lia.
Qed.

Lemma img_gt_antitone_witness :
  let avg := np_mean_axis0 [example_frame 60; example_frame 80] in
  (forall x y, at2 (img_gt avg 60) x y = Some true -> at2 (img_gt avg 50) x y = Some true)
  /\ count_true (img_gt avg 60) <= count_true (img_gt avg 50).
Proof. intros avg. apply (img_gt_antitone avg 50 60). unfold Qle. simpl. lia. Defined.

(** ** What the four [make] methods write to *)

Lemma grows_only_refl own d : grows_only own d d.
Proof. by intros t. Qed.

Lemma insert1_grows_only own d0 t r :
  t ∈ own -> invariant (fun w => grows_only own d0 (db w)) (insert1 t r).
Proof.
  intros Ht w Hg. destruct (insert1_cases t r w) as [[-> _]|[e ->]]; [|done].
  simpl. intros t'. destruct (Hg t') as [Hp Ho]. unfold set_table.
  case_decide as Heq.
  - subst t'. split; [|done]. by apply prefix_app_r.
  - done.
Qed.

Lemma insert_grows_only own d0 t rows :
  t ∈ own -> invariant (fun w => grows_only own d0 (db w)) (insert t rows).
Proof.
  intros Ht. unfold insert. apply invariant_for_each. intros r.
  by apply insert1_grows_only.
Qed.

Ltac grows_step :=
  apply invariant_bind;
  [first [apply insert1_grows_only; compute_done
         | apply insert_grows_only; compute_done
         | apply (keeps_store_invariant (grows_only _ _)); solve_keeps]
  |intros ?].

Lemma Neuron_make_loop_grows_only d0 items : forall idx key,
  invariant (fun w => grows_only [Neuron] d0 (db w)) (Neuron_make_loop items idx key).
Proof.
  induction items as [|d items IH]; intros idx key; simpl.
  - by intros w.
  - do 5 grows_step. apply IH.
Qed.

(** X5: whatever the key and the state, and whether it returns or raises,
    a [make] only appends rows, and only to its own tables:
    [AverageFrame.make] to [AverageFrame], [Segmentation.make] to
    [Segmentation] and [Roi], [Fluorescence.make] to [Fluorescence] and
    [Trace], [Neuron.make] to [Neuron].  The rows that were there stay, in
    their order, and every other table is as it was. *)
Theorem make_appends_to_own_tables w :
  (forall key, grows_only [AverageFrame] (db w) (db (AverageFrame_make key w).1))
  /\ (forall ndimage_label key,
        grows_only [Segmentation; Roi] (db w)
                   (db (Segmentation_make ndimage_label key w).1))
  /\ (forall key,
        grows_only [Fluorescence; Trace] (db w) (db (Fluorescence_make key w).1))
  /\ (forall data_dir key,
        grows_only [Neuron] (db w) (db (Neuron_make data_dir key w).1)).
Proof.
  split; [|split; [|split]].
  - intros key.
    cut (invariant (fun w' => grows_only [AverageFrame] (db w) (db w')) (AverageFrame_make key));
      [intros H; apply H, grows_only_refl|].
    unfold AverageFrame_make. do 7 grows_step.
    apply (keeps_store_invariant (grows_only _ _)). solve_keeps.
  - intros ndimage_label key.
    cut (invariant (fun w' => grows_only [Segmentation; Roi] (db w) (db w')) (Segmentation_make ndimage_label key));
      [intros H; apply H, grows_only_refl|].
    unfold Segmentation_make. do 5 grows_step.
    destruct (ndimage_label _) as [label_im nb]. do 5 grows_step.
    apply insert_grows_only. compute_done.
  - intros key.
    cut (invariant (fun w' => grows_only [Fluorescence; Trace] (db w) (db w')) (Fluorescence_make key));
      [intros H; apply H, grows_only_refl|].
    unfold Fluorescence_make. do 4 grows_step.
    match goal with [ arr : ndarray |- _ ] => destruct arr as [page|im] end;
      [by intros w0|].
    destruct (np_shape3 _) as [[n wd] ht]. do 5 grows_step.
    apply insert_grows_only. compute_done.
  - intros data_dir key.
    cut (invariant (fun w' => grows_only [Neuron] (db w) (db w')) (Neuron_make data_dir key));
      [intros H; apply H, grows_only_refl|].
    unfold Neuron_make.
    apply invariant_bind.
    { apply (keeps_store_invariant (grows_only _ _)), keeps_store_unchanged.
      unfold data_file_of. destruct (key !! "data_dir"); auto with frame. }
    intros p. apply invariant_bind;
      [apply (keeps_store_invariant (grows_only _ _)), keeps_store_np_load|].
    intros a. grows_step. apply Neuron_make_loop_grows_only.
Qed.

(** ** [Fluorescence.make] *)

Lemma mask_of_lookup (r : row) mask : r !! "mask" = Some (VMask mask) -> mask_of r = mask.
Proof. intros H. unfold mask_of. by rewrite H. Qed.

Lemma fetch_key_and_mask key w rois :
  restrict (db w Roi) key = rois ->
  Forall (fun r => exists mask, r !! "mask" = Some (VMask mask)) rois ->
  fetch_key_and Roi key "mask" w
  = (w, inr (map (fun r => (proj (pk Roi) r, VMask (mask_of r))) rois)).
Proof.
  intros Hr Hm. unfold fetch_key_and. rewrite Hr.
  rewrite (mapM_map_Some _ (fun r => (proj (pk Roi) r, VMask (mask_of r)))); [done|].
  intros r Hin. rewrite Forall_forall in Hm. destruct (Hm r Hin) as (mask & Hmask).
  rewrite Hmask. simpl. by rewrite (mask_of_lookup _ _ Hmask).
Qed.

Lemma map_M_trace_of im wd ht rois w :
  Forall (fun r => exists mask, r !! "mask" = Some (VMask mask)
                                /\ length (concat mask) = (wd * ht)%nat) rois ->
  map_M (trace_of (map (fun frame => concat frame) im) wd ht)
        (map (fun r => (proj (pk Roi) r, VMask (mask_of r))) rois) w
  = (w, inr (map (Trace_row im) rois)).
Proof.
  induction 1 as [|r rois (mask & Hmask & Hlen) _ IH]; simpl; [done|].
  erewrite bind_ok; cycle 1.
  { unfold trace_of. simpl. rewrite (mask_of_lookup _ _ Hmask).
    rewrite (bind_ok _ _ _ _ _ eq_refl).
    rewrite decide_True by done.
    rewrite (bind_ok _ _ _ _ _ eq_refl).
    unfold dict_with. rewrite proj_lookup_None by compute_done. reflexivity. }
  rewrite (bind_ok _ _ _ _ _ IH). unfold ret. do 2 f_equal. f_equal.
  unfold Trace_row. rewrite (mask_of_lookup _ _ Hmask). do 2 f_equal.
  by rewrite map_map.
Qed.

Lemma matching_row_key m s i p (r : row) a :
  matches (Segmentation_key m s i p) r -> is_Some (r !! a) -> a ∈ pk Segmentation ->
  r !! a = Segmentation_key m s i p !! a.
Proof.
  intros Hm [v Hv] Ha. unfold pk, Session_pk in Ha. simpl in Ha.
  elem_cases Ha.
  - specialize (Hm "mouse_id" (VInt m) eq_refl). simpl in Hm. rewrite Hv in Hm |- *.
    by rewrite <- Hm.
  - specialize (Hm "session_date" (VStr s) eq_refl). simpl in Hm. rewrite Hv in Hm |- *.
    by rewrite <- Hm.
  - specialize (Hm "scan_idx" (VInt i) eq_refl). simpl in Hm. rewrite Hv in Hm |- *.
    by rewrite <- Hm.
  - specialize (Hm "seg_param_id" (VInt p) eq_refl). simpl in Hm. rewrite Hv in Hm |- *.
    by rewrite <- Hm.
Qed.

Lemma row_ok_Roi_pk (r : row) a : row_ok Roi r -> a ∈ pk Roi -> is_Some (r !! a).
Proof.
  intros [Hreq _] Ha. rewrite Forall_forall in Hreq. apply Hreq.
  unfold required, attrs. apply elem_of_app. by left.
Qed.

Lemma Trace_row_pk im (r : row) a : a ∈ pk Roi -> Trace_row im r !! a = r !! a.
Proof.
  intros Ha. unfold Trace_row.
  rewrite (lookup_insert_other _ _ _ (pk Roi)); [|compute_done|done].
  by apply proj_lookup_in.
Qed.

Lemma Trace_row_ok im (r : row) : row_ok Roi r -> row_ok Trace (Trace_row im r).
Proof.
  intros Hr. split.
  - apply Forall_forall. intros a Ha.
    change (required Trace) with (pk Roi ++ ["trace"]) in Ha.
    apply elem_of_app in Ha as [Ha|Ha].
    + rewrite Trace_row_pk by done. by apply row_ok_Roi_pk.
    + apply list_elem_of_singleton in Ha as ->. unfold Trace_row.
      rewrite lookup_insert_eq. eauto.
  - apply Forall_forall. intros a Ha.
    apply elem_of_elements, elem_of_dom in Ha as [v Hv].
    change (attrs Trace) with (pk Roi ++ ["trace"]).
    unfold Trace_row in Hv. destruct (decide (a = "trace")) as [->|Hne].
    + apply elem_of_app. right. apply list_elem_of_here.
    + rewrite lookup_insert_ne in Hv by done.
      apply elem_of_app. left.
      destruct (decide (a ∈ pk Roi)) as [Hin|Hnin]; [done|].
      by rewrite proj_lookup_None in Hv.
Qed.

Lemma agree_on_proj_eq (names : list string) (r1 r2 : row) :
  agree_on names r1 r2 -> proj names r1 = proj names r2.
Proof.
  intros Hag. apply map_eq. intros a.
  destruct (decide (a ∈ names)) as [Ha|Ha].
  - rewrite !proj_lookup_in by done.
    unfold agree_on in Hag. rewrite Forall_forall in Hag. by destruct (Hag a Ha).
  - by rewrite !proj_lookup_None.
Qed.

Lemma Fluorescence_make_ok m s i p w rs rc dp fn vf fps pages im :
  let key := Segmentation_key m s i p in
  let rois := restrict (db w Roi) key in
  restrict (db w Session) key = [rs] -> rs !! "data_path" = Some (VStr dp) ->
  restrict (db w Scan) key = [rc] -> rc !! "file_name" = Some (VStr fn) ->
  rc !! "fps" = Some vf -> float_of vf = Some fps ->
  files w !! os_path_join dp fn = Some (TifFile pages) ->
  skimage_imread pages = Some (Arr3 im) ->
  has_key (db w Segmentation) (pk Segmentation) key ->
  ~ present (db w Fluorescence) key ->
  parts_have_master (db w) ->
  Forall (row_ok Roi) (db w Roi) -> NoDup (keys_of (db w) Roi) ->
  Forall (fun r => exists mask,
            r !! "mask" = Some (VMask mask)
            /\ length (concat mask)
               = (length (hd [] im) * length (hd [] (hd [] im)))%nat) rois ->
  exists w',
    Fluorescence_make key w = (w', inr tt)
    /\ db w' Fluorescence
       = db w Fluorescence
         ++ [<["time" := VFloats (map (fun k => true_divide (of_int (Z.of_nat k)) fps)
                                      (seq 0 (length im)))]> key]
    /\ db w' Trace = db w Trace ++ map (Trace_row im) rois
    /\ (forall t, t <> Fluorescence -> t <> Trace -> db w' t = db w t)
    /\ stdout w' = stdout w ++ [KeyLine "Populating: " key]
    /\ opened w' = opened w ++ [os_path_join dp fn].
Proof.
  intros key rois Hrs Hdp Hrc Hfn Hfps Hq Hfile Him Hseg Habs Hpm Hrok Hnd Hmasks.
  unfold Fluorescence_make.
  rewrite (bind_ok _ _ _ _ _ eq_refl).
  set (wp := World _ _ _ _ _ _).
  rewrite (bind_ok _ _ _ _ _ (fetch1_str_ok _ _ _ wp _ _ Hrs Hdp)).
  rewrite (bind_ok _ _ _ _ _ (fetch1_str_ok _ _ _ wp _ _ Hrc Hfn)).
  rewrite (bind_ok _ _ _ _ _ (io_imread_ok _ wp _ _ Hfile Him)).
  cbv beta iota.
  set (wo := World _ _ _ _ _ _).
  unfold np_shape3.
  erewrite bind_ok; cycle 1.
  { rewrite (bind_ok _ _ _ _ _ (fetch1_ok _ _ _ wo _ _ Hrc Hfps)). by apply as_float_ok. }
  rewrite (bind_ok _ _ _ _ _ eq_refl).
  set (mrow := <["time" := _]> key).
  assert (Hext : forall a, a ∈ pk Fluorescence -> key !! a = mrow !! a).
  { intros a Ha. symmetry. apply (lookup_insert_other _ _ _ (pk Fluorescence)); [|done].
    compute_done. }
  assert (Hrow : row_ok Fluorescence mrow) by (subst mrow key; compute_done).
  assert (Hnokey : ~ has_key (db w Fluorescence) (pk Fluorescence) key).
  { apply not_present_not_has_key; [compute_done|done]. }
  assert (Hnodup : ~ has_key (db wo Fluorescence) (pk Fluorescence) mrow).
  { intros Hk. apply Hnokey. eapply has_key_ext; [|exact Hk].
    intros a Ha. symmetry. by apply Hext. }
  assert (Hpar : parents_present (db wo) Fluorescence mrow).
  { constructor; [|constructor]. eapply has_key_ext; [|exact Hseg]. exact Hext. }
  rewrite (bind_ok _ _ _ _ _ (insert1_ok _ _ _ Hrow Hnodup Hpar)).
  set (w1 := World _ _ _ _ _ _).
  assert (Hroi1 : restrict (db w1 Roi) key = rois).
  { subst w1. simpl. by rewrite set_table_other. }
  rewrite (bind_ok _ _ _ _ _ (fetch_key_and_mask key w1 rois Hroi1
             (Forall_impl _ _ _ Hmasks (fun r '(ex_intro _ mk (conj H _)) =>
                                          ex_intro _ mk H)))).
  rewrite (bind_ok _ _ _ _ _ (map_M_trace_of im _ _ rois w1 Hmasks)).
  assert (Hin : forall r, r ∈ rois -> r ∈ db w Roi /\ matches key r).
  { intros r Hr. subst rois. unfold restrict in Hr. by apply list_elem_of_filter in Hr as [? ?]. }
  assert (Hkey : forall r a, r ∈ rois -> a ∈ pk Segmentation -> r !! a = key !! a).
  { intros r a Hr Ha. destruct (Hin r Hr) as [Hr' Hm].
    apply matching_row_key; [done| |done].
    rewrite Forall_forall in Hrok.
    apply row_ok_Roi_pk; [by apply Hrok|by apply pk_Segmentation_Roi]. }
  destruct (insert_ok Trace (map (Trace_row im) rois) w1)
    as (w' & Hrun & Hdb & Hoth & Hst & Hca & Hfi & Hop).
  - compute_done.
  - apply Forall_fmap, Forall_forall. intros r Hr. simpl.
    apply Trace_row_ok. rewrite Forall_forall in Hrok. by apply Hrok, Hin.
  - apply Forall_fmap, Forall_forall. intros r Hr. simpl.
    subst w1. simpl. rewrite set_table_other by done.
    intros Hk. unfold has_key in Hk. apply Exists_exists in Hk as (tr & Htr & Hag).
    apply Hnokey.
    pose proof (Hpm Trace Fluorescence tr eq_refl Htr) as Hm.
    unfold has_key in *. eapply Exists_impl; [exact Hm|]. intros mr Hmr.
    eapply agree_on_trans; [|exact Hmr].
    apply (agree_on_ext (pk Fluorescence) (Trace_row im r) key tr).
    { intros a Ha. rewrite Trace_row_pk by (by apply pk_Segmentation_Roi).
      by apply Hkey. }
    eapply agree_on_sub; [|exact Hag]. intros a. apply pk_Segmentation_Roi.
  - intros i1 i2 r1 r2 Hlt H1 H2 Hag.
    rewrite list_lookup_fmap in H1, H2.
    destruct (rois !! i1) as [q1|] eqn:E1; [|done].
    destruct (rois !! i2) as [q2|] eqn:E2; [|done].
    simpl in H1, H2. injection H1 as <-. injection H2 as <-.
    assert (agree_on (pk Roi) q2 q1) as Hag'.
    { unfold agree_on in Hag |- *. rewrite Forall_forall in Hag.
      apply Forall_forall. intros a Ha.
      destruct (Hag a Ha) as [Hs Heq].
      rewrite !Trace_row_pk in Heq by done. rewrite Trace_row_pk in Hs by done.
      by split. }
    apply agree_on_proj_eq in Hag'.
    assert (NoDup (map (proj (pk Roi)) rois)) as Hnd'.
    { subst rois. unfold restrict. unfold keys_of in Hnd.
      eapply sublist_NoDup; [exact Hnd|]. apply fmap_sublist, sublist_filter. }
    assert (map (proj (pk Roi)) rois !! i1 = Some (proj (pk Roi) q1)) as L1
      by (by rewrite list_lookup_fmap, E1).
    assert (map (proj (pk Roi)) rois !! i2 = Some (proj (pk Roi) q2)) as L2
      by (by rewrite list_lookup_fmap, E2).
    rewrite Hag' in L2. pose proof (NoDup_lookup _ _ _ _ Hnd' L1 L2). lia.
  - apply Forall_fmap, Forall_forall. intros r Hr. simpl.
    constructor; [|constructor; [|constructor]].
    + subst w1. simpl. rewrite set_table_same. unfold has_key.
      apply Exists_app. right. constructor.
      apply (agree_on_ext (pk Fluorescence) (Trace_row im r) key mrow).
      { intros a Ha. rewrite Trace_row_pk by (by apply pk_Segmentation_Roi).
        by apply Hkey. }
      unfold agree_on. apply Forall_forall. intros a Ha.
      split; [|by apply Hext].
      unfold pk, Session_pk in Ha. simpl in Ha. elem_cases Ha; eexists; reflexivity.
    + subst w1. simpl. rewrite set_table_other by done.
      unfold has_key. apply Exists_exists. exists r. split; [by apply Hin|].
      unfold agree_on. apply Forall_forall. intros a Ha.
      rewrite Trace_row_pk by done. split; [|done].
      apply row_ok_Roi_pk; [|done]. rewrite Forall_forall in Hrok. by apply Hrok, Hin.
  - exists w'. split; [exact Hrun|].
    subst w1. simpl in *. rewrite set_table_other in Hdb by done.
    split.
    { rewrite Hoth by done. by rewrite set_table_same. }
    split; [done|].
    split.
    { intros t Ht1 Ht2. rewrite Hoth by done. by rewrite set_table_other. }
    rewrite Hst, Hop. done.
Qed.

(** ** Rounding stays in range *)

Lemma floor_log2_le q k :
  0 <= k -> (q <= 2 ^ k)%Q -> floor_log2 q <= k.
Proof.
  intros Hk Hq. unfold floor_log2.
  assert (Z.log2 (Qnum q) - Z.log2 (Z.pos (Qden q)) <= k) as Hl.
  { destruct q as [n d]. cbn [Qnum Qden].
    destruct (Z.le_gt_cases n 0) as [Hn|Hn].
    { rewrite (Z.log2_nonpos n Hn). pose proof (Z.log2_nonneg (Z.pos d)). lia. }
    assert (n <= Z.pos d * 2 ^ k) as Hle.
    { assert (2 ^ k == inject_Z (2 ^ k))%Q as E.
      { rewrite Zpower_Qpower by done. reflexivity. }
      rewrite E in Hq. unfold Qle in Hq. cbn [Qnum Qden inject_Z] in Hq. lia. }
    apply Z.log2_le_mono in Hle.
    rewrite Z.log2_mul_pow2 in Hle by lia. lia. }
  destruct (Qle_bool _ _); lia.
Qed.

Lemma round_half_even_bounds q :
  (0 <= q)%Q -> 0 <= round_half_even q /\ (inject_Z (round_half_even q) <= q + 1)%Q.
Proof.
  intros Hq. unfold round_half_even.
  assert (0 <= Qfloor q) as Hf.
  { change 0 with (Qfloor 0). by apply Qfloor_resp_le. }
  pose proof (Qfloor_le q) as Hle.
  assert (inject_Z (Qfloor q + 1) <= q + 1)%Q as Hle1.
  { rewrite inject_Z_plus. apply Qplus_le_l. exact Hle. }
  assert (inject_Z (Qfloor q) <= q + 1)%Q as Hle0.
  { eapply Qle_trans; [exact Hle|]. rewrite <- (Qplus_0_r q) at 1.
    apply Qplus_le_r. discriminate. }
  destruct (_ ?= _)%Q; [destruct (Z.even _)| |]; split; (lia || done).
Qed.

(** Rounding takes a number of magnitude at most [2^53] nowhere near the
    largest float. *)
Lemma fl_bound q : (Qabs q <= 2 ^ 53)%Q -> (Qabs (fl q) <= 2 ^ 53 + 2)%Q.
Proof.
  intros Hq. unfold fl.
  assert (Qabs (Qred q) <= 2 ^ 53)%Q as Ha by (by rewrite Qred_correct).
  destruct (Qeq_bool (Qred q) 0); [discriminate|].
  set (a := Qabs (Qred q)) in *.
  set (e := Z.max (floor_log2 a) (-1022)).
  assert (e <= 53) as He.
  { pose proof (floor_log2_le a 53 ltac:(lia) Ha). lia. }
  set (ulp := (2 ^ (e - 52))%Q).
  assert (0 < ulp)%Q as Hu0 by (apply Qpower_0_lt; reflexivity).
  assert (ulp <= 2)%Q as Hu2.
  { subst ulp. change 2%Q with (2 ^ 1)%Q at 2.
    apply Qpower_le_compat_l; [lia|discriminate]. }
  assert (0 <= a / ulp)%Q as Hau.
  { apply Qle_shift_div_l; [exact Hu0|]. rewrite Qmult_0_l. apply Qabs_nonneg. }
  destruct (round_half_even_bounds _ Hau) as [Hm0 Hm1].
  set (m := round_half_even (a / ulp)) in *.
  assert (0 <= inject_Z m * ulp)%Q as Hp0.
  { apply Qmult_le_0_compat; [|by apply Qlt_le_weak].
    change 0%Q with (inject_Z 0). rewrite <- Zle_Qle. exact Hm0. }
  assert (inject_Z m * ulp <= 2 ^ 53 + 2)%Q as Hp.
  { eapply Qle_trans.
    { apply Qmult_le_compat_r; [exact Hm1|by apply Qlt_le_weak]. }
    assert ((a / ulp + 1) * ulp == a + ulp)%Q as -> by (field; by apply Qnot_eq_sym, Qlt_not_eq).
    by apply Qplus_le_compat. }
  rewrite Qred_correct.
  destruct (Qle_bool 0 (Qred q)).
  - by rewrite Qabs_pos.
  - by rewrite Qabs_opp, Qabs_pos.
Qed.

Lemma sum_inject_Z l :
  (fold_right Qplus 0 (map inject_Z l) == inject_Z (fold_right Z.add 0%Z l))%Q.
Proof.
  induction l as [|z l IH]; simpl; [reflexivity|]. by rewrite inject_Z_plus, IH.
Qed.

(** [np.mean] of integers whose magnitudes sum to less than [2^53]. *)
Lemma np_mean1_rounded l : sum_abs l < 2 ^ 53 -> np_mean1 l = rounded_mean l.
Proof.
  intros Hsum. destruct l as [|z l]; [reflexivity|].
  set (l' := z :: l) in *.
  unfold np_mean1. change 0%Q with (inject_Z 0).
  rewrite fold_fadd_int by (simpl Z.abs; lia). rewrite Z.add_0_l.
  set (S := fold_right Z.add 0 l'). set (n := Z.of_nat (length l')).
  assert (0 < n) as Hn by (subst n l'; simpl length; lia).
  pose proof (sum_list_abs l') as Habs. fold S in Habs.
  unfold true_divide.
  assert (Qeq_bool (inject_Z n) 0 = false) as ->.
  { destruct (Qeq_bool (inject_Z n) 0) eqn:E; [|done].
    apply Qeq_bool_eq in E. unfold Qeq in E. simpl in E. lia. }
  assert (Qabs (inject_Z S / inject_Z n) <= 2 ^ 53)%Q as Hq.
  { assert (0 < inject_Z n)%Q as Hn'.
    { change 0%Q with (inject_Z 0). by rewrite <- Zlt_Qlt. }
    unfold Qdiv. rewrite Qabs_Qmult.
    rewrite (Qabs_pos (/ inject_Z n)) by (by apply Qlt_le_weak, Qinv_lt_0_compat).
    apply Qle_shift_div_r; [exact Hn'|].
    change (Qabs (inject_Z S)) with (inject_Z (Z.abs S)).
    assert (2 ^ 53 == inject_Z (2 ^ 53))%Q as -> by reflexivity.
    rewrite <- inject_Z_mult, <- Zle_Qle. nia. }
  apply fl_bound in Hq.
  assert (Qle_bool (2 ^ 1024) (Qabs (fl (inject_Z S / inject_Z n))) = false) as ->.
  { destruct (Qle_bool _ _) eqn:E; [|done].
    apply Qle_bool_iff in E. pose proof (Qle_trans _ _ _ E Hq) as Hf.
    apply Qle_bool_iff in Hf. vm_compute in Hf. discriminate Hf. }
  unfold rounded_mean. subst l'. cbv beta iota. f_equal. apply fl_Qeq.
  unfold arith_mean. rewrite length_map.
  apply Qdiv_comp; [|reflexivity]. symmetry. apply sum_inject_Z.
Qed.

(** ** Boolean indexing, position by position *)

Lemma select_app {A} (v1 v2 : list A) (m1 m2 : list bool) :
  length v1 = length m1 ->
  select (v1 ++ v2) (m1 ++ m2) = select v1 m1 ++ select v2 m2.
Proof.
  intros Hl. unfold select. rewrite zip_with_app by done. apply omap_app.
Qed.

Lemma select_row (r : list Z) : forall (mr : list bool),
  length r = length mr ->
  select r mr
  = y ← seq 0 (length r);
    if decide (mr !! y = Some true) then [default 0 (r !! y)] else [].
Proof.
  induction r as [|z r IH]; intros [|b mr] Hl; try done.
  simpl in Hl. simpl length. simpl seq. rewrite bind_cons.
  rewrite <- fmap_S_seq, list_fmap_bind.
  destruct b.
  - change (select (z :: r) (true :: mr)) with (z :: select r mr).
    rewrite (IH mr) by lia. rewrite decide_True by done. done.
  - change (select (z :: r) (false :: mr)) with (select r mr).
    rewrite (IH mr) by lia. rewrite decide_False by done. done.
Qed.

Lemma bind_pairs {C} (xs : list nat) (len : nat -> nat) (g : nat * nat -> list C) :
  (x ← xs; y ← seq 0 (len x); [(x, y)]) ≫= g
  = x ← xs; y ← seq 0 (len x); g (x, y).
Proof.
  induction xs as [|x xs IH]; [done|].
  rewrite !bind_cons, bind_app, IH. f_equal.
  induction (seq 0 (len x)) as [|y ys IHy]; [done|].
  rewrite !bind_cons, bind_app, IHy. simpl. by rewrite app_nil_r.
Qed.

Lemma select_masked (frame : list (list Z)) : forall (mask : list (list bool)),
  length frame = length mask ->
  Forall2 (fun r mr => length r = length mr) frame mask ->
  select (concat frame) (concat mask) = masked frame mask.
Proof.
  unfold masked, positions.
  induction frame as [|r frame IH]; intros [|mr mask] Hl Hrows; try done.
  apply Forall2_cons in Hrows as [Hr Hrows]. simpl in Hl.
  simpl concat. rewrite select_app by done.
  rewrite bind_pairs. simpl length. simpl seq. rewrite bind_cons.
  f_equal.
  - rewrite select_row by done. done.
  - rewrite (IH mask) by (done || lia).
    rewrite bind_pairs, <- fmap_S_seq, list_fmap_bind. done.
Qed.

Lemma has_shape_rows {A B} wd ht (a : list (list A)) (b : list (list B)) :
  has_shape wd ht a -> has_shape wd ht b ->
  length a = length b /\ Forall2 (fun r mr => length r = length mr) a b.
Proof.
  intros [Ha Hra] [Hb Hrb]. split; [congruence|].
  apply Forall2_same_length_lookup_2; [congruence|].
  intros i r mr Hr Hmr.
  rewrite Forall_forall in Hra. rewrite Forall_forall in Hrb.
  rewrite (Hra r), (Hrb mr); [done| |]; by eapply list_elem_of_lookup_2.
Qed.

Lemma has_shape_size {A} wd ht (a : list (list A)) :
  has_shape wd ht a -> length (concat a) = (wd * ht)%nat.
Proof.
  intros [Hl Hr]. subst wd.
  induction Hr as [|r a Hlen _ IH]; [done|].
  simpl. rewrite length_app, IH, Hlen. done.
Qed.

Lemma shape_of_frames wd ht (im : list (list (list Z))) :
  im <> [] -> Forall (has_shape wd ht) im ->
  (length (hd [] im) * length (hd [] (hd [] im)))%nat = (wd * ht)%nat.
Proof.
  intros Hne Him. destruct im as [|f rest]; [done|].
  apply Forall_cons in Him as [[Hl Hr] _]. simpl.
  destruct f as [|r f]; simpl in *; [by subst wd|].
  apply Forall_cons in Hr as [Hr _]. by rewrite Hr, <- Hl.
Qed.

(** X6: [Fluorescence.make] on a key [populate] hands it: the session and
    scan rows name a TIFF file that [io.imread] loads as [n >= 1] frames of
    [wd] by [ht] integer samples, the key has its [Segmentation] row and no
    [Fluorescence] row, and every [Roi] row of the key holds a mask of [wd]
    by [ht] samples; the magnitudes of the samples a mask selects in a frame
    sum to less than [2^53].  Then [make] returns and appends one master
    row, whose [time] has [n] entries, entry [k] being the float64 quotient
    of [k] by the scan's [fps] (an infinity or not-a-number for [fps = 0]);
    and, in the order of the [Roi] rows of the key, one [Trace] row per
    [Roi] row, with that row's primary key and a [trace] of [n] entries,
    entry [k] being the float64 nearest to the mean of the samples of frame
    [k] at the places where the mask is [True], not-a-number when the mask
    is [True] nowhere.  No other table changes. *)
Theorem Fluorescence_make_traces m s i p w rs rc dp fn vf fps pages im n wd ht :
  let key := Segmentation_key m s i p in
  let rois := restrict (db w Roi) key in
  restrict (db w Session) key = [rs] -> rs !! "data_path" = Some (VStr dp) ->
  restrict (db w Scan) key = [rc] -> rc !! "file_name" = Some (VStr fn) ->
  rc !! "fps" = Some vf -> float_of vf = Some fps ->
  files w !! os_path_join dp fn = Some (TifFile pages) ->
  skimage_imread pages = Some (Arr3 im) ->
  length im = n -> (0 < n)%nat -> Z.of_nat n <= 2 ^ 53 ->
  Forall (has_shape wd ht) im ->
  has_key (db w Segmentation) (pk Segmentation) key ->
  ~ present (db w Fluorescence) key ->
  parts_have_master (db w) ->
  Forall (row_ok Roi) (db w Roi) -> NoDup (keys_of (db w) Roi) ->
  Forall (fun r => exists mask,
            r !! "mask" = Some (VMask mask) /\ has_shape wd ht mask
            /\ Forall (fun frame => sum_abs (masked frame mask) < 2 ^ 53) im) rois ->
  exists w' time new,
    Fluorescence_make key w = (w', inr tt)
    /\ db w' Fluorescence = db w Fluorescence ++ [<["time" := VFloats time]> key]
    /\ length time = n
    /\ (forall k, (k < n)%nat ->
          time !! k = Some (true_divide (inject_Z (Z.of_nat k)) fps))
    /\ db w' Trace = db w Trace ++ new
    /\ Forall2 (fun (r tr : row) =>
                  (forall a, a ∈ pk Roi -> tr !! a = r !! a)
                  /\ exists trace,
                       tr !! "trace" = Some (VFloats trace) /\ length trace = n
                       /\ forall k frame, im !! k = Some frame ->
                            trace !! k
                            = Some (rounded_mean (masked frame (mask_of r))))
               rois new
    /\ (forall t, t <> Fluorescence -> t <> Trace -> db w' t = db w t).
Proof.
  intros key rois Hrs Hdp Hrc Hfn Hfps Hq Hfile Hread Hn Hpos Hbig Him Hseg Habs Hpm
         Hrok Hnd Hmasks.
  assert (im <> []) as Hne by (intros ->; simpl in Hn; lia).
  destruct (Fluorescence_make_ok m s i p w rs rc dp fn vf fps pages im
              Hrs Hdp Hrc Hfn Hfps Hq Hfile Hread Hseg Habs Hpm Hrok Hnd)
    as (w' & Hrun & Hfl & Htr & Hoth & _).
  { rewrite (shape_of_frames wd ht im Hne Him).
    eapply Forall_impl; [exact Hmasks|]. intros r (mask & H1 & H2 & _).
    exists mask. split; [exact H1|]. by apply has_shape_size. }
  exists w', (map (fun k => true_divide (of_int (Z.of_nat k)) fps) (seq 0 (length im))),
         (map (Trace_row im) rois).
  split; [exact Hrun|]. split; [exact Hfl|].
  split; [by rewrite length_map, length_seq|].
  split.
  { intros k Hk. rewrite list_lookup_fmap, lookup_seq_lt by lia. simpl.
    unfold of_int. rewrite fl_int by lia. done. }
  split; [exact Htr|].
  split; [|exact Hoth].
  apply Forall2_fmap_r, Forall_Forall2_diag.
  eapply Forall_impl; [exact Hmasks|]. intros r (mask & Hmask & Hshape & Hsums).
  split; [intros a Ha; by apply Trace_row_pk|].
  exists (map (fun frame => np_mean1 (select (concat frame) (concat (mask_of r)))) im).
  split; [unfold Trace_row; by rewrite lookup_insert_eq|].
  split; [by rewrite length_map|].
  intros k frame Hk. rewrite list_lookup_fmap, Hk. simpl. f_equal.
  rewrite (mask_of_lookup _ _ Hmask).
  rewrite Forall_forall in Him, Hsums.
  assert (frame ∈ im) as Hin by (by eapply list_elem_of_lookup_2).
  destruct (has_shape_rows wd ht frame mask (Him _ Hin) Hshape) as [Hl Hrows].
  rewrite (select_masked frame mask Hl Hrows).
  apply np_mean1_rounded, Hsums, Hin.
Qed.

Lemma Fluorescence_make_traces_witness :
  let key := Segmentation_key 0 "2017-05-15" 1 0 in
  let w := fluorescence_world in
  let im := [example_frame 60; example_frame 80] in
  exists w' time new,
    Fluorescence_make key w = (w', inr tt)
    /\ db w' Fluorescence = db w Fluorescence ++ [<["time" := VFloats time]> key]
    /\ length time = 2%nat
    /\ (forall k, (k < 2)%nat ->
          time !! k = Some (true_divide (inject_Z (Z.of_nat k)) (inject_Z 15)))
    /\ db w' Trace = db w Trace ++ new
    /\ Forall2 (fun (r tr : row) =>
                  (forall a, a ∈ pk Roi -> tr !! a = r !! a)
                  /\ exists trace,
                       tr !! "trace" = Some (VFloats trace) /\ length trace = 2%nat
                       /\ forall k frame, im !! k = Some frame ->
                            trace !! k
                            = Some (rounded_mean (masked frame (mask_of r))))
               (restrict (db w Roi) key) new
    /\ (forall t, t <> Fluorescence -> t <> Trace -> db w' t = db w t).
Proof.
  intros key w im.
  apply (Fluorescence_make_traces 0 "2017-05-15" 1 0 w
           (default ∅ (head (restrict (db w Session) key)))
           (default ∅ (head (restrict (db w Scan) key)))
           "/data" "example_scan_01.tif" (VInt 15) (inject_Z 15) im im 2 10 10).
  - compute_done.
  - compute_done.
  - compute_done.
  - compute_done.
  - compute_done.
  - reflexivity.
  - compute_done.
  - reflexivity.
  - reflexivity.
  - lia.
  - lia.
  - unfold has_shape. compute_done.
  - compute_done.
  - compute_done.
  - exact fluorescence_world_parts_have_master.
  - compute_done.
  - compute_done.
  - apply Forall_forall. intros r Hr.
    assert (Forall (fun r : row =>
                      Is_true match r !! "mask" with
                              | Some (VMask mask) =>
                                  bool_decide
                                    (has_shape 10 10 mask
                                     /\ Forall (fun frame =>
                                                  sum_abs (masked frame mask) < 2 ^ 53) im)
                              | _ => false
                              end) (restrict (db w Roi) key)) as Hall by compute_done.
    rewrite Forall_forall in Hall. specialize (Hall r Hr).
    destruct (r !! "mask") as [[| | | | | |mask| | |]|]; try done.
    apply bool_decide_unpack in Hall.
    exists mask. by split.
Defined.

Lemma trace_of_cases im_reshaped wd ht (r : row) mask w :
  r !! "mask" = Some (VMask mask) ->
  trace_of im_reshaped wd ht (proj (pk Roi) r, VMask (mask_of r)) w
  = if decide (length (concat mask) = (wd * ht)%nat)
    then (w, inr (<["trace" := VFloats (map (fun frame => np_mean1 (select frame (concat mask)))
                                            im_reshaped)]> (proj (pk Roi) r)))
    else (w, inl ValueError).
Proof.
  intros Hmask. unfold trace_of. simpl. rewrite (mask_of_lookup _ _ Hmask).
  rewrite (bind_ok _ _ _ _ _ eq_refl).
  case_decide.
  - rewrite (bind_ok _ _ _ _ _ eq_refl).
    unfold dict_with. by rewrite proj_lookup_None by compute_done.
  - reflexivity.
Qed.

Lemma map_M_trace_of_mismatch im_reshaped wd ht rois w :
  Forall (fun r => exists mask, r !! "mask" = Some (VMask mask)) rois ->
  Exists (fun r => length (concat (mask_of r)) <> (wd * ht)%nat) rois ->
  map_M (trace_of im_reshaped wd ht)
        (map (fun r => (proj (pk Roi) r, VMask (mask_of r))) rois) w
  = (w, inl ValueError).
Proof.
  induction 1 as [|r rois (mask & Hmask) _ IH]; intros Hex; [by apply Exists_nil in Hex|].
  simpl. pose proof (trace_of_cases im_reshaped wd ht r mask w Hmask) as Ht.
  case_decide as Hlen.
  - rewrite (bind_ok _ _ _ _ _ Ht).
    apply Exists_cons in Hex as [Hbad|Hex].
    + by rewrite (mask_of_lookup _ _ Hmask) in Hbad.
    + by rewrite (bind_err _ _ _ _ _ (IH Hex)).
  - by rewrite (bind_err _ _ _ _ _ Ht).
Qed.

(** X7: [Fluorescence.make] when [io.imread] loads the scan's file as an
    array of three axes and a stored mask does not have as many samples as
    a frame of that array ([np.reshape(mask, [w*h])] has nothing to reshape
    it to): after the master row has been inserted, [make] raises
    [ValueError] and no row is written to [Trace]. *)
Theorem Fluorescence_make_mask_mismatch m s i p w rs rc dp fn vf fps pages im :
  let key := Segmentation_key m s i p in
  let rois := restrict (db w Roi) key in
  restrict (db w Session) key = [rs] -> rs !! "data_path" = Some (VStr dp) ->
  restrict (db w Scan) key = [rc] -> rc !! "file_name" = Some (VStr fn) ->
  rc !! "fps" = Some vf -> float_of vf = Some fps ->
  files w !! os_path_join dp fn = Some (TifFile pages) ->
  skimage_imread pages = Some (Arr3 im) ->
  has_key (db w Segmentation) (pk Segmentation) key ->
  ~ present (db w Fluorescence) key ->
  Forall (fun r => exists mask, r !! "mask" = Some (VMask mask)) rois ->
  Exists (fun r => length (concat (mask_of r))
                   <> (length (hd [] im) * length (hd [] (hd [] im)))%nat) rois ->
  exists w' time,
    Fluorescence_make key w = (w', inl ValueError)
    /\ db w' Trace = db w Trace
    /\ db w' Fluorescence = db w Fluorescence ++ [<["time" := VFloats time]> key].
Proof.
  intros key rois Hrs Hdp Hrc Hfn Hfps Hq Hfile Hread Hseg Habs Hmasks Hbad.
  unfold Fluorescence_make.
  rewrite (bind_ok _ _ _ _ _ eq_refl).
  set (wp := World _ _ _ _ _ _).
  rewrite (bind_ok _ _ _ _ _ (fetch1_str_ok _ _ _ wp _ _ Hrs Hdp)).
  rewrite (bind_ok _ _ _ _ _ (fetch1_str_ok _ _ _ wp _ _ Hrc Hfn)).
  rewrite (bind_ok _ _ _ _ _ (io_imread_ok _ wp _ _ Hfile Hread)).
  cbv beta iota.
  set (wo := World _ _ _ _ _ _).
  unfold np_shape3.
  erewrite bind_ok; cycle 1.
  { rewrite (bind_ok _ _ _ _ _ (fetch1_ok _ _ _ wo _ _ Hrc Hfps)). by apply as_float_ok. }
  rewrite (bind_ok _ _ _ _ _ eq_refl).
  set (mrow := <["time" := _]> key).
  assert (Hext : forall a, a ∈ pk Fluorescence -> key !! a = mrow !! a).
  { intros a Ha. symmetry. apply (lookup_insert_other _ _ _ (pk Fluorescence)); [|done].
    compute_done. }
  assert (Hrow : row_ok Fluorescence mrow) by (subst mrow key; compute_done).
  assert (Hnokey : ~ has_key (db w Fluorescence) (pk Fluorescence) key).
  { apply not_present_not_has_key; [compute_done|done]. }
  assert (Hnodup : ~ has_key (db wo Fluorescence) (pk Fluorescence) mrow).
  { intros Hk. apply Hnokey. eapply has_key_ext; [|exact Hk].
    intros a Ha. symmetry. by apply Hext. }
  assert (Hpar : parents_present (db wo) Fluorescence mrow).
  { constructor; [|constructor]. eapply has_key_ext; [|exact Hseg]. exact Hext. }
  rewrite (bind_ok _ _ _ _ _ (insert1_ok _ _ _ Hrow Hnodup Hpar)).
  set (w1 := World _ _ _ _ _ _).
  assert (Hroi1 : restrict (db w1 Roi) key = rois).
  { subst w1. simpl. by rewrite set_table_other. }
  rewrite (bind_ok _ _ _ _ _ (fetch_key_and_mask key w1 rois Hroi1 Hmasks)).
  rewrite (bind_err _ _ _ _ _ (map_M_trace_of_mismatch _ _ _ rois w1 Hmasks Hbad)).
  eexists w1, _. split; [reflexivity|].
  subst w1. simpl. rewrite set_table_other by done. rewrite set_table_same. done.
Qed.

Lemma Fluorescence_make_mask_mismatch_witness :
  let key := Segmentation_key 0 "2017-05-15" 1 0 in
  let w := World (db fluorescence_world)
                 (<["/data/example_scan_01.tif"
                    := TifFile [[[1; 2]; [3; 4]]; [[5; 6]; [7; 8]]]]> ∅)
                 [] [] [] [] in
  exists w' time,
    Fluorescence_make key w = (w', inl ValueError)
    /\ db w' Trace = db w Trace
    /\ db w' Fluorescence = db w Fluorescence ++ [<["time" := VFloats time]> key].
Proof.
  intros key w.
  apply (Fluorescence_make_mask_mismatch 0 "2017-05-15" 1 0 w
           (default ∅ (head (restrict (db w Session) key)))
           (default ∅ (head (restrict (db w Scan) key)))
           "/data" "example_scan_01.tif" (VInt 15) (inject_Z 15)
           [[[1; 2]; [3; 4]]; [[5; 6]; [7; 8]]] [[[1; 2]; [3; 4]]; [[5; 6]; [7; 8]]]).
  - compute_done.
  - compute_done.
  - compute_done.
  - compute_done.
  - compute_done.
  - reflexivity.
  - compute_done.
  - reflexivity.
  - compute_done.
  - compute_done.
  - apply Forall_forall. intros r Hr.
    assert (Forall (fun r : row =>
                      Is_true match r !! "mask" with
                              | Some (VMask mask) => true
                              | _ => false
                              end) (restrict (db w Roi) key)) as Hall by compute_done.
    rewrite Forall_forall in Hall. specialize (Hall r Hr).
    destruct (r !! "mask") as [[| | | | | |mask| | |]|]; try done. by exists mask.
  - compute_done.
Defined.

(** ** [Neuron.make] on data it cannot use, and run twice *)

Lemma Neuron_make_reads data_dir m s w a items :
  files w !! Neuron_data_file data_dir m s = Some (NpyFile a) ->
  npy_slices a = Some items ->
  Neuron_make data_dir (Session_key m s) w
  = Neuron_make_loop items 0 (Session_key m s)
      (World (db w) (files w) (stdout w) (opened w ++ [Neuron_data_file data_dir m s])
             (journal w) (calls w)).
Proof.
  intros Hfile Hsl. unfold Neuron_make.
  rewrite (bind_ok _ _ _ _ _ (data_file_of_Session_key data_dir m s w)).
  erewrite bind_ok; cycle 1.
  { unfold np_load. erewrite bind_ok; [|unfold open_file; rewrite Hfile; reflexivity].
    reflexivity. }
  erewrite bind_ok; [|unfold np_iter; rewrite Hsl; reflexivity].
  reflexivity.
Qed.

(** X8: [Neuron.make] for a session whose data file is missing raises
    [FileNotFoundError], and for a file that holds an array of rank 0 (which
    [enumerate] cannot iterate over) raises [TypeError]; in both cases
    before any [insert1] and any [print]: the tables and the output are as
    they were, and the one file it tried is the session's. *)
Theorem Neuron_make_unreadable data_dir m s w :
  files w !! Neuron_data_file data_dir m s = None
  \/ (exists x, files w !! Neuron_data_file data_dir m s = Some (NpyFile (Npy0 x))) ->
  exists w',
    Neuron_make data_dir (Session_key m s) w
    = (w', inl (match files w !! Neuron_data_file data_dir m s with
                | None => FileNotFoundError
                | Some _ => TypeError
                end))
    /\ db w' = db w /\ journal w' = journal w /\ stdout w' = stdout w
    /\ opened w' = opened w ++ [Neuron_data_file data_dir m s].
Proof.
  intros Hfile. unfold Neuron_make.
  rewrite (bind_ok _ _ _ _ _ (data_file_of_Session_key data_dir m s w)).
  destruct Hfile as [Hnone|[x Hx]].
  - rewrite Hnone. erewrite bind_err; cycle 1.
    { unfold np_load. erewrite bind_err; [|unfold open_file; rewrite Hnone; reflexivity].
      reflexivity. }
    eexists. split; [reflexivity|]. done.
  - rewrite Hx. erewrite bind_ok; cycle 1.
    { unfold np_load. erewrite bind_ok; [|unfold open_file; rewrite Hx; reflexivity].
      reflexivity. }
    erewrite bind_err; [|reflexivity].
    eexists. split; [reflexivity|]. done.
Qed.

Lemma Neuron_make_unreadable_witness :
  let w := World (db ephys_world) ∅ [] [] [] [] in
  exists w',
    Neuron_make "/data" (Session_key 100 "2017-05-25") w = (w', inl FileNotFoundError)
    /\ db w' = db w /\ journal w' = journal w /\ stdout w' = stdout w
    /\ opened w' = opened w ++ ["/data/data_100_2017-05-25.npy"].
Proof.
  intros w.
  apply (Neuron_make_unreadable "/data" 100 "2017-05-25" w).
  left. reflexivity.
Defined.

(** X9: [Neuron.make] cannot be run twice for a session.  After a run for
    a session key that [Session] holds and [Neuron] had no row for, over a
    file with at least one slice, a second run for the same key raises
    [DuplicateError] at its first [insert1] and leaves the tables as the
    first run left them: it is the bookkeeping of [populate], not [make],
    that keeps a session from being imported again. *)
Theorem Neuron_make_twice data_dir m s w a n :
  has_key (db w Session) (pk Session) (Session_key m s) ->
  ~ present (db w Neuron) (Session_key m s) ->
  files w !! Neuron_data_file data_dir m s = Some (NpyFile a) ->
  shape0 a = Some n -> (0 < n)%nat ->
  exists w1 w2,
    Neuron_make data_dir (Session_key m s) w = (w1, inr tt)
    /\ Neuron_make data_dir (Session_key m s) w1 = (w2, inl DuplicateError)
    /\ db w2 = db w1 /\ stdout w2 = stdout w1.
Proof.
  intros Hsess Habs Hfile Hshape Hpos.
  assert (exists d rest, npy_slices a = Some (d :: rest)) as (d & rest & Hsl).
  { destruct a as [x|v|mx]; simpl in *; [done| |]; injection Hshape as <-.
    - destruct v; simpl in *; [lia|eauto].
    - destruct mx; simpl in *; [lia|eauto]. }
  destruct (Neuron_make_loop_ok m s (d :: rest) 0 (Session_key m s)
              (World (db w) (files w) (stdout w)
                     (opened w ++ [Neuron_data_file data_dir m s]) (journal w) (calls w)))
    as (w1 & Hrun & Hdb & Hoth & _ & Hfi & _); [done|done| |].
  { simpl. intros r Hin Hag. exfalso. apply Habs. unfold present.
    apply Exists_exists. exists r. split; [done|].
    apply (agree_on_matches Session_pk); [compute_done|done]. }
  simpl in Hdb, Hfi.
  exists w1, (World (db w1) (files w1) (stdout w1)
                    (opened w1 ++ [Neuron_data_file data_dir m s]) (journal w1) (calls w1)).
  split; [by rewrite (Neuron_make_reads _ _ _ _ _ _ Hfile Hsl)|].
  rewrite (Neuron_make_reads data_dir m s w1 a (d :: rest)); [|by rewrite Hfi|done].
  simpl Neuron_make_loop.
  set (r := <["activity" := d]> (<["neuron_id" := VInt 0]> (Session_key m s))).
  set (wo := World _ _ _ _ _ _).
  assert (Hrow : row_ok Neuron r) by (subst r; compute_done).
  assert (insert1 Neuron r wo = (wo, inl DuplicateError)) as Hins.
  { unfold insert1.
    rewrite decide_True by exact Hrow.
    rewrite decide_True; [reflexivity|].
    change (db wo) with (db w1). rewrite Hdb. unfold has_key. apply Exists_app. right.
    apply Exists_exists. exists r. split; [apply list_elem_of_here|].
    unfold agree_on. apply Forall_forall. intros b Hb.
    split; [|reflexivity].
    destruct Hrow as [Hreq _]. rewrite Forall_forall in Hreq. apply Hreq.
    unfold required, attrs. apply elem_of_app. by left. }
  rewrite (bind_err _ _ _ _ _ Hins). split; [reflexivity|split; reflexivity].
Qed.

Lemma Neuron_make_twice_witness :
  exists w1 w2,
    Neuron_make "/data" (Session_key 100 "2017-05-25") ephys_world = (w1, inr tt)
    /\ Neuron_make "/data" (Session_key 100 "2017-05-25") w1 = (w2, inl DuplicateError)
    /\ db w2 = db w1 /\ stdout w2 = stdout w1.
Proof.
  apply (Neuron_make_twice "/data" 100 "2017-05-25" ephys_world
           (Npy2 [replicate 1000 (1 # 2)%Q]) 1).
  - compute_done.
  - compute_done.
  - reflexivity.
  - reflexivity.
  - lia.
Defined.

(** ** What [Neuron.make] prints *)

Lemma Neuron_make_loop_stdout m s items : forall idx (key : row) w w',
  key !! "mouse_id" = Some (VInt m) -> key !! "session_date" = Some (VStr s) ->
  Neuron_make_loop items idx key w = (w', inr tt) ->
  stdout w'
  = stdout w
    ++ imap (fun i _ => Line ("Populated neuron=" +:+ dec_Z (idx + Z.of_nat i)
                              +:+ " for mouse_id=" +:+ dec_Z m
                              +:+ " on session_date=" +:+ s)) items.
Proof.
  induction items as [|d items IH]; intros idx key w w' Hm Hs Hrun; simpl in Hrun.
  - injection Hrun as <-. simpl. by rewrite app_nil_r.
  - set (r := <["activity" := d]> (<["neuron_id" := VInt idx]> key)) in *.
    apply bind_inv_ok in Hrun as (w1 & [] & Hins & Hrun).
    assert (stdout w1 = stdout w) as Hst1.
    { pose proof (insert1_frame Neuron r w) as (_ & _ & _ & H). by rewrite Hins in H. }
    assert (r !! "neuron_id" = Some (VInt idx)) as Hn
      by (subst r; by rewrite lookup_insert_ne, lookup_insert_eq).
    rewrite (bind_ok _ _ _ _ _ (format_field_ok r "neuron_id" (VInt idx) _ w1 Hn eq_refl))
      in Hrun.
    assert (r !! "mouse_id" = Some (VInt m)) as Hm'
      by (subst r; by rewrite !lookup_insert_ne).
    assert (r !! "session_date" = Some (VStr s)) as Hs'
      by (subst r; by rewrite !lookup_insert_ne).
    rewrite (bind_ok _ _ _ _ _ (format_field_ok r "mouse_id" (VInt m) _ w1 Hm' eq_refl))
      in Hrun.
    rewrite (bind_ok _ _ _ _ _ (format_field_ok r "session_date" (VStr s) _ w1 Hs' eq_refl))
      in Hrun.
    rewrite (bind_ok _ _ _ _ _ eq_refl) in Hrun.
    apply (IH _ _ _ _ Hm' Hs') in Hrun. rewrite Hrun. simpl stdout.
    rewrite Hst1, <- app_assoc. simpl. rewrite Z.add_0_r. do 2 f_equal.
    apply imap_ext. intros i x _. unfold compose.
    by replace (idx + 1 + Z.of_nat i) with (idx + Z.of_nat (S i)) by lia.
Qed.

Lemma imap_const_seq {A B} (g : nat -> B) (l : list A) :
  imap (fun i _ => g i) l = map g (seq 0 (length l)).
Proof.
  revert g. induction l as [|x l IH]; intros g; [done|].
  simpl. f_equal. rewrite <- seq_shift, map_map. apply (IH (fun i => g (S i))).
Qed.

(** X12: on a run of [Neuron.make] as [populate] starts it (the session is
    in [Session], [Neuron] has no row for it, the file holds an array with
    [n] slices), what is printed is one line per neuron inserted, in the
    order of the slices: [Populated neuron=idx for mouse_id=m on
    session_date=s] for [idx] from [0] to [n - 1]. *)
Theorem Neuron_make_prints data_dir m s w a n :
  has_key (db w Session) (pk Session) (Session_key m s) ->
  ~ present (db w Neuron) (Session_key m s) ->
  files w !! Neuron_data_file data_dir m s = Some (NpyFile a) ->
  shape0 a = Some n ->
  exists w',
    Neuron_make data_dir (Session_key m s) w = (w', inr tt)
    /\ stdout w'
       = stdout w
         ++ map (fun idx => Line ("Populated neuron=" +:+ dec_Z (Z.of_nat idx)
                                  +:+ " for mouse_id=" +:+ dec_Z m
                                  +:+ " on session_date=" +:+ s)) (seq 0 n).
Proof.
  intros Hsess Habs Hfile Hshape.
  assert (exists items, npy_slices a = Some items /\ length items = n) as (items & Hsl & Hlen).
  { destruct a; simpl in *; [done| |]; injection Hshape as <-;
      eexists; (split; [reflexivity|]); by rewrite length_map. }
  destruct (Neuron_make_loop_ok m s items 0 (Session_key m s)
              (World (db w) (files w) (stdout w)
                     (opened w ++ [Neuron_data_file data_dir m s]) (journal w) (calls w)))
    as (w' & Hrun & _); [done|done| |].
  { simpl. intros r Hin Hag. exfalso. apply Habs. unfold present.
    apply Exists_exists. exists r. split; [done|].
    apply (agree_on_matches Session_pk); [compute_done|done]. }
  exists w'. split; [by rewrite (Neuron_make_reads _ _ _ _ _ _ Hfile Hsl)|].
  rewrite (Neuron_make_loop_stdout m s items 0 (Session_key m s) _ _ eq_refl eq_refl Hrun).
  simpl stdout. f_equal. subst n. apply imap_const_seq.
Qed.

Lemma Neuron_make_prints_witness :
  exists w',
    Neuron_make "/data" (Session_key 100 "2017-05-25") ephys_world = (w', inr tt)
    /\ stdout w'
       = stdout ephys_world
         ++ map (fun idx => Line ("Populated neuron=" +:+ dec_Z (Z.of_nat idx)
                                  +:+ " for mouse_id=" +:+ dec_Z 100
                                  +:+ " on session_date=" +:+ "2017-05-25")) (seq 0 1).
Proof.
  apply (Neuron_make_prints "/data" 100 "2017-05-25" ephys_world
           (Npy2 [replicate 1000 (1 # 2)%Q]) 1).
  - compute_done.
  - compute_done.
  - reflexivity.
  - reflexivity.
Defined.

(** ** [AverageFrame.make] when it raises *)

Lemma io_imread_frame p w :
  db (io_imread p w).1 = db w /\ journal (io_imread p w).1 = journal w
  /\ stdout (io_imread p w).1 = stdout w.
Proof.
  unfold io_imread, bind, open_file.
  destruct (files w !! p) as [[pages|a]|]; [destruct (skimage_imread pages)| |]; done.
Qed.

(** X13: [AverageFrame.make] writes last.  Handed a scan key, a run that
    raises (no session or scan row for the key, or more than one; a file
    that is missing or is not an image stack; a row already there; a scan
    that is not in [Scan]) has written to no table and printed nothing. *)
Theorem AverageFrame_make_fails_clean m s i w w' e :
  AverageFrame_make (Scan_key m s i) w = (w', inl e) ->
  db w' = db w /\ journal w' = journal w /\ stdout w' = stdout w.
Proof.
  unfold AverageFrame_make. intros H.
  unfold bind at 1 in H.
  destruct ((v <- fetch1 Session (Scan_key m s i) "data_path";; as_str v) w)
    as [w1 [e1|dp]] eqn:E1;
    apply (unchanged_run (v <- fetch1 Session (Scan_key m s i) "data_path";; as_str v))
      in E1 as ->; auto with frame.
  { by injection H as <- _. }
  unfold bind at 1 in H.
  destruct ((v <- fetch1 Scan (Scan_key m s i) "file_name";; as_str v) w)
    as [w1 [e1|fn]] eqn:E2;
    apply (unchanged_run (v <- fetch1 Scan (Scan_key m s i) "file_name";; as_str v))
      in E2 as ->; auto with frame.
  { by injection H as <- _. }
  unfold bind at 1 in H.
  pose proof (io_imread_frame (os_path_join dp fn) w) as (Hd & Hj & Hs).
  destruct (io_imread (os_path_join dp fn) w) as [w1 [e1|im]]; simpl in Hd, Hj, Hs.
  { by injection H as <- _. }
  unfold bind at 1 in H.
  set (r := <["average_frame" := np_mean im]> (Scan_key m s i)) in *.
  destruct (insert1_cases AverageFrame r w1) as [[Hins _]|[e1 Hins]]; rewrite Hins in H.
  - exfalso.
    rewrite (bind_ok _ _ _ _ _ (format_field_ok r "mouse_id" (VInt m) _ _ eq_refl eq_refl))
      in H.
    rewrite (bind_ok _ _ _ _ _
               (format_field_ok r "session_date" (VStr s) _ _ eq_refl eq_refl)) in H.
    rewrite (bind_ok _ _ _ _ _ (format_field_ok r "scan_idx" (VInt i) _ _ eq_refl eq_refl))
      in H.
    discriminate H.
  - injection H as <- _. split; [exact Hd|split; [exact Hj|exact Hs]].
Qed.

Lemma AverageFrame_make_fails_clean_witness :
  let w := World (db imaging_world) ∅ [] [] [] [] in
  let res := AverageFrame_make (Scan_key 0 "2017-05-15" 1) w in
  res.2 = inl FileNotFoundError
  /\ db res.1 = db w /\ journal res.1 = journal w /\ stdout res.1 = stdout w.
Proof.
  intros w res.
  assert (res.2 = inl FileNotFoundError) as Hres by compute_done.
  split; [exact Hres|].
  apply (AverageFrame_make_fails_clean 0 "2017-05-15" 1 w res.1 FileNotFoundError).
  rewrite <- Hres. apply surjective_pairing.
Defined.

(** ** From the file of a scan to its segmentation *)

Lemma matches_subseteq (k1 k2 r : row) : k1 ⊆ k2 -> matches k2 r -> matches k1 r.
Proof.
  intros Hsub Hm a v Hl. apply (Hm a v). by eapply lookup_weaken.
Qed.

Lemma Scan_key_subseteq m s i p : Scan_key m s i ⊆ Segmentation_key m s i p.
Proof. unfold Segmentation_key. by apply insert_subseteq. Qed.

Lemma restrict_app rows1 rows2 key :
  restrict (rows1 ++ rows2) key = restrict rows1 key ++ restrict rows2 key.
Proof. unfold restrict. apply filter_app. Qed.

Lemma restrict_absent rows key : ~ present rows key -> restrict rows key = [].
Proof.
  intros Habs. unfold restrict, present in *.
  destruct (filter (matches key) rows) as [|r l] eqn:E; [done|].
  exfalso. apply Habs, Exists_exists. exists r.
  assert (r ∈ filter (matches key) rows) as Hin by (rewrite E; apply list_elem_of_here).
  apply list_elem_of_filter in Hin as [? ?]. by split.
Qed.

Lemma absent_subseteq rows (k1 k2 : row) :
  k1 ⊆ k2 -> ~ present rows k1 -> ~ present rows k2.
Proof.
  intros Hsub Habs Hp. apply Habs. unfold present in *.
  eapply Exists_impl; [exact Hp|]. intros r. by apply matches_subseteq.
Qed.

Lemma matches_AverageFrame_row m s i p avg :
  matches (Segmentation_key m s i p) (<["average_frame" := VImage avg]> (Scan_key m s i)).
Proof.
  intros a v Hl. simpl.
  unfold Segmentation_key, Scan_key, Session_key in Hl.
  apply lookup_insert_Some in Hl as [[<- <-]|[_ Hl]]; [done|].
  apply lookup_insert_Some in Hl as [[<- <-]|[_ Hl]]; [done|].
  apply lookup_insert_Some in Hl as [[<- <-]|[_ Hl]]; [done|].
  apply lookup_insert_Some in Hl as [[<- <-]|[_ Hl]]; [done|].
  by rewrite lookup_empty in Hl.
Qed.

Lemma image_ext {A} (d : A) wd ht (a : list (list A)) (f : nat -> nat -> A) :
  has_shape wd ht a ->
  (forall x y, (x < wd)%nat -> (y < ht)%nat ->
     default d (a !! x ≫= fun r => r !! y) = f x y) ->
  a = map (fun x => map (fun y => f x y) (seq 0 ht)) (seq 0 wd).
Proof.
  intros [Hl Hr] Hpx. apply list_eq_same_length with wd; [by rewrite length_map, length_seq|done|].
  intros x r r' Hx Hr1 Hr2.
  rewrite list_lookup_fmap, lookup_seq_lt in Hr2 by done. simpl in Hr2. injection Hr2 as <-.
  assert (length r = ht) as Hlen.
  { rewrite Forall_forall in Hr. apply Hr. by eapply list_elem_of_lookup_2. }
  apply list_eq_same_length with ht; [by rewrite length_map, length_seq|done|].
  intros y v v' Hy Hv1 Hv2.
  rewrite list_lookup_fmap, lookup_seq_lt in Hv2 by done. simpl in Hv2. injection Hv2 as <-.
  rewrite <- (Hpx x y Hx Hy), Hr1. simpl. by rewrite Hv1.
Qed.

(** [np.mean], where the sums are exact, gives the mean image. *)
Lemma np_mean_axis0_mean_image wd ht im :
  im <> [] -> Forall (has_shape wd ht) im ->
  (forall x y, (x < wd)%nat -> (y < ht)%nat ->
     sum_abs (map (fun frame => sample frame x y) im) < 2 ^ 53) ->
  np_mean_axis0 im = mean_image im wd ht.
Proof.
  intros Hne Him Hsum. unfold mean_image.
  apply (image_ext 0%Q); [by apply np_mean_axis0_spec|].
  intros x y Hx Hy. apply (np_mean_axis0_exact wd ht); auto.
Qed.

Lemma img_gt_above avg threshold : img_gt avg threshold = above avg threshold.
Proof.
  unfold img_gt, above. apply map_ext. intros r. apply map_ext. intros a.
  destruct (Qlt_le_dec threshold a) as [H|H].
  - by apply Qltb_lt.
  - by apply Qltb_ge.
Qed.

Lemma bind_singleton_fmap {A B} (f : A -> B) (l : list A) :
  l ≫= (fun x => [f x]) = f <$> l.
Proof. induction l as [|x l IH]; [done|]. rewrite bind_cons, IH. done. Qed.

Lemma row_enum {A C} (r : list A) (h : option A -> list C) :
  (y ← seq 0 (length r); h (r !! y)) = r ≫= (h ∘ Some).
Proof.
  induction r as [|v r IH]; [done|].
  simpl length. simpl seq. rewrite !bind_cons. f_equal.
  rewrite <- fmap_S_seq, list_fmap_bind. exact IH.
Qed.

Lemma rows_enum {A C} (a : list (list A)) (h : option A -> list C) :
  (x ← seq 0 (length a); y ← seq 0 (length (default [] (a !! x))); h (at2 a x y))
  = concat a ≫= (h ∘ Some).
Proof.
  induction a as [|r a IH]; [done|].
  simpl length. simpl seq. rewrite bind_cons. simpl concat. rewrite bind_app.
  f_equal.
  - apply (row_enum r h).
  - rewrite <- IH, <- fmap_S_seq, list_fmap_bind. done.
Qed.

Lemma at2_positions {A} (a : list (list A)) :
  map (fun xy : nat * nat => at2 a xy.1 xy.2) (positions a) = map Some (concat a).
Proof.
  change (map ?f ?l) with (f <$> l).
  rewrite <- !bind_singleton_fmap. unfold positions.
  rewrite bind_pairs. apply (rows_enum a (fun o => [o])).
Qed.

Lemma length_filter_fmap {A B} (f : A -> B) (P : B -> Prop) `{!forall y, Decision (P y)}
    (l : list A) :
  length (filter P (f <$> l)) = length (filter (fun x => P (f x)) l).
Proof.
  induction l as [|x l IH]; [done|].
  rewrite fmap_cons, !filter_cons. destruct (decide (P (f x))); simpl; by rewrite IH.
Qed.

Lemma count_eq_pixels label_im l : count_eq label_im l = Z.of_nat (pixels label_im l).
Proof.
  unfold count_eq, pixels. f_equal.
  transitivity (length (filter (fun o => o = Some l) (Some <$> concat label_im))).
  - rewrite length_filter_fmap. f_equal. apply list_filter_iff.
    intros v. split; [by intros ->|by intros [= ->]].
  - change (Some <$> concat label_im) with (map Some (concat label_im)).
    rewrite <- at2_positions. apply length_filter_fmap.
Qed.

Lemma keep_large_without_small label_im size_cutoff :
  map (map (keep_large label_im size_cutoff)) label_im = without_small label_im size_cutoff.
Proof.
  unfold without_small. apply map_ext. intros r. apply map_ext. intros l.
  unfold keep_large. rewrite count_eq_pixels.
  destruct (Qlt_le_dec _ _) as [H|H].
  - apply Qltb_lt in H. by rewrite H.
  - apply Qltb_ge in H. by rewrite H.
Qed.

Lemma at2_mean_image im wd ht x y a :
  at2 (mean_image im wd ht) x y = Some a ->
  (x < wd)%nat /\ (y < ht)%nat
  /\ a = fl (arith_mean (map (fun frame => inject_Z (sample frame x y)) im)).
Proof.
  unfold at2, mean_image. rewrite list_lookup_fmap.
  destruct (seq 0 wd !! x) as [x'|] eqn:Ex; [|done]. simpl.
  apply lookup_seq in Ex as [-> Hx]. rewrite list_lookup_fmap.
  destruct (seq 0 ht !! y) as [y'|] eqn:Ey; [|done]. simpl.
  apply lookup_seq in Ey as [-> Hy]. intros [= <-]. done.
Qed.

Lemma at2_above avg threshold x y :
  at2 (above avg threshold) x y = Some true ->
  exists a, at2 avg x y = Some a /\ (threshold < a)%Q.
Proof.
  unfold above. rewrite at2_map_map.
  destruct (at2 avg x y) as [a|]; [|done]. simpl.
  destruct (Qlt_le_dec threshold a) as [H|H]; [|done]. intros _. by exists a.
Qed.

(** X10: the two steps of the imaging pipeline compose.  For a scan with
    no [AverageFrame] row yet, whose file [io.imread] loads as one or more
    frames of [wd] by [ht] integer samples (at every place the magnitudes of
    the frames' samples sum to less than [2^53]), and a parameter set with
    no [Segmentation] row for it: when the labelling routine keeps its
    promise on the mask of the places where the mean image exceeds the
    threshold, which takes a place where it does not,
    [AverageFrame.make] followed by [Segmentation.make] both return; in
    between, [(AverageFrame & key).fetch1('average_frame')] gives back the
    mean image, each sample the float64 nearest to the mean of the frames'
    samples there; and the [segmented_masks] stored at the end is the
    labelling of that mask with every label carried by fewer than
    [size_cutoff] places set to [0], so that it is other than [0] only where
    the mean exceeds the threshold. *)
Theorem AverageFrame_then_Segmentation ndimage_label m s i p w rs rsc dp fn pages im wd ht
    rp vt vc threshold size_cutoff label_im nb :
  let skey := Scan_key m s i in
  let key := Segmentation_key m s i p in
  let avg := mean_image im wd ht in
  let mask := above avg threshold in
  restrict (db w Session) skey = [rs] -> rs !! "data_path" = Some (VStr dp) ->
  restrict (db w Scan) skey = [rsc] -> rsc !! "file_name" = Some (VStr fn) ->
  files w !! os_path_join dp fn = Some (TifFile pages) ->
  skimage_imread pages = Some (Arr3 im) ->
  im <> [] -> Forall (has_shape wd ht) im ->
  (forall x y, (x < wd)%nat -> (y < ht)%nat ->
     sum_abs (map (fun frame => sample frame x y) im) < 2 ^ 53) ->
  has_key (db w Scan) (pk Scan) skey ->
  ~ present (db w AverageFrame) skey ->
  restrict (db w SegmentationParam) key = [rp] ->
  rp !! "threshold" = Some vt -> float_of vt = Some threshold ->
  rp !! "size_cutoff" = Some vc -> float_of vc = Some size_cutoff ->
  has_key (db w SegmentationParam) (pk SegmentationParam) key ->
  ndimage_label mask = (label_im, nb) ->
  label_contract mask label_im nb ->
  ~ present (db w Segmentation) key ->
  parts_have_master (db w) ->
  exists w1 w2,
    AverageFrame_make skey w = (w1, inr tt)
    /\ fetch1 AverageFrame skey "average_frame" w1 = (w1, inr (VImage avg))
    /\ Segmentation_make ndimage_label key w1 = (w2, inr tt)
    /\ db w2 AverageFrame = db w AverageFrame ++ [<["average_frame" := VImage avg]> skey]
    /\ db w2 Segmentation
       = db w Segmentation
         ++ [<["segmented_masks" := VLabels (without_small label_im size_cutoff)]> key]
    /\ (forall x y l, at2 (without_small label_im size_cutoff) x y = Some l -> l <> 0 ->
          (x < wd)%nat /\ (y < ht)%nat
          /\ (threshold
              < fl (arith_mean (map (fun frame => inject_Z (sample frame x y)) im)))%Q).
Proof.
  intros skey key avg mask Hrs Hdp Hrsc Hfn Hfile Hread Hne Him Hsum Hscan Habs Hrp Hvt Hth
         Hvc Hsc Hkp Hlab Hc Hnoseg Hpm.
  destruct (AverageFrame_make_ok m s i w rs rsc dp fn pages (Arr3 im)
              Hrs Hdp Hrsc Hfn Hfile Hread Hscan Habs)
    as (w1 & Hrun1 & Hav & Hoth1 & _).
  simpl np_mean in Hav.
  rewrite (np_mean_axis0_mean_image wd ht im Hne Him Hsum) in Hav.
  fold skey avg in Hrun1, Hav.
  subst mask. rewrite <- img_gt_above in Hlab, Hc.
  set (arow := <["average_frame" := VImage avg]> skey) in *.
  assert (Hra_s : restrict (db w1 AverageFrame) skey = [arow]).
  { rewrite Hav, restrict_app, (restrict_absent _ _ Habs). simpl.
    unfold restrict. rewrite filter_cons, decide_True, filter_nil; [done|].
    subst arow. apply matches_insert_fresh. reflexivity. }
  assert (Hra : restrict (db w1 AverageFrame) key = [arow]).
  { rewrite Hav, restrict_app, restrict_absent; cycle 1.
    { eapply absent_subseteq; [apply Scan_key_subseteq|exact Habs]. }
    simpl. unfold restrict. rewrite filter_cons, decide_True, filter_nil; [done|].
    apply matches_AverageFrame_row. }
  assert (Havg : arow !! "average_frame" = Some (VImage avg))
    by (subst arow; apply lookup_insert_eq).
  destruct (Segmentation_make_ok ndimage_label m s i p w1 arow avg rp vt vc threshold
              size_cutoff label_im nb) as (w2 & Hrun2 & Hseg & _ & Hoth2 & _).
  - exact Hra.
  - exact Havg.
  - by rewrite Hoth1.
  - exact Hvt.
  - exact Hth.
  - exact Hvc.
  - exact Hsc.
  - exact Hlab.
  - exact Hc.
  - rewrite Hav. unfold has_key. apply Exists_app. right. constructor.
    unfold agree_on. apply Forall_forall. intros a Ha.
    unfold pk, Session_pk in Ha. simpl in Ha.
    elem_cases Ha; (split; [eexists; reflexivity|reflexivity]).
  - by rewrite Hoth1.
  - by rewrite Hoth1.
  - intros t mt r Hm Hr. destruct t; try discriminate; injection Hm as <-.
    + rewrite Hoth1 in Hr |- * by done. by apply (Hpm Roi).
    + rewrite Hoth1 in Hr |- * by done. by apply (Hpm Trace).
  - exists w1, w2.
    split; [exact Hrun1|].
    split; [by apply (fetch1_ok _ _ _ _ arow)|].
    split; [exact Hrun2|].
    split; [by rewrite Hoth2, Hav|].
    split.
    { rewrite Hseg, Hoth1 by done. by rewrite keep_large_without_small. }
    intros x y l Hl Hnz. unfold without_small in Hl. rewrite at2_map_map in Hl.
    destruct (at2 label_im x y) as [l0|] eqn:El0; [|done]. simpl in Hl.
    assert (l0 <> 0) as Hnz0.
    { intros ->. destruct (Qlt_le_dec _ _); by injection Hl as <-. }
    destruct Hc as (_ & _ & _ & Hfg).
    pose proof (Hfg x y l0 El0 Hnz0) as Hm. rewrite img_gt_above in Hm.
    apply at2_above in Hm as (a & Ha & Hlt).
    apply at2_mean_image in Ha as (Hx & Hy & ->). done.
Qed.

Lemma AverageFrame_then_Segmentation_witness :
  let w := (insert1 SegmentationParam
              (<["seg_param_id" := VInt 0]> (<["threshold" := VInt 50]>
               (<["size_cutoff" := VInt 50]> ∅))) imaging_world).1 in
  let skey := Scan_key 0 "2017-05-15" 1 in
  let key := Segmentation_key 0 "2017-05-15" 1 0 in
  let im := [example_frame 60; example_frame 80] in
  let avg := mean_image im 10 10 in
  let label_im := (label4 (above avg (inject_Z 50))).1 in
  exists w1 w2,
    AverageFrame_make skey w = (w1, inr tt)
    /\ fetch1 AverageFrame skey "average_frame" w1 = (w1, inr (VImage avg))
    /\ Segmentation_make label4 key w1 = (w2, inr tt)
    /\ db w2 AverageFrame = db w AverageFrame ++ [<["average_frame" := VImage avg]> skey]
    /\ db w2 Segmentation
       = db w Segmentation
         ++ [<["segmented_masks" := VLabels (without_small label_im (inject_Z 50))]> key]
    /\ (forall x y l, at2 (without_small label_im (inject_Z 50)) x y = Some l -> l <> 0 ->
          (x < 10)%nat /\ (y < 10)%nat
          /\ (inject_Z 50
              < fl (arith_mean (map (fun frame => inject_Z (sample frame x y)) im)))%Q).
Proof.
  intros w skey key im avg label_im.
  apply (AverageFrame_then_Segmentation label4 0 "2017-05-15" 1 0 w
           (Session_row 0 "2017-05-15" 0 "Edgar Y. Walker" "/data")
           (Scan_row 0 "2017-05-15" 1 150 920 26 15 "example_scan_01.tif")
           "/data" "example_scan_01.tif" im im 10 10
           (default ∅ (head (restrict (db w SegmentationParam) key)))
           (VInt 50) (VInt 50) (inject_Z 50) (inject_Z 50) label_im
           (label4 (above avg (inject_Z 50))).2).
  - compute_done.
  - compute_done.
  - compute_done.
  - compute_done.
  - compute_done.
  - reflexivity.
  - done.
  - compute_done.
  - intros x y Hx Hy.
    assert (Forall (fun x => Forall (fun y =>
              sum_abs (map (fun frame => sample frame x y) im) < 2 ^ 53) (seq 0 10))
              (seq 0 10)) as Hall by compute_done.
    rewrite Forall_forall in Hall. specialize (Hall x). rewrite Forall_forall in Hall.
    apply Hall; apply elem_of_seq; lia.
  - compute_done.
  - compute_done.
  - compute_done.
  - compute_done.
  - reflexivity.
  - compute_done.
  - reflexivity.
  - compute_done.
  - subst label_im. by destruct (label4 _).
  - apply label_contract_b_sound. compute_done.
  - compute_done.
  - apply parts_have_master_empty; compute_done.
Defined.

(** ** The data file of a session *)

Lemma list_ascii_of_string_app (a b : string) :
  list_ascii_of_string (a +:+ b) = list_ascii_of_string a ++ list_ascii_of_string b.
Proof.
  induction a as [|c a IH]; [done|].
  change (c :: list_ascii_of_string (a +:+ b)
          = c :: (list_ascii_of_string a ++ list_ascii_of_string b)).
  by rewrite IH.
Qed.

Lemma list_ascii_of_string_inj (a b : string) :
  list_ascii_of_string a = list_ascii_of_string b -> a = b.
Proof.
  intros H. rewrite <- (string_of_list_ascii_of_string a),
              <- (string_of_list_ascii_of_string b). by rewrite H.
Qed.

Lemma uint_no_underscore d :
  "_"%char ∉ list_ascii_of_string (NilEmpty.string_of_uint d).
Proof.
  induction d; simpl; [apply not_elem_of_nil|..];
    (apply not_elem_of_cons; split; [discriminate|assumption]).
Qed.

Lemma dec_Z_no_underscore z : "_"%char ∉ list_ascii_of_string (dec_Z z).
Proof.
  unfold dec_Z, NilZero.string_of_int, NilZero.string_of_uint.
  destruct (Z.to_int z) as [d|d]; destruct d;
    try (simpl; apply not_elem_of_cons; split; [discriminate|]);
    first [apply not_elem_of_nil | apply uint_no_underscore
          | simpl; apply not_elem_of_cons; split; [discriminate|];
            first [apply not_elem_of_nil | apply uint_no_underscore]].
Qed.

Lemma dec_Z_inj z1 z2 : dec_Z z1 = dec_Z z2 -> z1 = z2.
Proof.
  intros H. apply DecimalZ.to_int_inj.
  assert (forall z, NilZero.int_of_string (dec_Z z) = Some (Z.to_int z)) as Hparse.
  { intros z. unfold dec_Z. apply NilZero.isi.
    - destruct z; simpl; intros [= Hz].
      by apply DecimalPos.Unsigned.to_uint_nonnil in Hz.
    - destruct z; simpl; intros [= Hz].
      by apply DecimalPos.Unsigned.to_uint_nonnil in Hz. }
  pose proof (Hparse z1) as H1. rewrite H, Hparse in H1. by injection H1.
Qed.

Lemma split_at_first (c : ascii) l1 : forall l2 r1 r2,
  c ∉ l1 -> c ∉ l2 -> l1 ++ c :: r1 = l2 ++ c :: r2 -> l1 = l2 /\ r1 = r2.
Proof.
  induction l1 as [|a l1 IH]; intros [|b l2] r1 r2 H1 H2 Heq; simpl in Heq.
  - by injection Heq.
  - injection Heq as <- _. exfalso. apply H2, list_elem_of_here.
  - injection Heq as -> _. exfalso. apply H1, list_elem_of_here.
  - injection Heq as <- Heq. apply not_elem_of_cons in H1 as [_ H1].
    apply not_elem_of_cons in H2 as [_ H2].
    destruct (IH l2 r1 r2 H1 H2 Heq) as [-> ->]. done.
Qed.

(** X11: the path [data_dir/data_{mouse_id}_{session_date}.npy] that
    [Neuron.make] builds from a session key names the session: two
    sessions of one data directory have the same data file only when they
    have the same [mouse_id] and the same [session_date]. *)
Theorem Neuron_data_file_inj data_dir m1 s1 m2 s2 :
  Neuron_data_file data_dir m1 s1 = Neuron_data_file data_dir m2 s2 ->
  m1 = m2 /\ s1 = s2.
Proof.
  unfold Neuron_data_file. intros H.
  apply (f_equal list_ascii_of_string) in H.
  rewrite !list_ascii_of_string_app in H.
  do 2 apply app_inv_head in H.
  change (list_ascii_of_string "_") with ["_"%char] in H. simpl in H.
  apply split_at_first in H as [Hm Hs]; [|apply dec_Z_no_underscore..].
  apply list_ascii_of_string_inj, dec_Z_inj in Hm.
  apply app_inv_tail, list_ascii_of_string_inj in Hs. done.
Qed.

Lemma Neuron_data_file_inj_witness :
  (100 : Z) = 100 /\ "2017-05-25" = "2017-05-25".
Proof.
  apply (Neuron_data_file_inj "/data" 100 "2017-05-25" 100 "2017-05-25"). reflexivity.
Defined.
